(** * CS2 player statistics scraper: extraction engine and batch orchestrator

    A shallow embedding of [ScraperService] (the callback handed to
    [page.evaluate] and [scrapePlayerStats]), of [DatabaseService] (its
    SQL statements) and of [ScraperManager] ([processSingleSteamId] and
    [processBatch]).  Line numbers are those of
    [src/services/scraper.service.js], which holds the first two, and of
    the file of [ScraperManager].

    Conventions.
    - A JavaScript string is a [string] of code units below 256 (the
      Latin-1 range); a text with other characters is outside the
      model.  [trim], [toLowerCase] and [toUpperCase] are those of
      JavaScript on this range; the upper case of two letters of the
      range lies outside it (see [Js.toUpperCase]).
    - [parseInt] of a digit string is an [N] and [parseFloat] of a text
      [d+.d+] is the rational it denotes: the rounding to a double (of
      integers above 2^53, of long decimals) is not modelled.
    - The database is reached through [dbManager.execute], which can
      reject; a list in the world says which of the coming calls do.
    - The console's [stop] command runs between two steps of the event
      loop; it is delivered while a scrape is awaited.
    - A JavaScript object used as a record of optional keys is an
      association list in insertion order, as [Object.keys] shows it.
    - A table of the database is the list of its rows; [UPDATE ... WHERE]
      is a [map], [INSERT ... ON DUPLICATE KEY UPDATE] an upsert on the
      unique key. *)

From Stdlib Require Import List String Ascii Bool Arith NArith ZArith QArith Lia.
From Stdlib Require Import Sorting.Sorted Sorting.Permutation DecimalString.
Import ListNotations.

Local Open Scope string_scope.
Local Open Scope list_scope.

(* ================================================================== *)
(** ** String primitives used by the callback *)
(* ================================================================== *)

Module Js.

Definition is_digit (c : ascii) : bool :=
  let n := N_of_ascii c in (48 <=? n)%N && (n <=? 57)%N.

(** White space and line terminators removed by
    [String.prototype.trim], below 256: TAB, LF, VT, FF, CR, SPACE and
    the no-break space U+00A0. *)
Definition is_space (c : ascii) : bool :=
  let n := N_of_ascii c in
  ((9 <=? n)%N && (n <=? 13)%N) || (n =? 32)%N || (n =? 160)%N.

(** The letters of the range with another case: A-Z and U+00C0-U+00DE
    but the multiplication sign U+00D7; a-z and U+00E0-U+00FE but the
    division sign U+00F7. *)
Definition is_upper (n : N) : bool :=
  ((65 <=? n)%N && (n <=? 90)%N) ||
  ((192 <=? n)%N && (n <=? 222)%N && negb (n =? 215)%N).

Definition is_lower (n : N) : bool :=
  ((97 <=? n)%N && (n <=? 122)%N) ||
  ((224 <=? n)%N && (n <=? 254)%N && negb (n =? 247)%N).

Definition lower_char (c : ascii) : ascii :=
  let n := N_of_ascii c in
  if is_upper n then ascii_of_N (n + 32) else c.

Definition upper_char (c : ascii) : ascii :=
  let n := N_of_ascii c in
  if is_lower n then ascii_of_N (n - 32) else c.

Fixpoint map_chars (f : ascii -> ascii) (s : string) : string :=
  match s with
  | EmptyString => EmptyString
  | String c s' => String (f c) (map_chars f s')
  end.

Definition toLowerCase : string -> string := map_chars lower_char.

(** The sharp s U+00DF becomes [SS].  The upper case of the micro sign
    U+00B5 and of U+00FF lies above 255: they are left as they are, which
    makes no difference to the only use of the result, a comparison with
    a word of A-Z. *)
Fixpoint toUpperCase (s : string) : string :=
  match s with
  | EmptyString => EmptyString
  | String c s' =>
      if (N_of_ascii c =? 223)%N
      then String "S" (String "S" (toUpperCase s'))
      else String (upper_char c) (toUpperCase s')
  end.

Fixpoint trimStart (s : string) : string :=
  match s with
  | EmptyString => EmptyString
  | String c s' => if is_space c then trimStart s' else s
  end.

Fixpoint trimEnd (s : string) : string :=
  match s with
  | EmptyString => EmptyString
  | String c s' =>
      match trimEnd s' with
      | EmptyString => if is_space c then EmptyString else String c EmptyString
      | r => String c r
      end
  end.

Definition trim (s : string) : string := trimEnd (trimStart s).

(** [s.includes(sub)] *)
Fixpoint includes (s sub : string) : bool :=
  String.prefix sub s ||
  match s with
  | EmptyString => false
  | String _ s' => includes s' sub
  end.

Fixpoint all_digits (s : string) : bool :=
  match s with
  | EmptyString => true
  | String c s' => is_digit c && all_digits s'
  end.

(** [/^\d+$/] *)
Definition is_integer_text (s : string) : bool :=
  negb (s =? "") && all_digits s.

(** [/^\d{2,3}$/] *)
Definition is_2_3_digits (s : string) : bool :=
  all_digits s && ((String.length s =? 2)%nat || (String.length s =? 3)%nat).

(** The text before the first occurrence of [c], and the text after it. *)
Fixpoint split_at (c : ascii) (s : string) : string * option string :=
  match s with
  | EmptyString => (EmptyString, None)
  | String d s' =>
      if Ascii.eqb d c then (EmptyString, Some s')
      else let (a, b) := split_at c s' in (String d a, b)
  end.

(** [/^\d+%$/] *)
Definition is_percent_text (s : string) : bool :=
  match split_at "%" s with
  | (d, Some EmptyString) => is_integer_text d
  | _ => false
  end.

(** [/^\d+\.\d+$/] *)
Definition is_decimal_text (s : string) : bool :=
  match split_at "." s with
  | (a, Some b) => is_integer_text a && is_integer_text b
  | _ => false
  end.

(** [s.split(c)[0]] *)
Definition split_head (c : ascii) (s : string) : string := fst (split_at c s).

Definition digit_value (c : ascii) : N := (N_of_ascii c - 48)%N.

Fixpoint parse_digits (acc : N) (s : string) : N :=
  match s with
  | EmptyString => acc
  | String c s' => parse_digits (acc * 10 + digit_value c)%N s'
  end.

(** [parseInt(s)] for a text that matches [/^\d+$/]. *)
Definition parseInt (s : string) : N := parse_digits 0 s.

(** [parseFloat(s)] for a text that matches [/^\d+\.\d+$/]: the digits
    with the point removed over ten to the number of decimals. *)
Definition parseFloat (s : string) : Q :=
  let (a, b) := split_at "." s in
  let frac := match b with Some f => f | None => EmptyString end in
  Qred (Z.of_N (parse_digits (parse_digits 0 a) frac)
        # Pos.of_nat (10 ^ String.length frac)).

End Js.

(* ================================================================== *)
(** ** The document snapshot *)
(* ================================================================== *)

(** A node is a text node or an element with a tag name, a class list and
    child nodes.  Tag names are in lower case. *)
#[warnings="-register-all"]
Inductive Node : Type :=
| Text (data : string)
| Element (tag : string) (classes : list string) (children : list Node).

Fixpoint textContent (n : Node) : string :=
  match n with
  | Text s => s
  | Element _ _ cs => String.concat "" (map textContent cs)
  end.

Definition is_element (n : Node) : bool :=
  match n with Element _ _ _ => true | Text _ => false end.

Definition tagName (n : Node) : string :=
  match n with Element t _ _ => t | Text _ => "" end.

Definition classList (n : Node) : list string :=
  match n with Element _ c _ => c | Text _ => [] end.

(** [el.children]: the child elements. *)
Definition children (n : Node) : list Node :=
  match n with Element _ _ cs => filter is_element cs | Text _ => [] end.

(** An element as the callback meets it: the node, its ancestors (nearest
    first) and its index in [parentElement.children]. *)
Record Elem : Type := mkElem {
  node : Node;
  ancestors : list Node;
  position : nat
}.

Fixpoint elements_from (anc : list Node) (idx : nat) (n : Node) {struct n}
  : list Elem :=
  match n with
  | Text _ => []
  | Element _ _ cs =>
      mkElem n anc idx ::
      (fix walk (l : list Node) (i : nat) {struct l} : list Elem :=
         match l with
         | [] => []
         | c :: l' =>
             elements_from (n :: anc) i c ++
             walk l' (if is_element c then S i else i)
         end) cs 0%nat
  end.

Record Document : Type := mkDocument {
  documentElement : Node;
  pathname : string;       (* window.location.pathname *)
  href : string            (* window.location.href *)
}.

(** [document.querySelectorAll('*')], in document order. *)
Definition querySelectorAll_star (doc : Document) : list Elem :=
  elements_from [] 0 (documentElement doc).

Definition has_tag (t : string) (e : Elem) : bool := tagName (node e) =? t.

Definition has_class (c : string) (e : Elem) : bool :=
  existsb (String.eqb c) (classList (node e)).

(** [document.querySelectorAll(tag)] *)
Definition querySelectorAll_tag (doc : Document) (t : string) : list Elem :=
  filter (has_tag t) (querySelectorAll_star doc).

(** [el.parentElement] *)
Definition parentElement (e : Elem) : option Node := hd_error (ancestors e).

(** [el.closest('svg')?.parentElement]: the parent of the nearest [svg]
    among the element and its ancestors. *)
Fixpoint parent_of_closest (t : string) (chain : list Node) : option Node :=
  match chain with
  | [] => None
  | n :: rest =>
      if tagName n =? t then hd_error rest else parent_of_closest t rest
  end.

(** [parent.querySelector('*')]: the first descendant element, which is the
    first child element. *)
Definition first_descendant (n : Node) : option Node := hd_error (children n).

(** [getText = (element) => element?.textContent?.trim() || ''] *)
Definition getText (n : option Node) : string :=
  match n with
  | Some e => Js.trim (textContent e)
  | None => ""
  end.

(* ================================================================== *)
(** ** The [extractedStats] object *)
(* ================================================================== *)

(** The keys the callback can create. *)
Inductive Field : Type :=
| kd_ratio | hltv_rating
| win_rate | headshot_percentage | clutch_success | entry_success
| kills | deaths | assists | headshots
| matches_played | matches_won | matches_lost | matches_tied
| rounds_played | total_damage | adr.

Definition Field_eq_dec (f g : Field) : {f = g} + {f <> g}.
Proof. decide equality. Defined.

(** The values it stores: [parseInt] results, [parseFloat] results and
    percentage texts. *)
Inductive Value : Type :=
| VInt (n : N)
| VFloat (q : Q)
| VText (s : string).

(** An object literal [{}] with keys in insertion order. *)
Definition StatsObject : Type := list (Field * Value).

Fixpoint get (o : StatsObject) (f : Field) : option Value :=
  match o with
  | [] => None
  | (g, v) :: o' => if Field_eq_dec f g then Some v else get o' f
  end.

(** [o[f] = v]: an existing key keeps its place, a new key goes last. *)
Fixpoint set (o : StatsObject) (f : Field) (v : Value) : StatsObject :=
  match o with
  | [] => [(f, v)]
  | (g, w) :: o' =>
      if Field_eq_dec f g then (f, v) :: o' else (g, w) :: set o' f v
  end.

(** [Object.keys(o)] *)
Definition keys (o : StatsObject) : list Field := map fst o.

(** One assignment statement [extractedStats.f = v]. *)
Definition Assignment : Type := (Field * Value)%type.

Definition assign (o : StatsObject) (a : Assignment) : StatsObject :=
  set o (fst a) (snd a).

(** A [forEach] whose body performs the assignments [body e] on the
    shared object. *)
Definition forEach {A : Type} (l : list A) (body : A -> list Assignment)
  (o : StatsObject) : StatsObject :=
  fold_left (fun acc e => fold_left assign (body e) acc) l o.

(* ================================================================== *)
(** ** The extraction callback of [page.evaluate] *)
(* ================================================================== *)

Section Callback.

Variable doc : Document.

(** Lines 80-81: the player name, before the ['Unknown'] default. *)
Definition truthy_text (s : string) : option string :=
  if s =? "" then None else Some s.

Definition is_name_element (e : Elem) : bool :=
  has_tag "h1" e || has_class "player-name" e || has_class "username" e.

Definition playerName : option string :=
  match
    match find is_name_element (querySelectorAll_star doc) with
    | Some e => truthy_text (Js.trim (textContent (node e)))
    | None => None
    end
  with
  | Some s => Some s
  | None =>
      match find (has_tag "title") (querySelectorAll_star doc) with
      | Some e =>
          truthy_text (Js.trim (Js.split_head "-" (textContent (node e))))
      | None => None
      end
  end.

(** Lines 87-98: the body of [kdElements.forEach]. *)
Definition kd_body (el : Elem) : list Assignment :=
  let text := getText (Some (node el)) in
  match parent_of_closest "svg" (node el :: ancestors el) with
  | Some parent =>
      if Js.is_decimal_text text then
        match first_descendant parent with
        | Some first =>
            let label := Js.toLowerCase (textContent first) in
            if Js.includes label "k/d" || Js.includes label "kd" then
              [(kd_ratio, VFloat (Js.parseFloat text))]
            else if Js.includes label "hltv" || Js.includes label "rating" then
              [(hltv_rating, VFloat (Js.parseFloat text))]
            else []
        | None => []
        end
      else []
  | None => []
  end.

(** Lines 102-116: the body of [percentageElements.forEach]. *)
Definition percentage_body (el : Elem) : list Assignment :=
  let text := getText (Some (node el)) in
  if Js.is_percent_text text then
    let context :=
      match parentElement el with
      | Some p => Js.toLowerCase (textContent p)
      | None => ""
      end in
    if Js.includes context "win" then [(win_rate, VText text)]
    else if Js.includes context "hs" || Js.includes context "headshot" then
      [(headshot_percentage, VText text)]
    else if Js.includes context "clutch" then [(clutch_success, VText text)]
    else if Js.includes context "entry" then [(entry_success, VText text)]
    else []
  else [].

(** Lines 125-148: keyword routing of a positive integer. *)
Definition route_integer (context : string) (num : N) : list Assignment :=
  if Js.includes context "kill" && negb (Js.includes context "death") then
    [(kills, VInt num)]
  else if Js.includes context "death" && negb (Js.includes context "kill") then
    [(deaths, VInt num)]
  else if Js.includes context "assist" then [(assists, VInt num)]
  else if Js.includes context "headshot" && (num <? 50000)%N then
    [(headshots, VInt num)]
  else if Js.includes context "played" || Js.includes context "match" then
    [(matches_played, VInt num)]
  else if Js.includes context "won" && (num <? 10000)%N then
    [(matches_won, VInt num)]
  else if Js.includes context "lost" && (num <? 10000)%N then
    [(matches_lost, VInt num)]
  else if Js.includes context "round" && (1000 <? num)%N then
    [(rounds_played, VInt num)]
  else if Js.includes context "damage" && (100000 <? num)%N then
    [(total_damage, VInt num)]
  else [].

(** Lines 121-153 on the two texts the body reads. *)
Definition integer_assignments (text parentText : string)
  : list Assignment :=
  let context := Js.toLowerCase (text ++ " " ++ parentText) in
  (if Js.is_integer_text text then
     let num := Js.parseInt text in
     if (0 <? num)%N then route_integer context num else []
   else [])
  ++
  (if Js.is_2_3_digits text && Js.includes context "adr" then
     [(adr, VInt (Js.parseInt text))]
   else []).

(** Lines 120-154: the body of [allElements.forEach]. *)
Definition integer_body (el : Elem) : list Assignment :=
  integer_assignments (getText (Some (node el))) (getText (parentElement el)).

(** Lines 157-168, in the order [Object.keys] lists them. *)
Definition statLabels : list (string * Field) :=
  [ ("PLAYED", matches_played); ("KILLS", kills); ("DAMAGE", total_damage);
    ("WON", matches_won); ("DEATHS", deaths); ("ROUNDS", rounds_played);
    ("LOST", matches_lost); ("ASSISTS", assists); ("TIED", matches_tied);
    ("HEADSHOTS", headshots) ].

(** Lines 177-184: the [for] loop over the window of siblings, which
    stops at the first integer text. *)
Fixpoint scan_window (label : string) (window : list Node) : option N :=
  match window with
  | [] => None
  | s :: rest =>
      let siblingText := getText (Some s) in
      if Js.is_integer_text siblingText && negb (siblingText =? label)
      then Some (Js.parseInt siblingText)
      else scan_window label rest
  end.

(** [siblings.slice(Math.max(0, index - 2), Math.min(siblings.length, index + 3))] *)
Definition sibling_window (siblings : list Node) (index : nat) : list Node :=
  let lo := (index - 2)%nat in
  let hi := Nat.min (List.length siblings) (index + 3) in
  firstn (hi - lo) (skipn lo siblings).

(** Lines 170-186: the body of [Object.keys(statLabels).forEach]. *)
Definition label_body (entry : string * Field) : list Assignment :=
  let (label, field) := entry in
  match
    find (fun el => Js.toUpperCase (getText (Some (node el))) =? label)
         (querySelectorAll_star doc)
  with
  | Some labelElement =>
      match parentElement labelElement with
      | Some p =>
          match scan_window label
                  (sibling_window (children p) (position labelElement)) with
          | Some value => [(field, VInt value)]
          | None => []
          end
      | None => []
      end
  | None => []
  end.

Definition decimal_pass : StatsObject -> StatsObject :=
  forEach (querySelectorAll_tag doc "text") kd_body.

Definition percentage_pass : StatsObject -> StatsObject :=
  forEach (querySelectorAll_star doc) percentage_body.

Definition integer_pass : StatsObject -> StatsObject :=
  forEach (querySelectorAll_star doc) integer_body.

Definition label_pass : StatsObject -> StatsObject :=
  forEach statLabels label_body.

(** Lines 77-186: [extractedStats] when the callback returns. *)
Definition extractedStats : StatsObject :=
  label_pass (integer_pass (percentage_pass (decimal_pass []))).

End Callback.

Record PlayerInfo : Type := mkPlayerInfo {
  info_steam_id64 : string;
  info_player_name : string;
  info_profile_url : string
}.

Record Evaluated : Type := mkEvaluated {
  player_info : PlayerInfo;
  stats : StatsObject
}.

(** [pathname.split('/').pop()]: the text after the last ['/']. *)
Fixpoint last_segment_from (fuel : nat) (s : string) : string :=
  match Js.split_at "/" s with
  | (a, None) => a
  | (_, Some rest) =>
      match fuel with
      | O => rest
      | S fuel' => last_segment_from fuel' rest
      end
  end.

Definition last_segment (s : string) : string :=
  last_segment_from (String.length s) s.

(** Lines 76-196: the callback. *)
Definition evaluate_callback (doc : Document) : Evaluated :=
  {| player_info :=
       {| info_steam_id64 := last_segment (pathname doc);
          info_player_name :=
            match playerName doc with Some s => s | None => "Unknown" end;
          info_profile_url := href doc |};
     stats := extractedStats doc |}.

(* ================================================================== *)
(** ** The callback as a script that runs in the page *)
(* ================================================================== *)

(** The callback again, now as the requests it makes of the page it runs
    in, one after the other, with what it computes in between.  A page
    has more than its document: a clock and the properties that earlier
    scripts have left on [window]. *)
Module Page.

(** The four selectors of the callback. *)
Inductive Selector : Type :=
| sel_name      (* 'h1, .player-name, .username' *)
| sel_title     (* 'title' *)
| sel_text      (* 'text' *)
| sel_star.     (* '*' *)

Definition selects (s : Selector) (e : Elem) : bool :=
  match s with
  | sel_name => is_name_element e
  | sel_title => has_tag "title" e
  | sel_text => has_tag "text" e
  | sel_star => true
  end.

(** What a script can ask, and the type of the answer. *)
Inductive Request : Type -> Type :=
| querySelector (s : Selector) : Request (option Elem)
| querySelectorAll (s : Selector) : Request (list Elem)
| location_pathname : Request string
| location_href : Request string
| new_Date : Request Z                        (* [new Date()], [Date.now()] *)
| get_property (name : string) : Request (option string)   (* [window[name]] *)
| set_property (name value : string) : Request unit.

Inductive Script (A : Type) : Type :=
| Done (a : A)
| Ask (X : Type) (q : Request X) (k : X -> Script A).
Arguments Done {A} a.
Arguments Ask {A X} q k.

Record State : Type := mkState {
  document : Document;
  time : Z;
  properties : list (string * string)
}.

Fixpoint lookup (name : string) (l : list (string * string))
  : option string :=
  match l with
  | [] => None
  | (n, v) :: l' => if n =? name then Some v else lookup name l'
  end.

(** The answer of the page, and the page afterwards: a millisecond has
    passed. *)
Definition answer {X : Type} (q : Request X) (p : State) : X * State :=
  let later := mkState (document p) (time p + 1) (properties p) in
  match q in Request T return T * State with
  | querySelector s =>
      (find (selects s) (querySelectorAll_star (document p)), later)
  | querySelectorAll s =>
      (filter (selects s) (querySelectorAll_star (document p)), later)
  | location_pathname => (pathname (document p), later)
  | location_href => (href (document p), later)
  | new_Date => (time p, later)
  | get_property name => (lookup name (properties p), later)
  | set_property name value =>
      (tt, mkState (document p) (time p + 1)
                   ((name, value) :: properties p))
  end.

Fixpoint run {A : Type} (s : Script A) (p : State) : A * State :=
  match s with
  | Done a => (a, p)
  | Ask q k => let (x, p') := answer q p in run (k x) p'
  end.

(** Lines 170-186 on the elements that [querySelectorAll('*')] has
    returned. *)
Definition label_on (elements : list Elem) (entry : string * Field)
  : list Assignment :=
  let (label, field) := entry in
  match
    find (fun el => Js.toUpperCase (getText (Some (node el))) =? label)
         elements
  with
  | Some labelElement =>
      match parentElement labelElement with
      | Some p =>
          match scan_window label
                  (sibling_window (children p) (position labelElement)) with
          | Some value => [(field, VInt value)]
          | None => []
          end
      | None => []
      end
  | None => []
  end.

(** Lines 170-186: each round of the [forEach] queries the document
    again. *)
Fixpoint labels_script (labels : list (string * Field)) (o : StatsObject)
  : Script StatsObject :=
  match labels with
  | [] => Done o
  | entry :: rest =>
      Ask (querySelectorAll sel_star) (fun elements =>
      labels_script rest (fold_left assign (label_on elements entry) o))
  end.

Definition text_of (e : option Elem) (cut : string -> string)
  : option string :=
  match e with
  | Some e => truthy_text (Js.trim (cut (textContent (node e))))
  | None => None
  end.

(** Lines 188-195. *)
Definition result_script (playerName : option string) (o : StatsObject)
  : Script Evaluated :=
  Ask location_pathname (fun path =>
  Ask location_href (fun url =>
  Done {| player_info :=
            {| info_steam_id64 := last_segment path;
               info_player_name :=
                 match playerName with Some s => s | None => "Unknown" end;
               info_profile_url := url |};
          stats := o |})).

(** [s] and then [k] on its result. *)
Fixpoint and_then {A B : Type} (s : Script A) (k : A -> Script B)
  : Script B :=
  match s with
  | Done a => k a
  | Ask q h => Ask q (fun x => and_then (h x) k)
  end.

(** Lines 86-195, after the player name. *)
Definition passes_script (playerName : option string) : Script Evaluated :=
  Ask (querySelectorAll sel_text) (fun kdElements =>
  let o1 := forEach kdElements kd_body [] in
  Ask (querySelectorAll sel_star) (fun percentageElements =>
  let o2 := forEach percentageElements percentage_body o1 in
  Ask (querySelectorAll sel_star) (fun allElements =>
  let o3 := forEach allElements integer_body o2 in
  and_then (labels_script statLabels o3) (result_script playerName)))).

(** Lines 76-196: the callback of the service.  The title is queried
    only when the first operand of [||] is falsy. *)
Definition callback : Script Evaluated :=
  Ask (querySelector sel_name) (fun heading =>
  match text_of heading (fun s => s) with
  | Some s => passes_script (Some s)
  | None =>
      Ask (querySelector sel_title) (fun title =>
      passes_script (text_of title (Js.split_head "-")))
  end).

(** The stand-alone script returns one more key in [player_info]
    ([scraped_at: new Date().toISOString()], the time as a number here):
    its lines 189-195. *)
Definition standalone_player_info (playerName : option string)
  : Script (PlayerInfo * Z) :=
  Ask location_pathname (fun path =>
  Ask location_href (fun url =>
  Ask new_Date (fun scraped_at =>
  Done ({| info_steam_id64 := last_segment path;
           info_player_name :=
             match playerName with Some s => s | None => "Unknown" end;
           info_profile_url := url |},
        scraped_at)))).

(** The requests that read the document and nothing else. *)
Inductive reads_document : forall X : Type, Request X -> Prop :=
| read_one s : reads_document _ (querySelector s)
| read_all s : reads_document _ (querySelectorAll s)
| read_pathname : reads_document _ location_pathname
| read_href : reads_document _ location_href.

(** A script all of whose requests, whatever the answers, read the
    document. *)
Inductive reads_only {A : Type} : Script A -> Prop :=
| reads_done a : reads_only (Done a)
| reads_ask X (q : Request X) (k : X -> Script A) :
    reads_document X q -> (forall x, reads_only (k x)) ->
    reads_only (Ask q k).

End Page.

(* ================================================================== *)
(** ** [ScraperService.scrapePlayerStats] *)
(* ================================================================== *)

(** What the browser does with one page, up to the callback. *)
Inductive PageOutcome : Type :=
| Rejects (message : string)
    (* newPage, setUserAgent, setViewport or goto rejects *)
| NotOk (status : N) (statusText : string)
    (* response.ok() is false *)
| NoStatsElements
    (* both waitForSelector calls time out *)
| Snapshot (doc : Document).

(** One visit of a player page: what the page does, how long it takes
    ([Date.now() - startTime]), whether [initialize] or [page.close]
    rejects outside the [try], and whether the console's [stop] command
    is handled while the visit is awaited. *)
Record Visit : Type := mkVisit {
  outcome : PageOutcome;
  elapsed : Z;
  escapes : option string;
  stop_requested : bool
}.

(** [{...stats.player_info, ...stats.stats}] *)
Record PlayerData : Type := mkPlayerData {
  data_info : PlayerInfo;
  data_stats : StatsObject
}.

(** The object [scrapePlayerStats] returns: lines 206-214 or 220-225. *)
Inductive ScrapeResult : Type :=
| Scraped (data : PlayerData) (executionTime : Z) (statsCount : nat)
| Failed (error : string) (executionTime : Z).

Definition success (r : ScrapeResult) : bool :=
  match r with Scraped _ _ _ => true | Failed _ _ => false end.

Definition data (r : ScrapeResult) : option PlayerData :=
  match r with Scraped d _ _ => Some d | Failed _ _ => None end.

Definition error (r : ScrapeResult) : option string :=
  match r with Scraped _ _ _ => None | Failed e _ => Some e end.

Definition executionTime (r : ScrapeResult) : Z :=
  match r with Scraped _ t _ => t | Failed _ t => t end.

Definition statsCount (r : ScrapeResult) : nat :=
  match r with Scraped _ _ n => n | Failed _ _ => 0%nat end.

Definition string_of_N (n : N) : string :=
  NilZero.string_of_uint (N.to_uint n).

Definition no_stats_message : string :=
  "No stats data found - player might have no recorded matches".

Definition no_elements_message : string :=
  "Stats elements not found - player might not have CS2 data".

(** Lines 36-225: the [try] block and its [catch]. *)
Definition scrape_result (v : Visit) : ScrapeResult :=
  match outcome v with
  | Rejects message => Failed message (elapsed v)
  | NotOk status statusText =>
      Failed ("HTTP " ++ string_of_N status ++ ": " ++ statusText) (elapsed v)
  | NoStatsElements => Failed no_elements_message (elapsed v)
  | Snapshot doc =>
      let evaluated := evaluate_callback doc in
      if (List.length (keys (stats evaluated)) =? 0)%nat then
        Failed no_stats_message (elapsed v)
      else
        Scraped {| data_info := player_info evaluated;
                   data_stats := stats evaluated |}
                (elapsed v)
                (List.length (keys (stats evaluated)))
  end.

(* ================================================================== *)
(** ** The database *)
(* ================================================================== *)

Inductive Status : Type := pending | processing | completed | failed.

Definition Status_eqb (a b : Status) : bool :=
  match a, b with
  | pending, pending | processing, processing
  | completed, completed | failed, failed => true
  | _, _ => false
  end.

(** Table [steam_ids]. *)
Record SteamIdRow : Type := mkSteamIdRow {
  sid_id : N;
  sid_steam_id64 : string;
  sid_status : Status;
  sid_priority : Z;
  sid_created_at : Z;
  sid_updated_at : Z
}.

(** Table [player_stats]: the seventeen stat columns are indexed by
    [Field]; [None] is SQL [NULL]. *)
Record PlayerStatsRow : Type := mkPlayerStatsRow {
  ps_steam_id64 : string;
  ps_player_name : option string;
  ps_profile_url : option string;
  ps_column : Field -> option Value;
  ps_last_scraped : Z;
  ps_scrape_success : bool;
  ps_error_message : option string
}.

Inductive LogStatus : Type := log_started | log_success | log_failed.

(** Table [scrape_logs]. *)
Record ScrapeLogRow : Type := mkScrapeLogRow {
  log_id : nat;
  log_steam_id64 : string;
  log_status : LogStatus;
  log_message : string;
  log_execution_time : option Z;
  log_stats_extracted : option nat
}.

Record Tables : Type := mkTables {
  steam_ids : list SteamIdRow;
  player_stats : list PlayerStatsRow;
  scrape_logs : list ScrapeLogRow
}.

Module DatabaseService.

(** [ORDER BY priority DESC, created_at ASC]: [a] may come before [b]. *)
Definition precedes (a b : SteamIdRow) : bool :=
  (sid_priority b <? sid_priority a)%Z ||
  ((sid_priority a =? sid_priority b)%Z &&
   (sid_created_at a <=? sid_created_at b)%Z).

Fixpoint insert_row (r : SteamIdRow) (l : list SteamIdRow)
  : list SteamIdRow :=
  match l with
  | [] => [r]
  | x :: l' => if precedes r x then r :: l else x :: insert_row r l'
  end.

(** Rows that tie on both columns keep the order of the table. *)
Definition order_by (l : list SteamIdRow) : list SteamIdRow :=
  fold_right insert_row [] l.

Definition is_pending (r : SteamIdRow) : bool :=
  Status_eqb (sid_status r) pending.

(** Lines 250-259: the rows the [SELECT] returns (it projects them on
    [steam_id64], [id] and [priority]; the caller reads [steam_id64]). *)
Definition getPendingSteamIds (limit : nat) (t : Tables)
  : list SteamIdRow :=
  firstn limit (order_by (filter is_pending (steam_ids t))).

(** [SET status = ?, updated_at = CURRENT_TIMESTAMP WHERE steam_id64 = ?] *)
Definition set_status (steamId64 : string) (status : Status) (now : Z)
  (rows : list SteamIdRow) : list SteamIdRow :=
  map (fun r =>
         if sid_steam_id64 r =? steamId64
         then {| sid_id := sid_id r;
                 sid_steam_id64 := sid_steam_id64 r;
                 sid_status := status;
                 sid_priority := sid_priority r;
                 sid_created_at := sid_created_at r;
                 sid_updated_at := now |}
         else r)
      rows.

(** Lines 261-268. *)
Definition updateSteamIdStatus (steamId64 : string) (status : Status)
  (now : Z) (t : Tables) : Tables :=
  {| steam_ids := set_status steamId64 status now (steam_ids t);
     player_stats := player_stats t;
     scrape_logs := scrape_logs t |}.

(** [INSERT ... ON DUPLICATE KEY UPDATE] on the unique key
    [steam_id64] of [player_stats]. *)
Definition upsert (steamId64 : string) (fresh : PlayerStatsRow)
  (update : PlayerStatsRow -> PlayerStatsRow) (l : list PlayerStatsRow)
  : list PlayerStatsRow :=
  if existsb (fun r => ps_steam_id64 r =? steamId64) l
  then map (fun r => if ps_steam_id64 r =? steamId64 then update r else r) l
  else l ++ [fresh].

(** [x || null] *)
Definition or_null (v : option Value) : option Value :=
  match v with
  | Some (VInt n) => if (n =? 0)%N then None else v
  | Some (VFloat q) => if (Qnum q =? 0)%Z then None else v
  | Some (VText s) => if s =? "" then None else v
  | None => None
  end.

Definition text_or_null (s : string) : option string :=
  if s =? "" then None else Some s.

(** The stat columns named in the [INSERT] and in its [UPDATE] list. *)
Definition stat_columns : list Field :=
  [ kd_ratio; hltv_rating; win_rate; headshot_percentage; adr;
    matches_played; matches_won; matches_lost; matches_tied;
    kills; deaths; assists; headshots; total_damage; rounds_played;
    clutch_success; entry_success ].

Definition is_stat_column (f : Field) : bool :=
  existsb (fun g => if Field_eq_dec f g then true else false) stat_columns.

(** Lines 338-359: the bound values. *)
Definition bound_value (playerData : PlayerData) (f : Field)
  : option Value :=
  or_null (get (data_stats playerData) f).

(** Lines 300-362. *)
Definition savePlayerStats (steamId64 : string) (playerData : PlayerData)
  (now : Z) (t : Tables) : Tables :=
  let name := text_or_null (info_player_name (data_info playerData)) in
  let url := text_or_null (info_profile_url (data_info playerData)) in
  let values f :=
    if is_stat_column f then bound_value playerData f else None in
  {| steam_ids := steam_ids t;
     player_stats :=
       upsert steamId64
         {| ps_steam_id64 := steamId64;
            ps_player_name := name;
            ps_profile_url := url;
            ps_column := values;
            ps_last_scraped := now;
            ps_scrape_success := true;
            ps_error_message := None |}
         (fun r =>
            {| ps_steam_id64 := ps_steam_id64 r;
               ps_player_name := name;
               ps_profile_url := url;
               ps_column := fun f =>
                 if is_stat_column f then bound_value playerData f
                 else ps_column r f;
               ps_last_scraped := now;
               ps_scrape_success := true;
               ps_error_message := None |})
         (player_stats t);
     scrape_logs := scrape_logs t |}.

(** The value of a stat column that an [INSERT] does not list: [NULL],
    but for [matches_tied INT DEFAULT 0] (schema in the README). *)
Definition column_default (f : Field) : option Value :=
  match f with
  | matches_tied => Some (VInt 0)
  | _ => None
  end.

(** Lines 364-377. *)
Definition savePlayerStatsError (steamId64 : string) (errorMessage : string)
  (now : Z) (t : Tables) : Tables :=
  {| steam_ids := steam_ids t;
     player_stats :=
       upsert steamId64
         {| ps_steam_id64 := steamId64;
            ps_player_name := None;
            ps_profile_url := None;
            ps_column := column_default;
            ps_last_scraped := now;
            ps_scrape_success := false;
            ps_error_message := Some errorMessage |}
         (fun r =>
            {| ps_steam_id64 := ps_steam_id64 r;
               ps_player_name := ps_player_name r;
               ps_profile_url := ps_profile_url r;
               ps_column := ps_column r;
               ps_last_scraped := now;
               ps_scrape_success := false;
               ps_error_message := Some errorMessage |})
         (player_stats t);
     scrape_logs := scrape_logs t |}.

(** Lines 394-412: the column that reaches the query text, and the
    query text. *)
Definition validOrderBy : list string :=
  [ "kd_ratio"; "hltv_rating"; "matches_played";
    "kills"; "adr"; "matches_won" ].

(** What a caller can pass for [orderBy]. *)
Inductive Argument : Type :=
| arg_undefined                 (* the default ['kd_ratio'] applies *)
| arg_string (s : string)
| arg_other.                    (* a number, [null], an array, an object *)

(** [validOrderBy.includes(orderBy)] *)
Definition is_valid (orderBy : Argument) : bool :=
  match orderBy with
  | arg_string s => existsb (String.eqb s) validOrderBy
  | _ => false
  end.

Definition order_column (orderBy : Argument) : string :=
  match orderBy with
  | arg_undefined => "kd_ratio"
  | arg_string s => if is_valid orderBy then s else "kd_ratio"
  | arg_other => "kd_ratio"
  end.

(** The query text with [column] at the three places of [${orderBy}]
    (white space of the template literal reduced to single blanks). *)
Definition top_players_template (column : string) : string :=
  "SELECT steam_id64, player_name, " ++ column ++
  ", matches_played, last_scraped FROM player_stats WHERE scrape_success = TRUE AND "
  ++ column ++ " IS NOT NULL ORDER BY " ++ column ++ " DESC LIMIT ?".

Definition getTopPlayers_query (orderBy : Argument) : string :=
  top_players_template (order_column orderBy).

(** Lines 415-422: the new row and its [insertId]; [stats_extracted] is
    [INT DEFAULT 0] in the schema. *)
Definition logScrapeStart (steamId64 : string) (t : Tables)
  : nat * Tables :=
  let insertId := S (List.length (scrape_logs t)) in
  (insertId,
   {| steam_ids := steam_ids t;
      player_stats := player_stats t;
      scrape_logs :=
        scrape_logs t ++
        [ {| log_id := insertId;
             log_steam_id64 := steamId64;
             log_status := log_started;
             log_message := "Scraping started";
             log_execution_time := None;
             log_stats_extracted := Some 0%nat |} ] |}).

Definition update_log (logId : nat) (steamId64 : string)
  (update : ScrapeLogRow -> ScrapeLogRow) (t : Tables) : Tables :=
  {| steam_ids := steam_ids t;
     player_stats := player_stats t;
     scrape_logs :=
       map (fun r =>
              if (log_id r =? logId)%nat && (log_steam_id64 r =? steamId64)
              then update r else r)
           (scrape_logs t) |}.

(** Lines 424-434. *)
Definition logScrapeSuccess (logId : nat) (steamId64 : string)
  (executionTime : Z) (statsExtracted : nat) : Tables -> Tables :=
  update_log logId steamId64
    (fun r =>
       {| log_id := log_id r;
          log_steam_id64 := log_steam_id64 r;
          log_status := log_success;
          log_message := "Scraping completed successfully";
          log_execution_time := Some executionTime;
          log_stats_extracted := Some statsExtracted |}).

(** Lines 436-445. *)
Definition logScrapeFailure (logId : nat) (steamId64 : string)
  (executionTime : Z) (errorMessage : string) : Tables -> Tables :=
  update_log logId steamId64
    (fun r =>
       {| log_id := log_id r;
          log_steam_id64 := log_steam_id64 r;
          log_status := log_failed;
          log_message := errorMessage;
          log_execution_time := Some executionTime;
          log_stats_extracted := log_stats_extracted r |}).

End DatabaseService.

(* ================================================================== *)
(** ** Effects: the world, exceptions, [try]/[catch]/[finally] *)
(* ================================================================== *)

(** The database, what [dbManager.execute] will do on its next calls
    ([Some message]: the call rejects with that message; an exhausted
    list: no call rejects), the wall clock, and the fields of
    [ScraperManager]. *)
Record World : Type := mkWorld {
  tables : Tables;
  db_faults : list (option string);
  clock : Z;
  isRunning : bool;
  processedCount : nat;
  successCount : nat;
  failureCount : nat
}.

Inductive Outcome (A : Type) : Type :=
| Returned (a : A)
| Thrown (message : string).
Arguments Returned {A} a.
Arguments Thrown {A} message.

Definition M (A : Type) : Type := World -> Outcome A * World.

Definition ret {A : Type} (a : A) : M A := fun w => (Returned a, w).

Definition bind {A B : Type} (m : M A) (k : A -> M B) : M B :=
  fun w =>
    match m w with
    | (Returned a, w') => k a w'
    | (Thrown e, w') => (Thrown e, w')
    end.

Definition try_catch {A : Type} (body : M A) (handler : string -> M A) : M A :=
  fun w =>
    match body w with
    | (Returned a, w') => (Returned a, w')
    | (Thrown e, w') => handler e w'
    end.

Definition finally {A : Type} (body : M A) (cleanup : M unit) : M A :=
  fun w =>
    match body w with
    | (r, w') =>
        match cleanup w' with
        | (Returned _, w'') => (r, w'')
        | (Thrown e, w'') => (Thrown e, w'')
        end
    end.

Declare Scope js_scope.
Delimit Scope js_scope with js.
Notation "x <- m ;; k" := (bind m (fun x => k))
  (at level 100, m at next level, right associativity) : js_scope.
Notation "m ;; k" := (bind m (fun _ => k))
  (at level 100, right associativity) : js_scope.

(** [await dbManager.execute(...)]: the next entry of [db_faults] decides
    whether the statement runs or the call rejects. *)
Definition next_fault (w : World) : option string :=
  match db_faults w with
  | f :: _ => f
  | [] => None
  end.

Definition execute {A : Type} (statement : Z -> Tables -> A * Tables) : M A :=
  fun w =>
    let rest := tl (db_faults w) in
    match next_fault w with
    | Some message =>
        (Thrown message,
         mkWorld (tables w) rest (clock w) (isRunning w)
                 (processedCount w) (successCount w) (failureCount w))
    | None =>
        let (a, t) := statement (clock w) (tables w) in
        (Returned a,
         mkWorld t rest (clock w) (isRunning w)
                 (processedCount w) (successCount w) (failureCount w))
    end.

Definition update (statement : Z -> Tables -> Tables) : M unit :=
  execute (fun now t => (tt, statement now t)).

Definition incr_processedCount : M unit := fun w =>
  (Returned tt,
   mkWorld (tables w) (db_faults w) (clock w) (isRunning w)
           (S (processedCount w)) (successCount w) (failureCount w)).

Definition incr_successCount : M unit := fun w =>
  (Returned tt,
   mkWorld (tables w) (db_faults w) (clock w) (isRunning w)
           (processedCount w) (S (successCount w)) (failureCount w)).

Definition incr_failureCount : M unit := fun w =>
  (Returned tt,
   mkWorld (tables w) (db_faults w) (clock w) (isRunning w)
           (processedCount w) (successCount w) (S (failureCount w))).

(** [await this.scraperService.delay(ms)] *)
Definition delay (ms : Z) : M unit := fun w =>
  (Returned tt,
   mkWorld (tables w) (db_faults w) (clock w + ms)%Z (isRunning w)
           (processedCount w) (successCount w) (failureCount w)).

(* ================================================================== *)
(** ** [ScraperManager] *)
(* ================================================================== *)

Record ItemResult : Type := mkItemResult {
  item_success : bool;
  item_steamId64 : string;
  item_stats : option nat;
  item_error : option string
}.

Record BatchResult : Type := mkBatchResult {
  br_processed : nat;
  br_successful : option nat;
  br_failed : option nat;
  br_completed : bool
}.

Module ScraperManager.
Import DatabaseService.
Local Open Scope js_scope.

(** Constructor, lines 29-30. *)
Definition batchSize : nat := 5.
Definition delay_ms : Z := 2000.

Section Run.

(** The page each identifier is served during the run. *)
Variable browse : string -> Visit.

(** [await this.scraperService.scrapePlayerStats(steamId64)]: time
    passes, a [stop] typed meanwhile runs [stopScraping], and the
    call returns its result or rejects. *)
Definition scrapePlayerStats (steamId64 : string) : M ScrapeResult :=
  fun w =>
    let v := browse steamId64 in
    let w' :=
      mkWorld (tables w) (db_faults w) (clock w + elapsed v)%Z
              (isRunning w && negb (stop_requested v))
              (processedCount w) (successCount w) (failureCount w) in
    match escapes v with
    | Some message => (Thrown message, w')
    | None => (Returned (scrape_result v), w')
    end.

(** Lines 51-90: the [try] block. *)
Definition process_try (logId : nat) (steamId64 : string) : M ItemResult :=
  update (updateSteamIdStatus steamId64 processing) ;;
  result <- scrapePlayerStats steamId64 ;;
  match result with
  | Scraped playerData time count =>
      update (savePlayerStats steamId64 playerData) ;;
      update (updateSteamIdStatus steamId64 completed) ;;
      update (fun _ => logScrapeSuccess logId steamId64 time count) ;;
      incr_successCount ;;
      ret {| item_success := true; item_steamId64 := steamId64;
             item_stats := Some count; item_error := None |}
  | Failed message time =>
      update (savePlayerStatsError steamId64 message) ;;
      update (updateSteamIdStatus steamId64 failed) ;;
      update (fun _ => logScrapeFailure logId steamId64 time message) ;;
      incr_failureCount ;;
      ret {| item_success := false; item_steamId64 := steamId64;
             item_stats := None; item_error := Some message |}
  end.

(** Lines 91-100: the [catch] block. *)
Definition process_catch (logId : nat) (steamId64 : string)
  (message : string) : M ItemResult :=
  update (savePlayerStatsError steamId64 message) ;;
  update (updateSteamIdStatus steamId64 failed) ;;
  update (fun _ => logScrapeFailure logId steamId64 0 message) ;;
  incr_failureCount ;;
  ret {| item_success := false; item_steamId64 := steamId64;
         item_stats := None; item_error := Some message |}.

(** Lines 48-104. *)
Definition processSingleSteamId (steamId64 : string) : M ItemResult :=
  logId <- execute (fun _ => logScrapeStart steamId64) ;;
  finally
    (try_catch (process_try logId steamId64)
               (process_catch logId steamId64))
    incr_processedCount.

(** [pendingSteamIds.indexOf(pendingSteamIds.find(p => p.steam_id64 === steam_id64))] *)
Fixpoint index_of (steamId64 : string) (l : list SteamIdRow) (i : nat)
  : nat :=
  match l with
  | [] => i
  | p :: l' =>
      if sid_steam_id64 p =? steamId64 then i
      else index_of steamId64 l' (S i)
  end.

(** Lines 120-134: the [for ... of] loop, from the rows still to visit
    and the [results] so far. *)
Fixpoint batch_loop (pendingSteamIds remaining : list SteamIdRow)
  (results : list ItemResult) : M (list ItemResult) :=
  match remaining with
  | [] => ret results
  | p :: rest =>
      fun w =>
        if negb (isRunning w) then (Returned results, w)
        else
          (result <- processSingleSteamId (sid_steam_id64 p) ;;
           (if (index_of (sid_steam_id64 p) pendingSteamIds 0 <?
                List.length pendingSteamIds - 1)%nat
            then delay delay_ms else ret tt) ;;
           batch_loop pendingSteamIds rest (results ++ [result])) w
  end.

(** Lines 106-147. *)
Definition processBatch : M BatchResult :=
  try_catch
    (pendingSteamIds <-
       execute (fun _ t => (getPendingSteamIds batchSize t, t)) ;;
     if (List.length pendingSteamIds =? 0)%nat then
       ret {| br_processed := 0; br_successful := None;
              br_failed := None; br_completed := true |}
     else
       results <- batch_loop pendingSteamIds pendingSteamIds [] ;;
       ret {| br_processed := List.length results;
              br_successful :=
                Some (List.length (filter item_success results));
              br_failed :=
                Some (List.length
                        (filter (fun r => negb (item_success r)) results));
              br_completed := false |})
    (fun message => fun w => (Thrown message, w)).

End Run.

End ScraperManager.


(* ================================================================== *)
(** ** Vocabulary of the properties *)
(* ================================================================== *)

Module SelectionOrder.
Import DatabaseService.

(** [a] ranks no later than [b] in the [ORDER BY]. *)
Definition ordered (a b : SteamIdRow) : Prop := precedes a b = true.

(** The rows of the table the [SELECT] ranks, in rank order. *)
Definition candidates (t : Tables) : list SteamIdRow :=
  order_by (filter is_pending (steam_ids t)).

Definition row_A : SteamIdRow :=
  mkSteamIdRow 1 "76561198000000001" pending 5 100 100.
Definition row_B : SteamIdRow :=
  mkSteamIdRow 2 "76561198000000002" pending 5 200 200.
Definition row_C : SteamIdRow :=
  mkSteamIdRow 3 "76561198000000003" pending 1 50 50.

End SelectionOrder.

Module UpsertSpec.

(** What a successful write leaves in a row that existed before. *)
Definition overwritten (playerData : PlayerData) (now : Z)
  (r r' : PlayerStatsRow) : Prop :=
  ps_steam_id64 r' = ps_steam_id64 r /\
  (forall f, ps_column r' f = DatabaseService.bound_value playerData f) /\
  ps_error_message r' = None /\
  ps_scrape_success r' = true /\
  ps_last_scraped r' = now.

(** What a failed write leaves in a row that existed before. *)
Definition preserved (errorMessage : string) (now : Z)
  (r r' : PlayerStatsRow) : Prop :=
  ps_steam_id64 r' = ps_steam_id64 r /\
  (forall f, ps_column r' f = ps_column r f) /\
  ps_player_name r' = ps_player_name r /\
  ps_profile_url r' = ps_profile_url r /\
  ps_error_message r' = Some errorMessage /\
  ps_scrape_success r' = false /\
  ps_last_scraped r' = now.

(** Rows of the key are related by [R], all other rows are the same. *)
Definition rows_related (steamId64 : string)
  (R : PlayerStatsRow -> PlayerStatsRow -> Prop)
  (before after : list PlayerStatsRow) : Prop :=
  Forall2 (fun r r' =>
             if ps_steam_id64 r =? steamId64 then R r r' else r' = r)
          before after.

Definition sample_data : PlayerData :=
  {| data_info := mkPlayerInfo "76561198000000001" "s1mple"
                    "https://csgostats.gg/player/76561198000000001";
     data_stats := [(kills, VInt 4821); (win_rate, VText "52%")] |}.

Definition sample_row : PlayerStatsRow :=
  {| ps_steam_id64 := "76561198000000001";
     ps_player_name := Some "s1mple";
     ps_profile_url := None;
     ps_column := fun f =>
       match f with deaths => Some (VInt 3190) | _ => None end;
     ps_last_scraped := 10;
     ps_scrape_success := true;
     ps_error_message := None |}.

End UpsertSpec.

Module ExtractionSpec.

(** The value of the first assignment to [f] in a sequence. *)
Fixpoint first_for (f : Field) (l : list Assignment) : option Value :=
  match l with
  | [] => None
  | (g, v) :: l' => if Field_eq_dec f g then Some v else first_for f l'
  end.

(** The value of the last assignment to [f] in a sequence. *)
Fixpoint last_for (f : Field) (l : list Assignment) : option Value :=
  match l with
  | [] => None
  | (g, v) :: l' =>
      match last_for f l' with
      | Some w => Some w
      | None => if Field_eq_dec f g then Some v else None
      end
  end.

(** The matches of each pass, in document order. *)
Definition decimal_matches (doc : Document) : list Assignment :=
  flat_map kd_body (querySelectorAll_tag doc "text").
Definition percentage_matches (doc : Document) : list Assignment :=
  flat_map percentage_body (querySelectorAll_star doc).
Definition integer_matches (doc : Document) : list Assignment :=
  flat_map integer_body (querySelectorAll_star doc).
Definition label_matches (doc : Document) : list Assignment :=
  flat_map (label_body doc) statLabels.

(** All matches of the callback, in the order it meets them. *)
Definition matches (doc : Document) : list Assignment :=
  decimal_matches doc ++ percentage_matches doc ++
  integer_matches doc ++ label_matches doc.

(** A pass in which a field, once set, is never changed by a later
    match. *)
Definition first_match_wins (pass : StatsObject -> StatsObject)
  (found : list Assignment) : Prop :=
  forall o f,
    get (pass o) f =
    match get o f with Some v => Some v | None => first_for f found end.

(** A pass in which every match is written, so the last one stays. *)
Definition last_match_wins (pass : StatsObject -> StatsObject)
  (found : list Assignment) : Prop :=
  forall o f,
    get (pass o) f =
    match last_for f found with Some v => Some v | None => get o f end.

Definition page (body : list Node) : Document :=
  {| documentElement := Element "html" [] [Element "body" [] body];
     pathname := "/player/76561198000000001";
     href := "https://csgostats.gg/player/76561198000000001" |}.

(** [<p>label<span>value</span></p>] *)
Definition labelled (label value : string) : Node :=
  Element "p" [] [Text label; Element "span" [] [Text value]].

(** Two nodes that both route to [kills]. *)
Definition two_kills : Document :=
  page [labelled "Kills: " "10"; labelled "Kills: " "20"].

(** A node routed to [matches_won] and, later, a [WON] label next to
    another integer. *)
Definition won_and_label : Document :=
  page [labelled "Won " "12";
        Element "div" [] [Element "span" [] [Text "WON"];
                          Element "span" [] [Text "20000"]]].

(** The three nodes of the disambiguation scenario. *)
Definition disambiguation : Document :=
  page [labelled "Kills: " "4821"; labelled "Deaths " "3190";
        labelled "Rounds Played " "18452"].

(** A [KILLS] label next to the integer 0. *)
Definition zero_label : Document :=
  page [Element "div" [] [Element "span" [] [Text "KILLS"];
                          Element "span" [] [Text "0"]]].

(** The nine fields the keyword routing writes. *)
Definition routed (f : Field) : bool :=
  match f with
  | kills | deaths | assists | headshots
  | matches_played | matches_won | matches_lost
  | rounds_played | total_damage => true
  | _ => false
  end.

End ExtractionSpec.

Module OrchestratorSpec.
Import DatabaseService.

(** [wp m Q E w]: run from [w], [m] returns a value and a world that
    satisfy [Q], or throws a message and leaves a world that satisfy [E]. *)
Definition wp {A : Type} (m : M A) (Q : A -> World -> Prop)
  (E : string -> World -> Prop) (w : World) : Prop :=
  match m w with
  | (Returned a, w') => Q a w'
  | (Thrown e, w') => E e w'
  end.

Definition terminal (s : Status) : Prop := s = completed \/ s = failed.

(** The StatRecord of the identifier exists and is a failure record. *)
Definition failure_recorded (steamId64 : string) (ps : list PlayerStatsRow)
  : Prop :=
  (exists row, In row ps /\ ps_steam_id64 row = steamId64) /\
  (forall row, In row ps -> ps_steam_id64 row = steamId64 ->
               ps_scrape_success row = false /\ ps_error_message row <> None).

Definition mentions (ids : list string) (steamId64 : string) : bool :=
  existsb (String.eqb steamId64) ids.

(** The rows of the identifiers [ids] have reached a terminal status, and
    every other row is as it was. *)
Definition settled (ids : list string) (before after : list SteamIdRow)
  : Prop :=
  Forall2 (fun r0 r =>
             sid_steam_id64 r = sid_steam_id64 r0 /\
             if mentions ids (sid_steam_id64 r0)
             then terminal (sid_status r) else r = r0)
          before after.

(** The log has the entry that [logScrapeStart] created. *)
Definition log_open (logId : nat) (steamId64 : string)
  (logs : list ScrapeLogRow) : Prop :=
  exists row, In row logs /\ log_id row = logId /\
              log_steam_id64 row = steamId64.

(** The log has an entry of the identifier in its terminal phase, with
    the error message when it failed. *)
Definition logged (steamId64 : string) (ok : bool) (err : option string)
  (logs : list ScrapeLogRow) : Prop :=
  exists row, In row logs /\ log_steam_id64 row = steamId64 /\
              if ok then log_status row = log_success
              else log_status row = log_failed /\
                   Some (log_message row) = err.

(** What the per-item procedure leaves when it returns [r]. *)
Definition item_returns (browse : string -> Visit) (steamId64 : string)
  (w : World) (r : ItemResult) (w' : World) : Prop :=
  item_steamId64 r = steamId64 /\
  processedCount w' = S (processedCount w) /\
  logged steamId64 (item_success r) (item_error r)
         (scrape_logs (tables w')) /\
  (item_success r = true ->
   success (scrape_result (browse steamId64)) = true /\
   escapes (browse steamId64) = None /\
   exists t, steam_ids (tables w') =
             set_status steamId64 completed t (steam_ids (tables w))) /\
  (item_success r = false ->
   failure_recorded steamId64 (player_stats (tables w')) /\
   exists t, steam_ids (tables w') =
             set_status steamId64 failed t (steam_ids (tables w))).

(** When the scrape did not succeed, the procedure writes nothing to
    [player_stats] or leaves a failure record there. *)
Definition no_success_written (browse : string -> Visit) (steamId64 : string)
  (w w' : World) : Prop :=
  success (scrape_result (browse steamId64)) = false ->
  player_stats (tables w') = player_stats (tables w) \/
  failure_recorded steamId64 (player_stats (tables w')).

(** Whether the awaited scrape hands back a success, and the message it
    hands back otherwise. *)
Definition scrape_succeeds (browse : string -> Visit) (steamId64 : string)
  : bool :=
  match escapes (browse steamId64) with
  | Some _ => false
  | None => success (scrape_result (browse steamId64))
  end.

Definition scrape_error (browse : string -> Visit) (steamId64 : string)
  : option string :=
  match escapes (browse steamId64) with
  | Some message => Some message
  | None => error (scrape_result (browse steamId64))
  end.

(** What the procedure returns when no database call rejects. *)
Definition item_unfaulted (browse : string -> Visit) (steamId64 : string)
  (w : World) (r : ItemResult) (w' : World) : Prop :=
  db_faults w' = [] /\
  isRunning w' =
    isRunning w && negb (stop_requested (browse steamId64)) /\
  item_success r = scrape_succeeds browse steamId64 /\
  item_error r = scrape_error browse steamId64.

(** The rows of a batch whose procedure is started: all of them up to and
    including the first one during which [stop] is handled. *)
Fixpoint started (browse : string -> Visit) (running : bool)
  (l : list SteamIdRow) : list SteamIdRow :=
  match l with
  | [] => []
  | p :: rest =>
      if running
      then p :: started browse
                  (negb (stop_requested (browse (sid_steam_id64 p)))) rest
      else []
  end.

Definition ids (l : list SteamIdRow) : list string := map sid_steam_id64 l.


(** What it guarantees in addition when no database call rejects: the
    rows it has run are exactly the started ones. *)
Definition loop_unfaulted (browse : string -> Visit)
  (remaining : list SteamIdRow) (results : list ItemResult) (w : World)
  (res : list ItemResult) (w' : World) : Prop :=
  let run := started browse (isRunning w) remaining in
  db_faults w' = [] /\
  (exists items,
      res = results ++ items /\
      map item_steamId64 items = ids run /\
      map item_success items = map (scrape_succeeds browse) (ids run)) /\
  processedCount w' = (processedCount w + List.length run)%nat /\
  settled (ids run) (steam_ids (tables w)) (steam_ids (tables w')).


(** What it guarantees in addition when no database call rejects. *)
Definition batch_unfaulted (browse : string -> Visit) (w : World)
  (r : BatchResult) (w' : World) : Prop :=
  let pending := getPendingSteamIds ScraperManager.batchSize (tables w) in
  let run := started browse (isRunning w) pending in
  db_faults w' = [] /\
  br_processed r = List.length run /\
  (pending <> [] ->
   br_completed r = false /\
   br_successful r =
     Some (List.length (filter (scrape_succeeds browse) (ids run))) /\
   br_failed r =
     Some (List.length
             (filter (fun i => negb (scrape_succeeds browse i)) (ids run)))) /\
  processedCount w' = (processedCount w + List.length run)%nat /\
  settled (ids run) (steam_ids (tables w)) (steam_ids (tables w')).

(** The answers of the database to the next [n] calls ([None]: the call
    succeeds), read off the list of the world. *)
Fixpoint upcoming (n : nat) (faults : list (option string))
  : list (option string) :=
  match n with
  | O => []
  | S n' =>
      match faults with
      | [] => None :: upcoming n' []
      | f :: rest => f :: upcoming n' rest
      end
  end.

(** How the database treats the calls of one item, when it lets the
    per-item procedure capture what goes wrong: it accepts them all, or
    it rejects call number [k] of the [try] block (0: the update to
    ['processing']; 1 to 3: the three writes after the scrape) and
    accepts [logScrapeStart] and the three writes of the [catch] block. *)
Inductive Treatment : Type :=
| accepts
| rejects_in_try (k : nat) (message : string).

(** The calls of the item, in order, with their answers. *)
Definition answers (c : Treatment) : list (option string) :=
  match c with
  | accepts => repeat None 5
  | rejects_in_try k message =>
      None :: repeat None k ++ Some message :: repeat None 3
  end.

(** The [try] block has four calls, and reaches the second only when the
    scrape returns. *)
Definition possible (browse : string -> Visit) (steamId64 : string)
  (c : Treatment) : Prop :=
  match c with
  | accepts => True
  | rejects_in_try k _ =>
      (k <= 3)%nat /\ ((0 < k)%nat -> escapes (browse steamId64) = None)
  end.

(** Whether the scrape is awaited: not when the update to ['processing']
    is rejected. *)
Definition scrapes (c : Treatment) : bool :=
  match c with
  | rejects_in_try O _ => false
  | _ => true
  end.

(** The result of the item. *)
Definition item_ok (browse : string -> Visit) (steamId64 : string)
  (c : Treatment) : bool :=
  match c with
  | accepts => scrape_succeeds browse steamId64
  | rejects_in_try _ _ => false
  end.

Definition item_message (browse : string -> Visit) (steamId64 : string)
  (c : Treatment) : option string :=
  match c with
  | accepts => scrape_error browse steamId64
  | rejects_in_try _ message => Some message
  end.

(** The rows of a batch whose procedure is started, with their
    treatment: all of them up to and including the first one during
    whose scrape [stop] is handled. *)
Fixpoint started_with (browse : string -> Visit) (running : bool)
  (l : list SteamIdRow) (plan : list Treatment)
  : list (SteamIdRow * Treatment) :=
  match l, plan with
  | p :: rest, c :: plan' =>
      if running
      then (p, c) ::
           started_with browse
             (negb (stop_requested (browse (sid_steam_id64 p)) && scrapes c))
             rest plan'
      else []
  | _, _ => []
  end.

(** The calls of the items that are started. *)
Definition calls (run : list (SteamIdRow * Treatment))
  : list (option string) :=
  flat_map (fun pc => answers (snd pc)) run.

(** The flag after the items that are started. *)
Definition still_running (browse : string -> Visit)
  (run : list (SteamIdRow * Treatment)) : bool :=
  forallb (fun pc => negb (stop_requested (browse (sid_steam_id64 (fst pc)))
                           && scrapes (snd pc))) run.

(** The [success] field of their results. *)
Definition verdicts (browse : string -> Visit)
  (run : list (SteamIdRow * Treatment)) : list bool :=
  map (fun pc => item_ok browse (sid_steam_id64 (fst pc)) (snd pc)) run.

(** What [filter] counts in the results. *)
Definition tally (b : bool) (l : list bool) : nat :=
  List.length (filter (Bool.eqb b) l).

(** The database lets every item that is started be captured: after the
    [SELECT], its answers are those of the treatments. *)
Definition captured (browse : string -> Visit) (w : World)
  (plan : list Treatment) : Prop :=
  let pending := getPendingSteamIds ScraperManager.batchSize (tables w) in
  let run := started_with browse (isRunning w) pending plan in
  List.length plan = List.length pending /\
  Forall (fun pc => possible browse (sid_steam_id64 (fst pc)) (snd pc)) run /\
  upcoming (S (List.length (calls run))) (db_faults w) = None :: calls run.






End OrchestratorSpec.

Module Scenario.
Import SelectionOrder ExtractionSpec.

(** A page without any statistic. *)
Definition empty_page : Document := page [].

(** The second identifier is served the empty page, the others a page
    with three fields; [stop] is typed while [stop_on] is in flight. *)
Definition served (stop_on : string) (steamId64 : string) : Visit :=
  {| outcome :=
       if steamId64 =? sid_steam_id64 row_B
       then Snapshot empty_page else Snapshot disambiguation;
     elapsed := 1500;
     escapes := None;
     stop_requested := steamId64 =? stop_on |}.

(** Three pending identifiers; the batch takes them as A, B, C. *)
Definition queue : Tables := mkTables [row_C; row_B; row_A] [] [].

(** A manager that has just been started, with the database calls that
    are going to reject. *)
Definition running (faults : list (option string)) : World :=
  mkWorld queue faults 0 true 0 0 0.

(** The database goes away while the second identifier is processed:
    the [SELECT] and the five calls of the first item succeed, then
    [logScrapeStart] and the update to ['processing'] succeed, and every
    later call rejects. *)
Definition outage : list (option string) :=
  [None; None; None; None; None; None; None; None;
   Some "read ECONNRESET"; Some "read ECONNRESET"; Some "read ECONNRESET";
   Some "read ECONNRESET"].

End Scenario.

(* ================================================================== *)
(** ** Further vocabulary: the extraction engine *)
(* ================================================================== *)

From Stdlib Require Import Qround FunctionalExtensionality.

Module ResultShape.

(** The three kinds of value the callback stores. *)
Inductive Kind : Type := KFloat | KPercent | KInteger.

Definition kind_of (f : Field) : Kind :=
  match f with
  | kd_ratio | hltv_rating => KFloat
  | win_rate | headshot_percentage | clutch_success | entry_success =>
      KPercent
  | _ => KInteger
  end.

(** A value fits its field: a number from [parseFloat], a text that
    matches [/^\d+%$/], a number from [parseInt]. *)
Definition fits (f : Field) (v : Value) : Prop :=
  match kind_of f, v with
  | KFloat, VFloat _ => True
  | KPercent, VText s => Js.is_percent_text s = true
  | KInteger, VInt _ => True
  | _, _ => False
  end.

Definition all_fields : list Field :=
  [ kd_ratio; hltv_rating; win_rate; headshot_percentage; clutch_success;
    entry_success; kills; deaths; assists; headshots; matches_played;
    matches_won; matches_lost; matches_tied; rounds_played; total_damage;
    adr ].

(** The numeric guard of the keyword routing for a field. *)
Definition within_guard (f : Field) (n : N) : Prop :=
  (0 < n)%N /\
  match f with
  | headshots => (n < 50000)%N
  | matches_won | matches_lost => (n < 10000)%N
  | rounds_played => (1000 < n)%N
  | total_damage => (100000 < n)%N
  | _ => True
  end.

Definition starts_with_space (s : string) : bool :=
  match s with
  | EmptyString => false
  | String c _ => Js.is_space c
  end.

Fixpoint ends_with_space (s : string) : bool :=
  match s with
  | EmptyString => false
  | String c EmptyString => Js.is_space c
  | String _ s' => ends_with_space s'
  end.

End ResultShape.

Module Dom.

(** Induction on a node with the hypothesis for all its children. *)
Fixpoint Node_induction (P : Node -> Prop)
  (HText : forall s, P (Text s))
  (HElement : forall t c cs, Forall P cs -> P (Element t c cs))
  (n : Node) {struct n} : P n :=
  match n with
  | Text s => HText s
  | Element t c cs =>
      HElement t c cs
        ((fix all (l : list Node) : Forall P l :=
            match l with
            | [] => Forall_nil P
            | x :: l' =>
                Forall_cons x (Node_induction P HText HElement x) (all l')
            end) cs)
  end.

(** The elements below the children [l] of an element with ancestors
    [anc], the first of which is child element number [i]. *)
Fixpoint elements_below (anc : list Node) (l : list Node) (i : nat)
  : list Elem :=
  match l with
  | [] => []
  | c :: l' =>
      elements_from anc i c ++
      elements_below anc l' (if is_element c then S i else i)
  end.

(** An element is where its record says: child number [position] of its
    parent. *)
Definition placed (el : Elem) : Prop :=
  exists p, parentElement el = Some p /\
            nth_error (children p) (position el) = Some (node el).

End Dom.

Module Standalone.

(** The integer routing of the stand-alone script (second file of the
    repository, lines 121-143): the same chain, the text stored as it
    is, and 10000 as the threshold of ["round"]. *)
Definition route_integer (context : string) (num : N) (text : string)
  : list Assignment :=
  if Js.includes context "kill" && negb (Js.includes context "death") then
    [(kills, VText text)]
  else if Js.includes context "death" && negb (Js.includes context "kill") then
    [(deaths, VText text)]
  else if Js.includes context "assist" then [(assists, VText text)]
  else if Js.includes context "headshot" && (num <? 50000)%N then
    [(headshots, VText text)]
  else if Js.includes context "played" || Js.includes context "match" then
    [(matches_played, VText text)]
  else if Js.includes context "won" && (num <? 10000)%N then
    [(matches_won, VText text)]
  else if Js.includes context "lost" && (num <? 10000)%N then
    [(matches_lost, VText text)]
  else if Js.includes context "round" && (10000 <? num)%N then
    [(rounds_played, VText text)]
  else if Js.includes context "damage" && (100000 <? num)%N then
    [(total_damage, VText text)]
  else [].

End Standalone.

(* ================================================================== *)
(** ** The other statements of [DatabaseService] *)
(* ================================================================== *)

Module Queries.
Import DatabaseService.

Definition has_key (steamId64 : string) (r : SteamIdRow) : bool :=
  sid_steam_id64 r =? steamId64.

(** Lines 270-279.  [insertId] is the [id] that [AUTO_INCREMENT] gives
    to a new row; [status] and the two timestamps of a new row are the
    defaults of the schema. *)
Definition addSteamId (steamId64 : string) (priority : Z) (insertId : N)
  (now : Z) (t : Tables) : Tables :=
  {| steam_ids :=
       if existsb (has_key steamId64) (steam_ids t)
       then map (fun r =>
                   if has_key steamId64 r
                   then {| sid_id := sid_id r;
                           sid_steam_id64 := sid_steam_id64 r;
                           sid_status := sid_status r;
                           sid_priority := priority;
                           sid_created_at := sid_created_at r;
                           sid_updated_at := now |}
                   else r)
                (steam_ids t)
       else steam_ids t ++
            [ {| sid_id := insertId;
                 sid_steam_id64 := steamId64;
                 sid_status := pending;
                 sid_priority := priority;
                 sid_created_at := now;
                 sid_updated_at := now |} ];
     player_stats := player_stats t;
     scrape_logs := scrape_logs t |}.

(** Lines 497-504. *)
Definition resetSteamIdStatus (steamId64 : string) (now : Z) (t : Tables)
  : Tables :=
  {| steam_ids := set_status steamId64 pending now (steam_ids t);
     player_stats := player_stats t;
     scrape_logs := scrape_logs t |}.

Definition is_failed (r : SteamIdRow) : bool :=
  Status_eqb (sid_status r) failed.

(** Lines 506-513. *)
Definition resetAllFailedSteamIds (now : Z) (t : Tables) : Tables :=
  {| steam_ids :=
       map (fun r =>
              if is_failed r
              then {| sid_id := sid_id r;
                      sid_steam_id64 := sid_steam_id64 r;
                      sid_status := pending;
                      sid_priority := sid_priority r;
                      sid_created_at := sid_created_at r;
                      sid_updated_at := now |}
              else r)
           (steam_ids t);
     player_stats := player_stats t;
     scrape_logs := scrape_logs t |}.

(** [DECIMAL(4,2)], the type of [kd_ratio] and [hltv_rating] in the
    schema: two decimals, rounded half away from zero.  A value out of
    the range of its column makes the statement reject in strict SQL
    mode: a rejected call of the model, not a stored value. *)
Definition decimal_4_2 (q : Q) : Q :=
  if Qle_bool 0 q
  then Qfloor (q * 100 + (1 # 2)) # 100
  else Qopp (Qfloor (Qopp q * 100 + (1 # 2)) # 100).

(** What a column holds of the value bound to it: the two [DECIMAL]
    columns round it, the [INT] and [VARCHAR] columns keep it. *)
Definition stored_as (f : Field) (v : option Value) : option Value :=
  match f, v with
  | kd_ratio, Some (VFloat q) => Some (VFloat (decimal_4_2 q))
  | hltv_rating, Some (VFloat q) => Some (VFloat (decimal_4_2 q))
  | _, _ => v
  end.

(** A row as a [SELECT *] shows it: the rows of the model keep the bound
    values, the column types apply when a row is read. *)
Definition as_stored (r : PlayerStatsRow) : PlayerStatsRow :=
  {| ps_steam_id64 := ps_steam_id64 r;
     ps_player_name := ps_player_name r;
     ps_profile_url := ps_profile_url r;
     ps_column := fun f => stored_as f (ps_column r f);
     ps_last_scraped := ps_last_scraped r;
     ps_scrape_success := ps_scrape_success r;
     ps_error_message := ps_error_message r |}.

(** Lines 379-383: [results[0] || null]. *)
Definition getPlayerStats (steamId64 : string) (t : Tables)
  : option PlayerStatsRow :=
  option_map as_stored
    (find (fun r => ps_steam_id64 r =? steamId64) (player_stats t)).

(** The column of [player_stats] that a whitelisted name denotes. *)
Definition column_field (column : string) : Field :=
  if column =? "hltv_rating" then hltv_rating
  else if column =? "matches_played" then matches_played
  else if column =? "kills" then kills
  else if column =? "adr" then adr
  else if column =? "matches_won" then matches_won
  else kd_ratio.

(** The number a row is ranked by: the bound value as the column holds
    it (the six columns are numeric; a text, which they cannot hold,
    counts as 0). *)
Definition numeric (v : option Value) : Q :=
  match v with
  | Some (VInt n) => inject_Z (Z.of_N n)
  | Some (VFloat q) => decimal_4_2 q
  | _ => 0
  end.

(** [ORDER BY column DESC]: [a] may come before [b]. *)
Definition ranks_before (f : Field) (a b : PlayerStatsRow) : bool :=
  Qle_bool (numeric (ps_column b f)) (numeric (ps_column a f)).

Fixpoint insert_ranked (f : Field) (r : PlayerStatsRow)
  (l : list PlayerStatsRow) : list PlayerStatsRow :=
  match l with
  | [] => [r]
  | x :: l' =>
      if ranks_before f r x then r :: l else x :: insert_ranked f r l'
  end.

Definition is_ranked (f : Field) (r : PlayerStatsRow) : bool :=
  ps_scrape_success r &&
  match ps_column r f with Some _ => true | None => false end.

(** Lines 394-412: the rows the [SELECT] returns. *)
Definition getTopPlayers (limit : nat) (orderBy : Argument) (t : Tables)
  : list PlayerStatsRow :=
  let f := column_field (order_column orderBy) in
  firstn limit
    (fold_right (insert_ranked f) [] (filter (is_ranked f) (player_stats t))).

(** Lines 467-486, the seven counts. *)
Record ScrapingStats : Type := mkScrapingStats {
  total_steam_ids : nat;
  pending_steam_ids : nat;
  completed_steam_ids : nat;
  failed_steam_ids : nat;
  total_player_stats : nat;
  successful_scrapes : nat;
  failed_scrapes : nat
}.

Definition count {A : Type} (p : A -> bool) (l : list A) : nat :=
  List.length (filter p l).

Definition getScrapingStats (t : Tables) : ScrapingStats :=
  {| total_steam_ids := List.length (steam_ids t);
     pending_steam_ids := count is_pending (steam_ids t);
     completed_steam_ids :=
       count (fun r => Status_eqb (sid_status r) completed) (steam_ids t);
     failed_steam_ids := count is_failed (steam_ids t);
     total_player_stats := List.length (player_stats t);
     successful_scrapes := count ps_scrape_success (player_stats t);
     failed_scrapes :=
       count (fun r => negb (ps_scrape_success r)) (player_stats t) |}.

(** A list that the [SELECT] of [getPendingSteamIds] may return: the
    first [limit] rows of the pending rows put in an order that the
    [ORDER BY] allows (rows that tie on both columns in any order). *)
Definition may_select (limit : nat) (t : Tables) (rows : list SteamIdRow)
  : Prop :=
  exists sorted,
    Permutation sorted (filter is_pending (steam_ids t)) /\
    StronglySorted SelectionOrder.ordered sorted /\
    rows = firstn limit sorted.

(** The table has one row per identifier ([UNIQUE] in the schema). *)
Definition unique_ids (rows : list SteamIdRow) : Prop :=
  NoDup (map sid_steam_id64 rows).

End Queries.

(* ================================================================== *)
(** ** [ScraperManager]: the run *)
(* ================================================================== *)

Module Run.
Import DatabaseService ScraperManager.
Local Open Scope js_scope.

(** [this.isRunning = b] *)
Definition set_isRunning (b : bool) : M unit := fun w =>
  (Returned tt,
   mkWorld (tables w) (db_faults w) (clock w) b
           (processedCount w) (successCount w) (failureCount w)).

(** Lines 156-158. *)
Definition reset_counters : M unit := fun w =>
  (Returned tt,
   mkWorld (tables w) (db_faults w) (clock w) (isRunning w) 0 0 0).

Section Batches.

Variable browse : string -> Visit.

(** Lines 169-189: the [while] loop.  [fuel] bounds the number of
    batches; the loop returns [None] when the bound is reached, and
    [Some tt] when it ends by itself. *)
Fixpoint batches (fuel : nat) : M (option unit) :=
  match fuel with
  | O => ret None
  | S fuel' =>
      fun w =>
        if negb (isRunning w) then (Returned (Some tt), w)
        else
          (batchResult <- processBatch browse ;;
           if br_completed batchResult ||
              (br_processed batchResult =? 0)%nat
           then ret (Some tt)
           else
             (fun w' => if isRunning w' then delay 1000 w' else ret tt w') ;;
             batches fuel') w
  end.

(** Lines 149-207. *)
Definition startScraping (fuel : nat) : M (option unit) :=
  fun w =>
    if isRunning w then (Returned (Some tt), w)
    else
      (set_isRunning true ;;
       reset_counters ;;
       finally
         (try_catch (batches fuel)
                    (fun message => fun w' => (Thrown message, w')))
         (set_isRunning false)) w.

End Batches.

(** Lines 209-217. *)
Definition stopScraping : M unit :=
  fun w =>
    if negb (isRunning w) then (Returned tt, w)
    else set_isRunning false w.

End Run.

Module RunSpec.
Import DatabaseService OrchestratorSpec.

(** The rows that were pending have reached a terminal status, every
    other row is as it was. *)
Definition drained (before after : list SteamIdRow) : Prop :=
  Forall2 (fun r0 r =>
             sid_steam_id64 r = sid_steam_id64 r0 /\
             if is_pending r0 then terminal (sid_status r) else r = r0)
          before after.

(** The pending rows whose identifier satisfies [g]. *)
Definition pending_with (g : string -> bool) (rows : list SteamIdRow)
  : list SteamIdRow :=
  filter (fun r => is_pending r && g (sid_steam_id64 r)) rows.

(** A pending row has reached a terminal status or is as it was, every
    other row is as it was. *)
Definition advanced (before after : list SteamIdRow) : Prop :=
  Forall2 (fun r0 r =>
             sid_steam_id64 r = sid_steam_id64 r0 /\
             if is_pending r0
             then terminal (sid_status r) \/ r = r0
             else r = r0)
          before after.

(** The counters have grown by [ok] successes and [ko] failures, and
    [processedCount] by their sum. *)
Definition counted (ok ko : nat) (w w' : World) : Prop :=
  processedCount w' = (processedCount w + (ok + ko))%nat /\
  successCount w' = (successCount w + ok)%nat /\
  failureCount w' = (failureCount w + ko)%nat.

(** No counter has gone down, and the results counted since [w] are no
    more than the procedures counted since [w]. *)
Definition behind (w w' : World) : Prop :=
  (processedCount w <= processedCount w')%nat /\
  (successCount w <= successCount w')%nat /\
  (failureCount w <= failureCount w')%nat /\
  (successCount w' + failureCount w' + processedCount w <=
   successCount w + failureCount w + processedCount w')%nat.

(** No [stop] is typed during the run. *)
Definition never_stopped (browse : string -> Visit) : Prop :=
  forall steamId64, stop_requested (browse steamId64) = false.

(** The pages of [Scenario.served], and nobody types [stop]. *)
Definition calm (steamId64 : string) : Visit :=
  {| outcome :=
       if steamId64 =? sid_steam_id64 SelectionOrder.row_B
       then Snapshot Scenario.empty_page
       else Snapshot ExtractionSpec.disambiguation;
     elapsed := 1500;
     escapes := None;
     stop_requested := false |}.

(** A manager that is not running, with the three pending identifiers
    of [Scenario.queue]. *)
Definition idle (faults : list (option string)) : World :=
  mkWorld Scenario.queue faults 0 false 0 0 0.

End RunSpec.
(* ================================================================== *)
(** * Properties *)
(* ================================================================== *)

(* ------------------------------------------------------------------ *)
(** ** [getTopPlayers]: the interpolated column *)
(* ------------------------------------------------------------------ *)

Module TopPlayers.
Import DatabaseService.

Lemma valid_string_in_whitelist (s : string) :
  existsb (String.eqb s) validOrderBy = true -> In s validOrderBy.
Proof.
  intro H. apply existsb_exists in H. destruct H as [x [Hin Heq]].
  apply String.eqb_eq in Heq. now subst.
Qed.

(** C9. Whatever is passed as [orderBy], the column written into the
    query text is one of the six whitelisted names, the query is the
    template instantiated with that column, and an argument that is not
    in the whitelist is replaced by ['kd_ratio']. *)
Theorem order_column_whitelisted (orderBy : Argument) :
  In (order_column orderBy) validOrderBy /\
  getTopPlayers_query orderBy = top_players_template (order_column orderBy) /\
  (is_valid orderBy = false -> order_column orderBy = "kd_ratio").
Proof.
  split; [| split].
  - destruct orderBy as [| s |]; unfold order_column, is_valid;
      try (simpl; now auto).
    destruct (existsb (String.eqb s) validOrderBy) eqn:E.
    + now apply valid_string_in_whitelist.
    + simpl; auto.
  - reflexivity.
  - destruct orderBy as [| s |]; unfold order_column; auto.
    now intros ->.
Qed.

Lemma order_column_whitelisted_witness :
  is_valid (arg_string "kills; DROP TABLE player_stats") = false /\
  order_column (arg_string "kills; DROP TABLE player_stats") = "kd_ratio".
Proof.
  split; [reflexivity |].
  apply (order_column_whitelisted
           (arg_string "kills; DROP TABLE player_stats")).
  reflexivity.
Defined.

End TopPlayers.

(* ------------------------------------------------------------------ *)
(** ** [getPendingSteamIds]: batch selection *)
(* ------------------------------------------------------------------ *)

Module Selection.
Import DatabaseService SelectionOrder.

Lemma precedes_total (a b : SteamIdRow) :
  precedes a b = false -> precedes b a = true.
Proof. unfold precedes. intros H. lia. Qed.

Lemma ordered_trans (a b c : SteamIdRow) :
  ordered a b -> ordered b c -> ordered a c.
Proof. unfold ordered, precedes. intros H1 H2. lia. Qed.

Lemma insert_row_perm (r : SteamIdRow) (l : list SteamIdRow) :
  Permutation (r :: l) (insert_row r l).
Proof.
  induction l as [| x l IH]; simpl; auto.
  destruct (precedes r x); auto.
  rewrite perm_swap. now constructor.
Qed.

Lemma order_by_perm (l : list SteamIdRow) : Permutation l (order_by l).
Proof.
  induction l as [| r l IH]; simpl; auto.
  rewrite <- insert_row_perm. now constructor.
Qed.

Lemma insert_row_sorted (r : SteamIdRow) (l : list SteamIdRow) :
  Sorted ordered l -> Sorted ordered (insert_row r l).
Proof.
  induction l as [| x l IH]; simpl; intro Hs.
  - repeat constructor.
  - destruct (precedes r x) eqn:E.
    + constructor; auto.
    + inversion Hs as [| ? ? Hs' Hhd]; subst.
      constructor; auto.
      destruct l as [| y l]; simpl.
      * constructor. now apply precedes_total.
      * destruct (precedes r y); constructor.
        -- now apply precedes_total.
        -- now inversion Hhd.
  Qed.

Lemma order_by_sorted (l : list SteamIdRow) :
  StronglySorted ordered (order_by l).
Proof.
  apply Sorted_StronglySorted.
  - intros a b c. apply ordered_trans.
  - induction l as [| r l IH]; simpl; [constructor |].
    now apply insert_row_sorted.
Qed.

Lemma in_firstn {A} n (l : list A) x : In x (firstn n l) -> In x l.
Proof.
  revert n. induction l as [| a l IH]; intros [| n]; simpl; try tauto.
  intros [-> | H]; eauto.
Qed.

Lemma in_skipn {A} n (l : list A) x : In x (skipn n l) -> In x l.
Proof.
  revert n. induction l as [| a l IH]; intros [| n]; simpl; try tauto.
  eauto.
Qed.

Lemma strongly_sorted_firstn {A} (R : A -> A -> Prop) n (l : list A) :
  StronglySorted R l -> StronglySorted R (firstn n l).
Proof.
  intro H. revert n. induction H as [| a l Hs IH Hall]; intro n.
  - rewrite firstn_nil. constructor.
  - destruct n; simpl; constructor; auto.
    rewrite Forall_forall in *. intros x Hx.
    apply Hall. eapply in_firstn; eauto.
Qed.

Lemma strongly_sorted_split {A} (R : A -> A -> Prop) n (l : list A) :
  StronglySorted R l ->
  forall x y, In x (firstn n l) -> In y (skipn n l) -> R x y.
Proof.
  intro H. revert n. induction H as [| a l Hs IH Hall]; intros n x y Hx Hy.
  - rewrite firstn_nil in Hx. destruct Hx.
  - destruct n; simpl in *; [destruct Hx |].
    destruct Hx as [-> | Hx].
    + rewrite Forall_forall in Hall. apply Hall.
      eapply in_skipn; eauto.
    + eapply IH; eauto.
Qed.

Lemma is_pending_spec (r : SteamIdRow) :
  is_pending r = true <-> sid_status r = pending.
Proof.
  unfold is_pending. destruct (sid_status r); simpl; split; congruence.
Qed.

Lemma three_rows_any_order (A B C x y z : SteamIdRow) :
  Permutation [A; B; C] [x; y; z] ->
  A <> B -> A <> C -> B <> C ->
  [x; y; z] = [A; B; C] \/ [x; y; z] = [A; C; B] \/
  [x; y; z] = [B; A; C] \/ [x; y; z] = [B; C; A] \/
  [x; y; z] = [C; A; B] \/ [x; y; z] = [C; B; A].
Proof.
  intros HP HAB HAC HBC.
  assert (HA : In A [x; y; z]) by (eapply Permutation_in; [exact HP | simpl; auto]).
  assert (HB : In B [x; y; z]) by (eapply Permutation_in; [exact HP | simpl; auto]).
  assert (HC : In C [x; y; z]) by (eapply Permutation_in; [exact HP | simpl; auto]).
  simpl in HA, HB, HC.
  destruct HA as [<- | [<- | [<- | []]]];
    destruct HB as [<- | [<- | [<- | []]]];
    destruct HC as [<- | [<- | [<- | []]]];
    try congruence; auto 10.
Qed.

(** C2. The [SELECT] returns at most [limit] rows, all of them pending
    rows of the table, ranked by priority descending and then by
    creation time ascending, and no pending row left out ranks before a
    returned one.  With A (priority 5, older), B (priority 5, newer) and
    C (priority 1) pending, in any order of the table, a limit of 2
    returns exactly [A; B]. *)
Theorem getPendingSteamIds_ordered :
  (forall (limit : nat) (t : Tables),
      let batch := getPendingSteamIds limit t in
      (List.length batch <= limit)%nat /\
      Forall (fun r => sid_status r = pending /\ In r (steam_ids t)) batch /\
      StronglySorted
        (fun a b =>
           (sid_priority a > sid_priority b)%Z \/
           (sid_priority a = sid_priority b /\
            sid_created_at a <= sid_created_at b)%Z) batch /\
      Permutation (filter is_pending (steam_ids t))
                  (batch ++ skipn limit (candidates t)) /\
      (forall x y, In x batch -> In y (skipn limit (candidates t)) ->
                   precedes x y = true)) /\
  (forall (A B C : SteamIdRow) (rows : list SteamIdRow)
          (logs : list ScrapeLogRow) (ps : list PlayerStatsRow),
      sid_status A = pending -> sid_status B = pending ->
      sid_status C = pending ->
      sid_priority A = 5%Z -> sid_priority B = 5%Z -> sid_priority C = 1%Z ->
      (sid_created_at A < sid_created_at B)%Z ->
      Permutation [A; B; C] rows ->
      getPendingSteamIds 2 (mkTables rows ps logs) = [A; B]).
Proof.
  split.
  - intros limit t batch. subst batch. unfold getPendingSteamIds.
    fold (candidates t).
    assert (Hs : StronglySorted ordered (candidates t))
      by apply order_by_sorted.
    assert (Hp : Permutation (filter is_pending (steam_ids t)) (candidates t))
      by apply order_by_perm.
    repeat split.
    + apply firstn_le_length.
    + apply Forall_forall. intros r Hr.
      apply in_firstn in Hr.
      apply (Permutation_in _ (Permutation_sym Hp)) in Hr.
      apply filter_In in Hr. destruct Hr as [Hin Hpend].
      split; [now apply is_pending_spec | exact Hin].
    + apply (strongly_sorted_firstn _ limit) in Hs.
      revert Hs. generalize (firstn limit (candidates t)).
      intros l Hl. induction Hl as [| a l Hl IH Hall]; constructor; auto.
      rewrite Forall_forall in *. intros b Hb.
      specialize (Hall b Hb). unfold ordered, precedes in Hall. lia.
    + now rewrite firstn_skipn.
    + intros x y Hx Hy. eapply (strongly_sorted_split ordered); eauto.
  - intros A B C rows logs ps HA HB HC PA PB PC Hlt HP.
    assert (Hlen : List.length rows = 3%nat)
      by (now rewrite <- (Permutation_length HP)).
    destruct rows as [| x [| y [| z [| ? ?]]]]; try discriminate.
    assert (HAB : A <> B) by (intros ->; lia).
    assert (HAC : A <> C) by (intros ->; lia).
    assert (HBC : B <> C) by (intros ->; lia).
    assert (pAB : precedes A B = true) by (unfold precedes; lia).
    assert (pBA : precedes B A = false) by (unfold precedes; lia).
    assert (pAC : precedes A C = true) by (unfold precedes; lia).
    assert (pCA : precedes C A = false) by (unfold precedes; lia).
    assert (pBC : precedes B C = true) by (unfold precedes; lia).
    assert (pCB : precedes C B = false) by (unfold precedes; lia).
    unfold getPendingSteamIds, order_by, is_pending.
    destruct (three_rows_any_order A B C x y z HP HAB HAC HBC)
      as [E | [E | [E | [E | [E | E]]]]];
      injection E as -> -> ->;
      cbn [steam_ids filter]; rewrite HA, HB, HC;
      cbn [Status_eqb fold_right insert_row];
      rewrite ?pAB, ?pBA, ?pAC, ?pCA, ?pBC, ?pCB;
      cbn [insert_row];
      rewrite ?pAB, ?pBA, ?pAC, ?pCA, ?pBC, ?pCB;
      reflexivity.
Qed.

Lemma getPendingSteamIds_ordered_witness :
  getPendingSteamIds 2 (mkTables [row_C; row_B; row_A] [] []) = [row_A; row_B].
Proof.
  apply (proj2 getPendingSteamIds_ordered row_A row_B row_C);
    try reflexivity.
  apply perm_trans with [row_A; row_C; row_B].
  - apply perm_skip, perm_swap.
  - apply perm_trans with [row_C; row_A; row_B].
    + apply perm_swap.
    + apply perm_skip, perm_swap.
Defined.

End Selection.

(* ------------------------------------------------------------------ *)
(** ** [savePlayerStats] and [savePlayerStatsError]: the two upserts *)
(* ------------------------------------------------------------------ *)

Module Upsert.
Import DatabaseService UpsertSpec.

Lemma is_stat_column_all (f : Field) : is_stat_column f = true.
Proof. destruct f; reflexivity. Qed.

Lemma existsb_key_of_In (steamId64 : string) (l : list PlayerStatsRow)
  (row : PlayerStatsRow) :
  In row l -> ps_steam_id64 row = steamId64 ->
  existsb (fun r => ps_steam_id64 r =? steamId64) l = true.
Proof.
  intros Hin Hkey. apply existsb_exists. exists row. split; auto.
  now apply String.eqb_eq.
Qed.

Lemma upsert_existing (steamId64 : string) fresh update
  (R : PlayerStatsRow -> PlayerStatsRow -> Prop) (l : list PlayerStatsRow) :
  existsb (fun r => ps_steam_id64 r =? steamId64) l = true ->
  (forall r, R r (update r)) ->
  rows_related steamId64 R l (upsert steamId64 fresh update l).
Proof.
  intros Hex HR. unfold upsert, rows_related. rewrite Hex. clear Hex.
  induction l as [| r l IH]; simpl; constructor; auto.
  destruct (ps_steam_id64 r =? steamId64); auto.
Qed.

(** C5. For a row that exists already, a successful write overwrites
    every stat column with the bound value, sets [scrape_success] and
    clears [error_message]; a failed write sets [last_scraped],
    [scrape_success] and [error_message] only and leaves every stat
    column (and the name and the URL) as it was.  Rows of other keys
    and the other tables are not touched by either. *)
Theorem upserts_asymmetric (steamId64 : string) (playerData : PlayerData)
  (errorMessage : string) (now : Z) (t : Tables) (row : PlayerStatsRow) :
  In row (player_stats t) -> ps_steam_id64 row = steamId64 ->
  let ok := savePlayerStats steamId64 playerData now t in
  let ko := savePlayerStatsError steamId64 errorMessage now t in
  rows_related steamId64 (overwritten playerData now)
               (player_stats t) (player_stats ok) /\
  rows_related steamId64 (preserved errorMessage now)
               (player_stats t) (player_stats ko) /\
  (forall f, In f stat_columns) /\
  steam_ids ok = steam_ids t /\ scrape_logs ok = scrape_logs t /\
  steam_ids ko = steam_ids t /\ scrape_logs ko = scrape_logs t.
Proof.
  intros Hin Hkey ok ko.
  pose proof (existsb_key_of_In _ _ _ Hin Hkey) as Hex.
  repeat split; try reflexivity.
  - apply upsert_existing; auto.
    intro r. unfold overwritten.
    cbn [ps_steam_id64 ps_column ps_error_message ps_scrape_success
         ps_last_scraped].
    repeat split; auto.
    intro f. now rewrite is_stat_column_all.
  - apply upsert_existing; auto.
    intro r. unfold preserved; cbn. repeat split; auto.
  - intro f. destruct f; simpl; auto 20.
Qed.

Lemma upserts_asymmetric_witness :
  let t := mkTables [] [sample_row] [] in
  rows_related "76561198000000001" (preserved "HTTP 503: busy" 20)
    (player_stats t)
    (player_stats
       (savePlayerStatsError "76561198000000001" "HTTP 503: busy" 20 t)).
Proof.
  intro t.
  apply (upserts_asymmetric "76561198000000001" sample_data
           "HTTP 503: busy" 20 t sample_row).
  - simpl; auto.
  - reflexivity.
Defined.

End Upsert.

(* ------------------------------------------------------------------ *)
(** ** The extraction callback *)
(* ------------------------------------------------------------------ *)

Module Extraction.
Import ExtractionSpec.

Lemma get_set (o : StatsObject) (g f : Field) (v : Value) :
  get (set o g v) f = if Field_eq_dec f g then Some v else get o f.
Proof.
  induction o as [| [h w] o IH]; simpl.
  - destruct (Field_eq_dec f g); reflexivity.
  - destruct (Field_eq_dec g h) as [-> | Hgh]; simpl.
    + destruct (Field_eq_dec f h); reflexivity.
    + destruct (Field_eq_dec f h) as [-> | Hfh].
      * destruct (Field_eq_dec h g); congruence.
      * exact IH.
Qed.

Lemma forEach_flat_map {A : Type} (l : list A) (body : A -> list Assignment)
  (o : StatsObject) :
  forEach l body o = fold_left assign (flat_map body l) o.
Proof.
  unfold forEach. revert o.
  induction l as [| e l IH]; intro o; simpl; [reflexivity |].
  now rewrite fold_left_app, IH.
Qed.

Lemma get_fold_assign (found : list Assignment) (o : StatsObject) (f : Field) :
  get (fold_left assign found o) f =
  match last_for f found with Some v => Some v | None => get o f end.
Proof.
  revert o. induction found as [| [g v] found IH]; intro o; simpl.
  - reflexivity.
  - rewrite IH. destruct (last_for f found); [reflexivity |].
    unfold assign; simpl. rewrite get_set.
    now destruct (Field_eq_dec f g).
Qed.

Lemma last_for_app (f : Field) (a b : list Assignment) :
  last_for f (a ++ b) =
  match last_for f b with Some v => Some v | None => last_for f a end.
Proof.
  induction a as [| [g v] a IH]; simpl.
  - now destruct (last_for f b).
  - rewrite IH. now destruct (last_for f b).
Qed.

Lemma forEach_last_match_wins {A : Type} (l : list A)
  (body : A -> list Assignment) :
  last_match_wins (forEach l body) (flat_map body l).
Proof.
  intros o f. rewrite forEach_flat_map. apply get_fold_assign.
Qed.

(** C1, as the code has it.  Every match of every pass is written to
    [extractedStats] without a test of the key: in the decimal,
    percentage and integer passes the last match of a field in document
    order is the one that stays, the label pass writes its field
    whenever its window holds an integer text, whatever the earlier
    passes stored, and the returned object holds for each field the
    last match of the whole callback. *)
Theorem every_match_is_written (doc : Document) :
  last_match_wins (decimal_pass doc) (decimal_matches doc) /\
  last_match_wins (percentage_pass doc) (percentage_matches doc) /\
  last_match_wins (integer_pass doc) (integer_matches doc) /\
  last_match_wins (label_pass doc) (label_matches doc) /\
  (forall f, get (extractedStats doc) f = last_for f (matches doc)).
Proof.
  repeat split; try apply forEach_last_match_wins.
  intro f. unfold extractedStats, matches.
  rewrite (forEach_last_match_wins _ _ : last_match_wins (label_pass doc) _).
  rewrite (forEach_last_match_wins _ _ : last_match_wins (integer_pass doc) _).
  rewrite (forEach_last_match_wins _ _ : last_match_wins (percentage_pass doc) _).
  rewrite (forEach_last_match_wins _ _ : last_match_wins (decimal_pass doc) _).
  rewrite !last_for_app.
  fold (label_matches doc) (integer_matches doc)
       (percentage_matches doc) (decimal_matches doc).
  destruct (last_for f (label_matches doc)),
           (last_for f (integer_matches doc)),
           (last_for f (percentage_matches doc)),
           (last_for f (decimal_matches doc)); reflexivity.
Qed.

(** C1, as stated, fails.  With two nodes routed to [kills] the integer
    pass keeps the second value, and a [WON] label next to 20000
    replaces the 12 the integer pass stored in [matches_won]. *)
Lemma first_match_does_not_win :
  ~ first_match_wins (integer_pass two_kills) (integer_matches two_kills) /\
  ~ first_match_wins (label_pass won_and_label)
                     (label_matches won_and_label).
Proof.
  split; intro H.
  - specialize (H [] kills). vm_compute in H. discriminate H.
  - specialize (H (integer_pass won_and_label []) matches_won).
    vm_compute in H. discriminate H.
Qed.

Lemma route_integer_values (context : string) (num : N) (f : Field)
  (v : Value) :
  In (f, v) (route_integer context num) -> v = VInt num /\ routed f = true.
Proof.
  unfold route_integer.
  repeat match goal with
    | |- In _ (if ?c then _ else _) -> _ => destruct c
    end;
    simpl; try tauto; intros [H | []]; inversion H; auto.
Qed.

Lemma integer_assignments_values (text parentText : string) (f : Field)
  (v : Value) :
  In (f, v) (integer_assignments text parentText) ->
  routed f = true ->
  exists n, v = VInt n /\ (0 < n)%N.
Proof.
  unfold integer_assignments. intros Hin Hr.
  apply in_app_or in Hin. destruct Hin as [Hin | Hin].
  - destruct (Js.is_integer_text text); [| destruct Hin].
    destruct (N.ltb_spec 0 (Js.parseInt text)) as [Hpos | _]; [| destruct Hin].
    apply route_integer_values in Hin. destruct Hin as [-> _].
    eauto.
  - destruct (_ && _); [| destruct Hin].
    destruct Hin as [Hin | []]. inversion Hin; subst. discriminate Hr.
Qed.

Lemma last_for_In (f : Field) (found : list Assignment) (v : Value) :
  last_for f found = Some v -> In (f, v) found.
Proof.
  induction found as [| [g w] found IH]; simpl; [discriminate |].
  destruct (last_for f found) as [u |].
  - intros [= ->]. auto.
  - destruct (Field_eq_dec f g) as [-> |]; [| discriminate].
    intros [= ->]. auto.
Qed.

Lemma played_goes_to_matches (context : string) (num : N) (f : Field)
  (v : Value) :
  Js.includes context "played" = true ->
  In (f, v) (route_integer context num) ->
  f <> rounds_played /\ f <> total_damage.
Proof.
  unfold route_integer. intros ->.
  rewrite orb_true_l.
  repeat match goal with
    | |- In _ (if ?c then _ else _) -> _ => destruct c
    end;
    simpl; try tauto; intros [H | []]; inversion H; split; discriminate.
Qed.

(** C6, as the code has it.  On the three contexts the integer routing
    writes [kills = 4821], [deaths = 3190] and, because ["played"] is
    tested before ["round"], [matches_played = 18452]; [rounds_played]
    and [total_damage] keep what they had.  No context that contains
    ["played"] is ever routed to [rounds_played] or [total_damage]. *)
Theorem disambiguation_routes_played_to_matches :
  integer_pass disambiguation [] =
    [(kills, VInt 4821); (deaths, VInt 3190); (matches_played, VInt 18452)] /\
  (forall o : StatsObject,
      let o' :=
        fold_left assign
          (integer_assignments "4821" "Kills: 4821" ++
           integer_assignments "3190" "Deaths 3190" ++
           integer_assignments "18452" "Rounds Played 18452") o in
      get o' kills = Some (VInt 4821) /\
      get o' deaths = Some (VInt 3190) /\
      get o' matches_played = Some (VInt 18452) /\
      get o' rounds_played = get o rounds_played /\
      get o' total_damage = get o total_damage) /\
  (forall context num f v,
      Js.includes context "played" = true ->
      In (f, v) (route_integer context num) ->
      f <> rounds_played /\ f <> total_damage).
Proof.
  split; [vm_compute; reflexivity | split].
  - intros o o'. subst o'.
    replace (integer_assignments "4821" "Kills: 4821" ++
             integer_assignments "3190" "Deaths 3190" ++
             integer_assignments "18452" "Rounds Played 18452")
      with [(kills, VInt 4821); (deaths, VInt 3190);
            (matches_played, VInt 18452)]
      by (vm_compute; reflexivity).
    rewrite !get_fold_assign. simpl. repeat split; reflexivity.
  - apply played_goes_to_matches.
Qed.

Lemma disambiguation_routes_played_to_matches_witness :
  matches_played <> rounds_played /\ matches_played <> total_damage.
Proof.
  apply (proj2 (proj2 disambiguation_routes_played_to_matches)
           "18452 rounds played 18452" 18452%N matches_played
           (VInt 18452)).
  - reflexivity.
  - vm_compute. auto.
Defined.

(** C6, as stated, fails: the integer pass does not store 18452 under
    [rounds_played]. *)
Lemma rounds_played_not_assigned :
  let s := integer_pass disambiguation [] in
  ~ (get s kills = Some (VInt 4821) /\
     get s deaths = Some (VInt 3190) /\
     get s rounds_played = Some (VInt 18452) /\
     get s total_damage <> Some (VInt 18452)).
Proof.
  intros s [_ [_ [H _]]]. vm_compute in H. discriminate H.
Qed.

(** C10. A node whose text is ["0"] makes the integer pass write
    nothing; whatever the keyword routing writes to one of its nine
    fields is a positive integer, so after the pass such a field holds
    what it held before or a positive integer; the label pass has no
    such guard and stores 0 for a [KILLS] label next to ["0"]. *)
Theorem routing_requires_positive :
  (forall parentText, integer_assignments "0" parentText = []) /\
  (forall text parentText f v,
      In (f, v) (integer_assignments text parentText) ->
      routed f = true ->
      exists n, v = VInt n /\ (0 < n)%N) /\
  (forall doc o f v,
      routed f = true ->
      get (integer_pass doc o) f = Some v ->
      get o f = Some v \/ exists n, v = VInt n /\ (0 < n)%N) /\
  get (integer_pass zero_label []) kills = None /\
  get (label_pass zero_label (integer_pass zero_label [])) kills =
    Some (VInt 0).
Proof.
  split; [| split; [| split; [| split]]].
  - intro parentText. reflexivity.
  - apply integer_assignments_values.
  - intros doc o f v Hr Hget.
    rewrite (forEach_last_match_wins _ _
               : last_match_wins (integer_pass doc) _) in Hget.
    destruct (last_for f (flat_map integer_body (querySelectorAll_star doc)))
      as [u |] eqn:E; [| now left].
    injection Hget as ->. right.
    apply last_for_In in E. apply in_flat_map in E.
    destruct E as [el [_ Hin]].
    eapply integer_assignments_values; eauto.
  - vm_compute. reflexivity.
  - vm_compute. reflexivity.
Qed.

(** The ADR rule of the same loop (lines 150-153) is outside the
    [num > 0] test: two or three zeros in an ["adr"] context are stored
    as 0. *)
Remark adr_rule_is_unguarded :
  integer_assignments "00" "ADR 00" = [(adr, VInt 0)].
Proof. reflexivity. Qed.

Lemma routing_requires_positive_witness :
  exists n, VInt 4821 = VInt n /\ (0 < n)%N.
Proof.
  apply (proj1 (proj2 routing_requires_positive)
           "4821" "Kills: 4821" kills (VInt 4821)).
  - vm_compute. auto.
  - reflexivity.
Defined.

(** *** The callback as a script *)

Lemma answer_of_read (X : Type) (q : Page.Request X) (p : Page.State) :
  Page.reads_document X q ->
  snd (Page.answer q p) =
    Page.mkState (Page.document p) (Page.time p + 1) (Page.properties p) /\
  forall p', Page.document p' = Page.document p ->
             fst (Page.answer q p') = fst (Page.answer q p).
Proof.
  destruct 1; cbn; (split; [reflexivity | now intros p' ->]).
Qed.

Lemma run_ask {A X : Type} (q : Page.Request X) (k : X -> Page.Script A)
  (p : Page.State) :
  Page.run (Page.Ask q k) p =
  Page.run (k (fst (Page.answer q p))) (snd (Page.answer q p)).
Proof. cbn [Page.run]. now destruct (Page.answer q p). Qed.

(** A script that only reads the document returns what the document
    determines, whatever the clock and the properties of [window]. *)
Lemma reads_only_result {A : Type} (s : Page.Script A) :
  Page.reads_only s ->
  forall p1 p2, Page.document p1 = Page.document p2 ->
                fst (Page.run s p1) = fst (Page.run s p2).
Proof.
  induction 1 as [a | X q k Hq Hk IH]; intros p1 p2 Hd.
  - reflexivity.
  - rewrite !run_ask.
    destruct (answer_of_read X q p1 Hq) as [Hs1 Ha].
    destruct (answer_of_read X q p2 Hq) as [Hs2 _].
    rewrite (Ha p2 (eq_sym Hd)). apply IH. now rewrite Hs1, Hs2.
Qed.

(** It leaves the document and the properties as they are, and time
    passes only. *)
Lemma reads_only_frame {A : Type} (s : Page.Script A) :
  Page.reads_only s ->
  forall p, Page.document (snd (Page.run s p)) = Page.document p /\
            Page.properties (snd (Page.run s p)) = Page.properties p /\
            (Page.time p <= Page.time (snd (Page.run s p)))%Z.
Proof.
  induction 1 as [a | X q k Hq Hk IH]; intro p.
  - cbn. repeat split; auto. lia.
  - rewrite run_ask.
    destruct (answer_of_read X q p Hq) as [Hs _].
    destruct (IH (fst (Page.answer q p)) (snd (Page.answer q p)))
      as (Hd & Hp & Ht).
    assert (Hd' : Page.document (snd (Page.answer q p)) = Page.document p)
      by now rewrite Hs.
    assert (Hp' : Page.properties (snd (Page.answer q p)) =
                  Page.properties p) by now rewrite Hs.
    assert (Ht' : Page.time (snd (Page.answer q p)) = (Page.time p + 1)%Z)
      by now rewrite Hs.
    split; [congruence | split; [congruence | lia]].
Qed.

Lemma and_then_reads_only {A B : Type} (s : Page.Script A)
  (k : A -> Page.Script B) :
  Page.reads_only s -> (forall a, Page.reads_only (k a)) ->
  Page.reads_only (Page.and_then s k).
Proof.
  intros Hs Hk. induction Hs as [a | X q h Hq Hh IH]; cbn.
  - apply Hk.
  - constructor; auto.
Qed.

Lemma labels_script_reads_only (labels : list (string * Field))
  (o : StatsObject) : Page.reads_only (Page.labels_script labels o).
Proof.
  revert o. induction labels as [| entry rest IH]; intro o; cbn.
  - constructor.
  - constructor; [constructor | intro elements; apply IH].
Qed.

Lemma passes_script_reads_only (playerName : option string) :
  Page.reads_only (Page.passes_script playerName).
Proof.
  unfold Page.passes_script.
  constructor; [constructor | intro kdElements].
  constructor; [constructor | intro percentageElements].
  constructor; [constructor | intro allElements].
  apply and_then_reads_only; [apply labels_script_reads_only |].
  intro o. unfold Page.result_script.
  constructor; [constructor | intro path].
  constructor; [constructor | intro url]. constructor.
Qed.

Lemma callback_reads_only : Page.reads_only Page.callback.
Proof.
  unfold Page.callback. constructor; [constructor | intro heading].
  destruct (Page.text_of heading (fun s => s)).
  - apply passes_script_reads_only.
  - constructor; [constructor | intro title].
    apply passes_script_reads_only.
Qed.

Lemma run_and_then {A B : Type} (s : Page.Script A)
  (k : A -> Page.Script B) (p : Page.State) :
  Page.run (Page.and_then s k) p =
  Page.run (k (fst (Page.run s p))) (snd (Page.run s p)).
Proof.
  revert p. induction s as [a | X q h IH]; intro p; cbn [Page.and_then].
  - reflexivity.
  - rewrite !run_ask. apply IH.
Qed.

Lemma filter_all {A : Type} (l : list A) : filter (fun _ => true) l = l.
Proof. induction l as [| a l IH]; cbn; congruence. Qed.

Lemma label_on_document (doc : Document) (entry : string * Field) :
  Page.label_on (querySelectorAll_star doc) entry = label_body doc entry.
Proof. now destruct entry. Qed.

Lemma run_labels_script (labels : list (string * Field)) :
  forall (o : StatsObject) (p : Page.State),
    fst (Page.run (Page.labels_script labels o) p) =
    forEach labels (label_body (Page.document p)) o /\
    Page.document (snd (Page.run (Page.labels_script labels o) p)) =
    Page.document p.
Proof.
  induction labels as [| entry rest IH]; intros o p.
  - split; reflexivity.
  - cbn [Page.labels_script]. rewrite run_ask.
    cbn [Page.answer fst snd Page.selects]. rewrite filter_all.
    rewrite label_on_document.
    destruct (IH (fold_left assign (label_body (Page.document p) entry) o)
                 (Page.mkState (Page.document p) (Page.time p + 1)
                               (Page.properties p))) as [Hr Hd].
    split; [exact Hr | exact Hd].
Qed.

Lemma run_passes_script (playerName : option string) (p : Page.State) :
  fst (Page.run (Page.passes_script playerName) p) =
  {| player_info :=
       {| info_steam_id64 := last_segment (pathname (Page.document p));
          info_player_name :=
            match playerName with Some s => s | None => "Unknown" end;
          info_profile_url := href (Page.document p) |};
     stats := extractedStats (Page.document p) |}.
Proof.
  unfold Page.passes_script. rewrite !run_ask.
  cbn [Page.answer fst snd Page.selects Page.document Page.time
       Page.properties].
  rewrite !filter_all, run_and_then.
  match goal with
  | |- context [Page.run (Page.labels_script statLabels ?o) ?q] =>
      destruct (run_labels_script statLabels o q) as [Hr Hd];
      rewrite Hr;
      unfold Page.result_script; rewrite !run_ask;
      cbn [Page.answer fst snd Page.run Page.document];
      rewrite Hd
  end.
  reflexivity.
Qed.

Lemma run_callback (p : Page.State) :
  fst (Page.run Page.callback p) = evaluate_callback (Page.document p).
Proof.
  unfold Page.callback, evaluate_callback, playerName.
  rewrite run_ask. cbn [Page.answer fst snd].
  change (Page.selects Page.sel_name) with is_name_element.
  destruct (find is_name_element (querySelectorAll_star (Page.document p)))
    as [e |]; cbn [Page.text_of].
  - destruct (truthy_text (Js.trim (textContent (node e)))) as [s |].
    + now rewrite run_passes_script.
    + rewrite run_ask. cbn [Page.answer fst snd Page.document].
      change (Page.selects Page.sel_title) with (has_tag "title").
      rewrite run_passes_script. cbn [Page.document].
      now destruct (find (has_tag "title") _).
  - rewrite run_ask. cbn [Page.answer fst snd Page.document].
    change (Page.selects Page.sel_title) with (has_tag "title").
    rewrite run_passes_script. cbn [Page.document].
    now destruct (find (has_tag "title") _).
Qed.

(** C8. The callback of the service only reads the document: each of
    its requests, whatever the answers before, is a query of the
    document or a read of [window.location]; it never reads the clock
    or a property that an earlier script left on [window], and it
    leaves the page as it found it.  So its result is the function
    [evaluate_callback] of the document: two pages with the same
    document give the same result whatever their clocks and properties,
    and a second evaluation on the page the first one left, later in
    time, returns what the first returned. *)
Theorem extraction_deterministic :
  Page.reads_only Page.callback /\
  (forall p,
      fst (Page.run Page.callback p) = evaluate_callback (Page.document p)) /\
  (forall p1 p2,
      Page.document p1 = Page.document p2 ->
      fst (Page.run Page.callback p1) = fst (Page.run Page.callback p2)) /\
  (forall p,
      let first := Page.run Page.callback p in
      Page.document (snd first) = Page.document p /\
      Page.properties (snd first) = Page.properties p /\
      (Page.time p < Page.time (snd first))%Z /\
      fst (Page.run Page.callback (snd first)) = fst first).
Proof.
  split; [exact callback_reads_only |].
  split; [exact run_callback |].
  split; [intros p1 p2; apply reads_only_result, callback_reads_only |].
  intros p first. subst first.
  destruct (reads_only_frame _ callback_reads_only p) as (Hd & Hp & _).
  repeat split; auto.
  - unfold Page.callback. rewrite run_ask.
    cbn [Page.answer fst snd].
    match goal with
    | |- (_ < Page.time (snd (Page.run ?s ?q)))%Z =>
        assert (Hs : Page.reads_only s);
        [| destruct (reads_only_frame s Hs q) as (_ & _ & Ht);
           cbn [Page.time] in Ht; lia]
    end.
    destruct (Page.text_of _ _).
    + apply passes_script_reads_only.
    + constructor; [constructor | intro; apply passes_script_reads_only].
  - apply reads_only_result; [apply callback_reads_only | exact Hd].
Qed.

Lemma extraction_deterministic_witness :
  fst (Page.run Page.callback (Page.mkState disambiguation 0 [])) =
  fst (Page.run Page.callback
         (Page.mkState disambiguation 86400000 [("cache", "s1mple")])).
Proof.
  apply (proj1 (proj2 (proj2 extraction_deterministic))).
  reflexivity.
Defined.

(** The same does not hold of the stand-alone script, whose callback
    reads the clock for [scraped_at]: evaluated again on the page it
    left, it returns another result. *)
Lemma standalone_callback_reads_the_clock (playerName : option string)
  (p : Page.State) :
  let first := Page.run (Page.standalone_player_info playerName) p in
  Page.document (snd first) = Page.document p /\
  fst (Page.run (Page.standalone_player_info playerName) (snd first)) <>
  fst first.
Proof.
  cbn. split; [reflexivity |]. intro H. injection H as H. lia.
Qed.

End Extraction.

(* ------------------------------------------------------------------ *)
(** ** [processSingleSteamId]: the per-item procedure *)
(* ------------------------------------------------------------------ *)

Module Item.
Import DatabaseService ScraperManager OrchestratorSpec.

(** *** Rules of the weakest precondition *)

Lemma wp_ret {A} (a : A) Q E w : Q a w -> wp (ret a) Q E w.
Proof. exact (fun H => H). Qed.

Lemma wp_bind {A B} (m : M A) (k : A -> M B) Q E w :
  wp m (fun a w' => wp (k a) Q E w') E w -> wp (bind m k) Q E w.
Proof.
  unfold wp, bind. destruct (m w) as [[a | e] w']; exact (fun H => H).
Qed.

Lemma wp_try_catch {A} (body : M A) handler Q E w :
  wp body Q (fun e w' => wp (handler e) Q E w') w ->
  wp (try_catch body handler) Q E w.
Proof.
  unfold wp, try_catch. destruct (body w) as [[a | e] w']; exact (fun H => H).
Qed.

Lemma wp_finally {A} (body : M A) cleanup Q E w :
  wp body (fun a w' => wp cleanup (fun _ w'' => Q a w'') E w')
          (fun e w' => wp cleanup (fun _ w'' => E e w'') E w') w ->
  wp (finally body cleanup) Q E w.
Proof.
  unfold wp, finally.
  destruct (body w) as [[a | e] w'];
    destruct (cleanup w') as [[u | e'] w'']; exact (fun H => H).
Qed.

Lemma wp_mono {A} (m : M A) (Q Q' : A -> World -> Prop)
  (E E' : string -> World -> Prop) w :
  wp m Q E w ->
  (forall a w', Q a w' -> Q' a w') ->
  (forall e w', E e w' -> E' e w') ->
  wp m Q' E' w.
Proof.
  unfold wp. destruct (m w) as [[a | e] w']; auto.
Qed.

Lemma wp_execute {A} (statement : Z -> Tables -> A * Tables) Q E w :
  (forall message, next_fault w = Some message ->
     E message (mkWorld (tables w) (tl (db_faults w)) (clock w) (isRunning w)
                  (processedCount w) (successCount w) (failureCount w))) ->
  (next_fault w = None ->
     Q (fst (statement (clock w) (tables w)))
       (mkWorld (snd (statement (clock w) (tables w)))
          (tl (db_faults w)) (clock w) (isRunning w)
          (processedCount w) (successCount w) (failureCount w))) ->
  wp (execute statement) Q E w.
Proof.
  unfold wp, execute. intros HE HQ.
  destruct (next_fault w) as [message |].
  - now apply HE.
  - destruct (statement (clock w) (tables w)). now apply HQ.
Qed.

Lemma wp_update (statement : Z -> Tables -> Tables) Q E w :
  (forall message, next_fault w = Some message ->
     E message (mkWorld (tables w) (tl (db_faults w)) (clock w) (isRunning w)
                  (processedCount w) (successCount w) (failureCount w))) ->
  (next_fault w = None ->
     Q tt (mkWorld (statement (clock w) (tables w))
             (tl (db_faults w)) (clock w) (isRunning w)
             (processedCount w) (successCount w) (failureCount w))) ->
  wp (update statement) Q E w.
Proof. intros HE HQ. unfold update. now apply wp_execute. Qed.

Lemma wp_scrapePlayerStats browse steamId64 Q E w :
  let w' :=
    mkWorld (tables w) (db_faults w)
      (clock w + elapsed (browse steamId64))%Z
      (isRunning w && negb (stop_requested (browse steamId64)))
      (processedCount w) (successCount w) (failureCount w) in
  (forall message, escapes (browse steamId64) = Some message ->
                   E message w') ->
  (escapes (browse steamId64) = None ->
   Q (scrape_result (browse steamId64)) w') ->
  wp (scrapePlayerStats browse steamId64) Q E w.
Proof.
  intros w' HE HQ. unfold wp, scrapePlayerStats. fold w'.
  destruct (escapes (browse steamId64)); auto.
Qed.

(** *** Facts on the tables *)

Lemma set_status_keys steamId64 status now rows :
  map sid_steam_id64 (set_status steamId64 status now rows) =
  map sid_steam_id64 rows.
Proof.
  unfold set_status. rewrite map_map. apply map_ext.
  intro r. now destruct (sid_steam_id64 r =? steamId64).
Qed.

Lemma set_status_twice steamId64 s1 t1 s2 t2 rows :
  set_status steamId64 s2 t2 (set_status steamId64 s1 t1 rows) =
  set_status steamId64 s2 t2 rows.
Proof.
  unfold set_status. rewrite map_map. apply map_ext.
  intro r. destruct (sid_steam_id64 r =? steamId64) eqn:K; cbn.
  - now rewrite K.
  - now rewrite K.
Qed.

Lemma failure_recorded_after_error steamId64 message now t :
  failure_recorded steamId64
    (player_stats (savePlayerStatsError steamId64 message now t)).
Proof.
  cbn [player_stats savePlayerStatsError]. unfold upsert.
  destruct (existsb (fun r => ps_steam_id64 r =? steamId64) (player_stats t))
    eqn:Hex; split.
  - apply existsb_exists in Hex. destruct Hex as [r [Hin Hk]].
    eexists. split.
    + apply in_map_iff. exists r. split; [reflexivity | exact Hin].
    + rewrite Hk. cbn. now apply String.eqb_eq.
  - intros row Hin Hkey. apply in_map_iff in Hin.
    destruct Hin as [r [<- Hin]].
    destruct (ps_steam_id64 r =? steamId64) eqn:K.
    + cbn. split; [reflexivity | discriminate].
    + apply String.eqb_neq in K. contradiction.
  - eexists. split; [apply in_or_app; right; left; reflexivity | reflexivity].
  - intros row Hin Hkey. apply in_app_or in Hin.
    destruct Hin as [Hin | [<- | []]].
    + exfalso.
      assert (existsb (fun r => ps_steam_id64 r =? steamId64)
                      (player_stats t) = true) as Hc; [| congruence].
      apply existsb_exists. exists row. split; auto.
      now apply String.eqb_eq.
    + cbn. split; [reflexivity | discriminate].
Qed.

Lemma steam_ids_update steamId64 status now t :
  steam_ids (updateSteamIdStatus steamId64 status now t) =
  set_status steamId64 status now (steam_ids t).
Proof. reflexivity. Qed.

Lemma player_stats_update steamId64 status now t :
  player_stats (updateSteamIdStatus steamId64 status now t) = player_stats t.
Proof. reflexivity. Qed.

Lemma steam_ids_save steamId64 playerData now t :
  steam_ids (savePlayerStats steamId64 playerData now t) = steam_ids t.
Proof. reflexivity. Qed.

Lemma steam_ids_save_error steamId64 message now t :
  steam_ids (savePlayerStatsError steamId64 message now t) = steam_ids t.
Proof. reflexivity. Qed.

Lemma steam_ids_log_success logId steamId64 time count t :
  steam_ids (logScrapeSuccess logId steamId64 time count t) = steam_ids t.
Proof. reflexivity. Qed.

Lemma player_stats_log_success logId steamId64 time count t :
  player_stats (logScrapeSuccess logId steamId64 time count t) =
  player_stats t.
Proof. reflexivity. Qed.

Lemma steam_ids_log_failure logId steamId64 time message t :
  steam_ids (logScrapeFailure logId steamId64 time message t) = steam_ids t.
Proof. reflexivity. Qed.

Lemma player_stats_log_failure logId steamId64 time message t :
  player_stats (logScrapeFailure logId steamId64 time message t) =
  player_stats t.
Proof. reflexivity. Qed.

Lemma steam_ids_log_start steamId64 t :
  steam_ids (snd (logScrapeStart steamId64 t)) = steam_ids t.
Proof. reflexivity. Qed.

Lemma player_stats_log_start steamId64 t :
  player_stats (snd (logScrapeStart steamId64 t)) = player_stats t.
Proof. reflexivity. Qed.

Create Rewrite HintDb tables.
Create HintDb item.

Lemma scrape_logs_update steamId64 status now t :
  scrape_logs (updateSteamIdStatus steamId64 status now t) = scrape_logs t.
Proof. reflexivity. Qed.

Lemma scrape_logs_save steamId64 playerData now t :
  scrape_logs (savePlayerStats steamId64 playerData now t) = scrape_logs t.
Proof. reflexivity. Qed.

Lemma scrape_logs_save_error steamId64 message now t :
  scrape_logs (savePlayerStatsError steamId64 message now t) = scrape_logs t.
Proof. reflexivity. Qed.

#[local] Hint Rewrite steam_ids_update player_stats_update steam_ids_save
  steam_ids_save_error steam_ids_log_success player_stats_log_success
  steam_ids_log_failure player_stats_log_failure steam_ids_log_start
  player_stats_log_start set_status_twice scrape_logs_update
  scrape_logs_save scrape_logs_save_error : tables.

Lemma log_start_opens steamId64 t :
  log_open (fst (logScrapeStart steamId64 t)) steamId64
           (scrape_logs (snd (logScrapeStart steamId64 t))).
Proof.
  cbn [fst snd logScrapeStart scrape_logs]. eexists. split.
  - apply in_or_app. right. left. reflexivity.
  - split; reflexivity.
Qed.

Lemma update_log_entry logId steamId64 update logs :
  log_open logId steamId64 logs ->
  (forall r, log_steam_id64 (update r) = log_steam_id64 r) ->
  exists row,
    In (update row)
       (map (fun r =>
               if (log_id r =? logId)%nat && (log_steam_id64 r =? steamId64)
               then update r else r) logs) /\
    log_steam_id64 (update row) = steamId64.
Proof.
  intros (row & Hin & Hid & Hkey) Hupd. exists row. split.
  - apply in_map_iff. exists row. split; [| exact Hin].
    rewrite Hid, Hkey, Nat.eqb_refl, String.eqb_refl. reflexivity.
  - now rewrite Hupd.
Qed.

Lemma log_failure_logged logId steamId64 time message t :
  log_open logId steamId64 (scrape_logs t) ->
  logged steamId64 false (Some message)
         (scrape_logs (logScrapeFailure logId steamId64 time message t)).
Proof.
  intro Hopen. unfold logScrapeFailure, update_log. cbn [scrape_logs].
  edestruct (update_log_entry logId steamId64) as (row & Hin & Hkey);
    [exact Hopen | | eexists; split; [exact Hin | split; [exact Hkey |]]];
    cbn; auto.
Qed.

Lemma log_success_logged logId steamId64 time count err t :
  log_open logId steamId64 (scrape_logs t) ->
  logged steamId64 true err
         (scrape_logs (logScrapeSuccess logId steamId64 time count t)).
Proof.
  intro Hopen. unfold logScrapeSuccess, update_log. cbn [scrape_logs].
  edestruct (update_log_entry logId steamId64) as (row & Hin & Hkey);
    [exact Hopen | | eexists; split; [exact Hin | split; [exact Hkey |]]];
    cbn; auto.
Qed.

Ltac project :=
  cbn [tables db_faults clock isRunning processedCount successCount
       failureCount fst snd tl
       item_success item_steamId64 item_stats item_error] in *;
  autorewrite with tables in *.

Ltac world :=
  cbn [tables db_faults clock isRunning processedCount successCount
       failureCount fst snd tl].

Ltac conj := repeat match goal with |- _ /\ _ => split end.

#[local] Hint Resolve failure_recorded_after_error log_start_opens
  log_failure_logged log_success_logged : item.

(** *** The [catch] block *)

Lemma process_catch_spec logId steamId64 message w :
  log_open logId steamId64 (scrape_logs (tables w)) ->
  wp (process_catch logId steamId64 message)
     (fun r w' =>
        item_success r = false /\ item_steamId64 r = steamId64 /\
        item_error r = Some message /\
        processedCount w' = processedCount w /\
        isRunning w' = isRunning w /\
        (exists t, steam_ids (tables w') =
                   set_status steamId64 failed t (steam_ids (tables w))) /\
        failure_recorded steamId64 (player_stats (tables w')) /\
        logged steamId64 false (Some message) (scrape_logs (tables w')))
     (fun _ w' =>
        processedCount w' = processedCount w /\
        (player_stats (tables w') = player_stats (tables w) \/
         failure_recorded steamId64 (player_stats (tables w'))))
     w.
Proof.
  intro Hopen. unfold process_catch.
  apply wp_bind, wp_update; [intros m1 _; project; auto | intros _].
  apply wp_bind, wp_update; project;
    [intros m2 _; split; auto with item | intros _].
  apply wp_bind, wp_update; project;
    [intros m3 _; split; auto with item | intros _].
  apply wp_bind. unfold wp, incr_failureCount, ret. project.
  conj; auto with item.
  eexists; reflexivity.
Qed.

Lemma wp_incr_processedCount Q E w :
  Q tt (mkWorld (tables w) (db_faults w) (clock w) (isRunning w)
          (S (processedCount w)) (successCount w) (failureCount w)) ->
  wp incr_processedCount Q E w.
Proof. exact (fun H => H). Qed.

(** *** The whole procedure *)

Section Procedure.

Variable browse : string -> Visit.
Variable steamId64 : string.
Variable w0 : World.

(** The [catch] block entered from a world [w] that the [try] block left. *)
Lemma caught logId message w :
  log_open logId steamId64 (scrape_logs (tables w)) ->
  processedCount w = processedCount w0 ->
  (steam_ids (tables w) = steam_ids (tables w0) \/
   exists s t, steam_ids (tables w) =
               set_status steamId64 s t (steam_ids (tables w0))) ->
  (success (scrape_result (browse steamId64)) = false ->
   player_stats (tables w) = player_stats (tables w0) \/
   failure_recorded steamId64 (player_stats (tables w))) ->
  wp (process_catch logId steamId64 message)
     (fun a w' =>
        wp incr_processedCount
           (fun _ w'' => item_returns browse steamId64 w0 a w'' /\
                         no_success_written browse steamId64 w0 w'')
           (fun _ w'' => no_success_written browse steamId64 w0 w'') w')
     (fun _ w' =>
        wp incr_processedCount
           (fun _ w'' => no_success_written browse steamId64 w0 w'')
           (fun _ w'' => no_success_written browse steamId64 w0 w'') w')
     w.
Proof.
  intros Hopen Hpc Hsid Hps.
  eapply wp_mono; [apply process_catch_spec; exact Hopen | |].
  - intros r w' (Hs & Hid & He & Hpc' & _ & [t Ht] & Hrec & Hlog).
    apply wp_incr_processedCount. unfold item_returns, no_success_written.
    project. conj; auto.
    + congruence.
    + now rewrite Hs, He.
    + intro Ht'. congruence.
    + intros _. split; auto.
      destruct Hsid as [Hsid | (s & t' & Hsid)]; rewrite Hsid in Ht.
      * eauto.
      * rewrite set_status_twice in Ht. eauto.
  - intros e w' (Hpc' & Hps').
    apply wp_incr_processedCount. unfold no_success_written. project.
    intro Hfail. destruct Hps' as [Hps' | Hps']; [| now right].
    rewrite Hps'. auto.
Qed.

Ltac db_call := apply wp_bind, wp_update; world.

(** The facts to show when the [try] block has run to its [return]. *)
Ltac returned :=
  conj; auto with item; try discriminate;
  try solve [apply log_success_logged; autorewrite with tables;
             auto with item];
  try solve [apply log_failure_logged; autorewrite with tables;
             auto with item];
  try solve [intros _; conj; auto with item; eexists; reflexivity].

Lemma processSingleSteamId_spec :
  wp (processSingleSteamId browse steamId64)
     (fun r w' => item_returns browse steamId64 w0 r w' /\
                  no_success_written browse steamId64 w0 w')
     (fun _ w' => no_success_written browse steamId64 w0 w')
     w0.
Proof.
  unfold processSingleSteamId.
  apply wp_bind, wp_execute; world.
  { intros m _. unfold no_success_written. project. auto. }
  intros _. apply wp_finally, wp_try_catch. unfold process_try.
  db_call.
  { intros m _. apply caught; project; auto with item. }
  intros _. apply wp_bind, wp_scrapePlayerStats; world.
  { intros m _. apply caught; project; eauto with item. }
  intros Hesc.
  destruct (scrape_result (browse steamId64))
    as [playerData time count | message time] eqn:Hres.
  - db_call;
      [intros m _; apply caught; project; eauto with item | intros _].
    db_call;
      [intros m _; apply caught; project; eauto with item;
       rewrite Hres; intro; discriminate
      | intros _].
    db_call;
      [intros m _; apply caught; project; eauto with item;
       rewrite Hres; intro; discriminate
      | intros _].
    apply wp_bind. unfold wp at 1. unfold incr_successCount. world.
    apply wp_ret, wp_incr_processedCount. world.
    unfold item_returns, no_success_written. project.
    rewrite Hres. returned.
  - db_call;
      [intros m _; apply caught; project; eauto with item | intros _].
    db_call;
      [intros m _; apply caught; project; eauto with item | intros _].
    db_call;
      [intros m _; apply caught; project; eauto with item | intros _].
    apply wp_bind. unfold wp at 1. unfold incr_failureCount. world.
    apply wp_ret, wp_incr_processedCount. world.
    unfold item_returns, no_success_written. project.
    returned.
Qed.

Lemma wp_update_unfaulted (statement : Z -> Tables -> Tables) Q E w :
  db_faults w = [] ->
  Q tt (mkWorld (statement (clock w) (tables w)) [] (clock w) (isRunning w)
          (processedCount w) (successCount w) (failureCount w)) ->
  wp (update statement) Q E w.
Proof.
  intros Hf HQ. apply wp_update; unfold next_fault; rewrite Hf.
  - discriminate.
  - intros _. exact HQ.
Qed.

Ltac db_ok := apply wp_bind, wp_update_unfaulted; world; [reflexivity |].

Lemma processSingleSteamId_unfaulted :
  db_faults w0 = [] ->
  wp (processSingleSteamId browse steamId64)
     (item_unfaulted browse steamId64 w0) (fun _ _ => False) w0.
Proof.
  intro Hf. unfold processSingleSteamId.
  apply wp_bind, wp_execute; unfold next_fault; rewrite Hf; world;
    [discriminate | intros _].
  apply wp_finally, wp_try_catch. unfold process_try.
  db_ok.
  apply wp_bind, wp_scrapePlayerStats; world.
  - intros m Hesc. unfold process_catch.
    db_ok. db_ok. db_ok.
    apply wp_bind. unfold wp at 1. unfold incr_failureCount. world.
    apply wp_ret, wp_incr_processedCount. world.
    unfold item_unfaulted, scrape_succeeds, scrape_error. rewrite Hesc.
    project. auto.
  - intros Hesc.
    destruct (scrape_result (browse steamId64))
      as [playerData time count | message time] eqn:Hres.
    + db_ok. db_ok. db_ok.
      apply wp_bind. unfold wp at 1. unfold incr_successCount. world.
      apply wp_ret, wp_incr_processedCount. world.
      unfold item_unfaulted, scrape_succeeds, scrape_error.
      rewrite Hesc, Hres. project. auto.
    + db_ok. db_ok. db_ok.
      apply wp_bind. unfold wp at 1. unfold incr_failureCount. world.
      apply wp_ret, wp_incr_processedCount. world.
      unfold item_unfaulted, scrape_succeeds, scrape_error.
      rewrite Hesc, Hres. project. auto.
Qed.

(** One database call of the [try] block rejects, the calls of the
    [catch] block succeed. *)
Ltac db_run :=
  apply wp_bind, wp_update; unfold next_fault; world;
  [ let H := fresh in
    intros ? H; first [discriminate H | injection H as <-]
  | let H := fresh in
    intros H; first [discriminate H | clear H] ].

Ltac caught_unfaulted :=
  unfold process_catch; db_ok; db_ok; db_ok;
  apply wp_bind; unfold wp at 1; unfold incr_failureCount; world;
  apply wp_ret, wp_incr_processedCount; world;
  cbn [item_success item_error]; auto.

Lemma fault_in_try_is_caught (k : nat) (message : string) :
  (k <= 3)%nat ->
  db_faults w0 = None :: repeat None k ++ [Some message] ->
  ((0 < k)%nat -> escapes (browse steamId64) = None) ->
  wp (processSingleSteamId browse steamId64)
     (fun r _ => item_success r = false /\ item_error r = Some message)
     (fun _ _ => False) w0.
Proof.
  intros Hk Hf Hesc. unfold processSingleSteamId.
  apply wp_bind, wp_execute; unfold next_fault; rewrite Hf; world;
    [discriminate | intros _].
  apply wp_finally, wp_try_catch. unfold process_try.
  destruct k as [| [| [| [| k]]]]; [| | | | lia]; cbn [repeat app];
    [| specialize (Hesc ltac:(lia)) ..].
  - db_run. caught_unfaulted.
  - db_run. apply wp_bind, wp_scrapePlayerStats; world;
      [intros m Hm; congruence | intros _].
    destruct (scrape_result (browse steamId64));
      db_run; caught_unfaulted.
  - db_run. apply wp_bind, wp_scrapePlayerStats; world;
      [intros m Hm; congruence | intros _].
    destruct (scrape_result (browse steamId64));
      db_run; db_run; caught_unfaulted.
  - db_run. apply wp_bind, wp_scrapePlayerStats; world;
      [intros m Hm; congruence | intros _].
    destruct (scrape_result (browse steamId64));
      db_run; db_run; db_run; caught_unfaulted.
Qed.


(** A rejection in the [try] block followed by a rejection of the first
    write of the [catch] block leaves the procedure with the second
    message. *)
Lemma fault_in_catch_escapes (m1 m2 : string) rest :
  db_faults w0 = None :: Some m1 :: Some m2 :: rest ->
  wp (processSingleSteamId browse steamId64)
     (fun _ _ => False)
     (fun e w' => e = m2 /\
                  steam_ids (tables w') = steam_ids (tables w0) /\
                  player_stats (tables w') = player_stats (tables w0) /\
                  processedCount w' = S (processedCount w0))
     w0.
Proof.
  intro Hf. unfold processSingleSteamId.
  apply wp_bind, wp_execute; unfold next_fault; rewrite Hf; world;
    [discriminate | intros _].
  apply wp_finally, wp_try_catch. unfold process_try.
  db_run. unfold process_catch. db_run.
  apply wp_incr_processedCount. world. auto.
Qed.

End Procedure.

End Item.

(* ------------------------------------------------------------------ *)
(** ** [processBatch]: the loop over a batch *)
(* ------------------------------------------------------------------ *)

Module Batch.
Import DatabaseService ScraperManager OrchestratorSpec Item.

Lemma mentions_app l1 l2 k :
  mentions (l1 ++ l2) k = mentions l1 k || mentions l2 k.
Proof. unfold mentions. apply existsb_app. Qed.

Lemma settled_nil rows : settled [] rows rows.
Proof.
  unfold settled. induction rows as [| r rows IH]; constructor; auto.
  split; reflexivity.
Qed.

Lemma settled_set_status steamId64 s t rows :
  terminal s -> settled [steamId64] rows (set_status steamId64 s t rows).
Proof.
  intro Hs. unfold settled, set_status.
  induction rows as [| r rows IH]; cbn [map]; constructor; auto.
  unfold mentions. cbn [existsb]. rewrite orb_false_r.
  destruct (sid_steam_id64 r =? steamId64); cbn; auto.
Qed.

Lemma settled_trans ids1 ids2 a b c :
  settled ids1 a b -> settled ids2 b c -> settled (ids1 ++ ids2) a c.
Proof.
  unfold settled. intro Hab. revert c.
  induction Hab as [| ra rb a b [Hk Hab1] Hab IH]; intros c Hbc;
    inversion Hbc as [| rb' rc b' c' [Hk' Hbc1] Hbc']; subst; constructor.
  - split; [congruence |].
    rewrite mentions_app. rewrite Hk in Hbc1.
    destruct (mentions ids2 (sid_steam_id64 ra)).
    + now rewrite orb_true_r.
    + rewrite orb_false_r. subst rc.
      destruct (mentions ids1 (sid_steam_id64 ra)); auto.
  - now apply IH.
Qed.


Lemma wp_conj {A} (m : M A) Q1 Q2 E1 E2 w :
  wp m Q1 E1 w -> wp m Q2 E2 w ->
  wp m (fun a w' => Q1 a w' /\ Q2 a w') (fun e w' => E1 e w' /\ E2 e w') w.
Proof. unfold wp. destruct (m w) as [[a | e] w']; auto. Qed.

Lemma item_returns_settled browse steamId64 w r w' :
  item_returns browse steamId64 w r w' ->
  settled [steamId64] (steam_ids (tables w)) (steam_ids (tables w')).
Proof.
  intros (_ & _ & _ & Hok & Hko).
  destruct (item_success r).
  - destruct (Hok eq_refl) as (_ & _ & t & ->).
    apply settled_set_status. now left.
  - destruct (Hko eq_refl) as (_ & t & ->).
    apply settled_set_status. now right.
Qed.

Section Loop.

Variable browse : string -> Visit.
Variable pendingSteamIds : list SteamIdRow.

(** The pause after an item leaves everything but the clock. *)
Lemma wp_pause (cond : bool) Q E w :
  (forall ck, Q tt (mkWorld (tables w) (db_faults w) ck (isRunning w)
                      (processedCount w) (successCount w) (failureCount w))) ->
  wp (if cond then delay delay_ms else ret tt) Q E w.
Proof.
  intro H. destruct cond; unfold wp, delay, ret.
  - apply H.
  - destruct w. apply H.
Qed.


Lemma batch_loop_unfaulted remaining :
  forall results w,
    db_faults w = [] ->
    wp (batch_loop browse pendingSteamIds remaining results)
       (loop_unfaulted browse remaining results w) (fun _ _ => False) w.
Proof.
  induction remaining as [| p rest IH]; intros results w Hf.
  - apply wp_ret. unfold loop_unfaulted.
    replace (started browse (isRunning w) []) with (@nil SteamIdRow)
      by now destruct (isRunning w).
    cbn. repeat split; auto using settled_nil.
    exists []. now rewrite app_nil_r.
  - unfold wp. cbn [batch_loop].
    destruct (isRunning w) eqn:Hrun; cbn [negb].
    + change (wp (result <- processSingleSteamId browse (sid_steam_id64 p) ;;
                  (if (index_of (sid_steam_id64 p) pendingSteamIds 0 <?
                       List.length pendingSteamIds - 1)%nat
                   then delay delay_ms else ret tt) ;;
                  batch_loop browse pendingSteamIds rest (results ++ [result]))%js
                 (loop_unfaulted browse (p :: rest) results w)
                 (fun _ _ => False) w).
      apply wp_bind.
      eapply wp_mono;
        [apply wp_conj;
         [apply processSingleSteamId_spec
         | apply processSingleSteamId_unfaulted; exact Hf]
        | | intros e w' [_ []]].
      intros r w1 [[Hret _] (Hf1 & Hrun1 & Hsucc & _)].
      pose proof (item_returns_settled _ _ _ _ _ Hret) as Hset1.
      destruct Hret as (Hid & Hpc & _).
      apply wp_bind, wp_pause. intro ck.
      eapply wp_mono; [apply IH; exact Hf1 | | auto].
      intros res w' (Hf' & (items & Hres & Hids & Hsuccs) & Hpc' & Hset').
      unfold loop_unfaulted.
      cbn [tables isRunning processedCount] in *.
      rewrite Hrun. cbn [started].
      rewrite Hrun, andb_true_l in Hrun1. rewrite Hrun1 in *.
      cbn [ids map List.length]. repeat split; auto.
      * exists (r :: items). rewrite Hres, <- app_assoc. cbn.
        unfold ids in Hids. now rewrite Hid, Hids, Hsucc, Hsuccs.
      * rewrite Hpc', Hpc. lia.
      * apply (settled_trans [sid_steam_id64 p] _ _ _ _ Hset1 Hset').
    + unfold loop_unfaulted. rewrite Hrun. cbn.
      repeat split; auto using settled_nil.
      exists []. now rewrite app_nil_r.
Qed.

End Loop.

Lemma count_by_map {A B} (f : A -> bool) (g : B -> bool) l l' :
  map f l = map g l' ->
  List.length (filter f l) = List.length (filter g l').
Proof.
  revert l'. induction l as [| a l IH]; intros [| b l'] H;
    try discriminate; auto.
  cbn in *. injection H as Hab H. rewrite Hab.
  destruct (g b); cbn; auto.
Qed.


Lemma processBatch_unfaulted browse w :
  db_faults w = [] ->
  wp (processBatch browse) (batch_unfaulted browse w) (fun _ _ => False) w.
Proof.
  intro Hf. unfold processBatch. apply wp_try_catch.
  unfold batch_unfaulted.
  apply wp_bind, wp_execute; unfold next_fault; rewrite Hf; world;
    [discriminate | intros _].
  destruct (getPendingSteamIds batchSize (tables w)) as [| p pending] eqn:Hp.
  - cbn [List.length Nat.eqb]. apply wp_ret.
    replace (started browse (isRunning w) []) with (@nil SteamIdRow)
      by now destruct (isRunning w).
    cbn. repeat split; auto using settled_nil; congruence.
  - cbn [List.length Nat.eqb]. apply wp_bind.
    eapply wp_mono;
      [apply batch_loop_unfaulted; reflexivity | | intros e w' []].
    intros res w' (Hf' & (items & Hres & Hids & Hsuccs) & Hpc & Hset). world.
    apply wp_ret.
    cbn [br_completed br_processed br_successful br_failed].
    cbn [app] in Hres. subst res.
    assert (Hlen : List.length items =
                   List.length (started browse (isRunning w) (p :: pending))).
    { rewrite <- (length_map item_steamId64), Hids. apply length_map. }
    repeat split; auto.
    + f_equal. now apply count_by_map.
    + f_equal. apply count_by_map.
      rewrite <- (map_map item_success negb), Hsuccs. now rewrite map_map.
Qed.

Lemma wp_returns {A} (m : M A) Q w :
  wp m Q (fun _ _ => False) w ->
  exists a w', m w = (Returned a, w') /\ Q a w'.
Proof.
  unfold wp. destruct (m w) as [[a | e] w']; [eauto | contradiction].
Qed.



Lemma started_all browse l :
  (forall p, In p l -> stop_requested (browse (sid_steam_id64 p)) = false) ->
  started browse true l = l.
Proof.
  induction l as [| p l IH]; intro H; cbn; [reflexivity |].
  rewrite (H p) by now left. cbn. rewrite IH; auto.
  intros q Hq. apply H. now right.
Qed.

Lemma started_until_stop browse pre p post :
  (forall q, In q pre -> stop_requested (browse (sid_steam_id64 q)) = false) ->
  stop_requested (browse (sid_steam_id64 p)) = true ->
  started browse true (pre ++ p :: post) = pre ++ [p].
Proof.
  induction pre as [| q pre IH]; intros Hpre Hp; cbn.
  - rewrite Hp. cbn. now destruct post.
  - rewrite (Hpre q) by now left. cbn. rewrite IH; auto.
    intros q' Hq'. apply Hpre. now right.
Qed.

End Batch.

(* ------------------------------------------------------------------ *)
(** ** Rejected calls that the procedure captures *)
(* ------------------------------------------------------------------ *)

Module Capture.
Import DatabaseService ScraperManager OrchestratorSpec Item Batch.

Lemma upcoming_step (n : nat) (faults : list (option string))
  (a : option string) (l : list (option string)) :
  upcoming (S n) faults = a :: l ->
  match faults with f :: _ => f | [] => None end = a /\
  upcoming n (tl faults) = l.
Proof. destruct faults; cbn; intros [= -> ->]; auto. Qed.

Lemma upcoming_app (l1 l2 : list (option string)) (n : nat)
  (faults : list (option string)) :
  upcoming (List.length l1 + n) faults = l1 ++ l2 ->
  upcoming (List.length l1) faults = l1 /\
  upcoming n (skipn (List.length l1) faults) = l2.
Proof.
  revert faults. induction l1 as [| a l1 IH]; intros faults H.
  - split; [reflexivity | exact H].
  - cbn [List.length plus app] in H.
    apply upcoming_step in H as [Ha H].
    destruct (IH _ H) as [H1 H2].
    split.
    + destruct faults; cbn in *; congruence.
    + destruct faults; cbn in *; auto.
      now rewrite skipn_nil in H2.
Qed.

Lemma tl_skipn {A : Type} (n : nat) (l : list A) :
  tl (skipn n l) = skipn (S n) l.
Proof.
  revert l. induction n as [| n IH]; intros [| a l]; cbn; auto.
Qed.

(** The next call is accepted. *)
Lemma wp_execute_next {A} (statement : Z -> Tables -> A * Tables) Q E w
  n l :
  upcoming (S n) (db_faults w) = None :: l ->
  (upcoming n (tl (db_faults w)) = l ->
   Q (fst (statement (clock w) (tables w)))
     (mkWorld (snd (statement (clock w) (tables w)))
        (tl (db_faults w)) (clock w) (isRunning w)
        (processedCount w) (successCount w) (failureCount w))) ->
  wp (execute statement) Q E w.
Proof.
  intros H HQ. apply upcoming_step in H as [Hn Hl].
  apply wp_execute; unfold next_fault; rewrite Hn;
    [discriminate | intros _; now apply HQ].
Qed.

Lemma wp_update_next (statement : Z -> Tables -> Tables) Q E w n l :
  upcoming (S n) (db_faults w) = None :: l ->
  (upcoming n (tl (db_faults w)) = l ->
   Q tt (mkWorld (statement (clock w) (tables w))
           (tl (db_faults w)) (clock w) (isRunning w)
           (processedCount w) (successCount w) (failureCount w))) ->
  wp (update statement) Q E w.
Proof. intros H HQ. unfold update. eapply wp_execute_next; eauto. Qed.

(** The next call is rejected. *)
Lemma wp_update_rejected (statement : Z -> Tables -> Tables) Q E w n l
  message :
  upcoming (S n) (db_faults w) = Some message :: l ->
  (upcoming n (tl (db_faults w)) = l ->
   E message (mkWorld (tables w) (tl (db_faults w)) (clock w) (isRunning w)
                (processedCount w) (successCount w) (failureCount w))) ->
  wp (update statement) Q E w.
Proof.
  intros H HE. apply upcoming_step in H as [Hn Hl].
  apply wp_update; unfold next_fault; rewrite Hn.
  - intros m [= <-]. now apply HE.
  - discriminate.
Qed.

Ltac settle H :=
  cbn [tables db_faults clock isRunning processedCount successCount
       failureCount fst snd] in H.

Ltac accepted :=
  apply wp_bind;
  match goal with
  | H : upcoming (S _) _ = None :: _ |- _ =>
      eapply wp_update_next; [exact H |]; clear H; intro H; settle H; world
  end.

Ltac rejected :=
  apply wp_bind;
  match goal with
  | H : upcoming (S _) _ = Some _ :: _ |- _ =>
      eapply wp_update_rejected; [exact H |]; clear H; intro H; settle H;
      world
  end.

(** The end of either block: the counters, and what is left to show. *)
Ltac finished :=
  apply wp_bind; unfold wp at 1;
  unfold incr_failureCount, incr_successCount; world;
  apply wp_ret, wp_incr_processedCount; world;
  cbn [item_success item_error List.length repeat app answers];
  repeat rewrite <- tl_skipn; cbn [skipn].

Ltac in_catch := unfold process_catch; accepted; accepted; accepted; finished.

Section Item.

Variable browse : string -> Visit.
Variable steamId64 : string.
Variable w0 : World.

(** With such a treatment the procedure returns: what it returns, the
    calls it has made, and the flag. *)
Lemma processSingleSteamId_captures (c : Treatment) :
  possible browse steamId64 c ->
  upcoming (List.length (answers c)) (db_faults w0) = answers c ->
  wp (processSingleSteamId browse steamId64)
     (fun r w' =>
        db_faults w' = skipn (List.length (answers c)) (db_faults w0) /\
        item_success r = item_ok browse steamId64 c /\
        item_error r = item_message browse steamId64 c /\
        isRunning w' =
          isRunning w0 &&
          negb (stop_requested (browse steamId64) && scrapes c))
     (fun _ _ => False) w0.
Proof.
  intros Hc H. unfold processSingleSteamId.
  destruct c as [| k message].
  - cbn [answers repeat List.length] in H.
    apply wp_bind. eapply wp_execute_next; [exact H |].
    clear H; intro H; world.
    apply wp_finally, wp_try_catch. unfold process_try.
    accepted.
    apply wp_bind, wp_scrapePlayerStats; world.
    + intros m Hesc. in_catch.
      unfold item_ok, item_message, scrape_succeeds, scrape_error.
      rewrite Hesc. cbn [scrapes]. now rewrite andb_true_r.
    + intro Hesc.
      destruct (scrape_result (browse steamId64))
        as [playerData time count | m time] eqn:Hres;
        accepted; accepted; accepted; finished;
        unfold item_ok, item_message, scrape_succeeds, scrape_error;
        rewrite Hesc, Hres; cbn [scrapes success error];
        now rewrite andb_true_r.
  - destruct Hc as [Hk Hesc].
    destruct k as [| [| [| [| k]]]]; [| | | | lia];
      cbn [answers repeat List.length app] in H;
      (apply wp_bind; eapply wp_execute_next; [exact H |];
       clear H; intro H; world;
       apply wp_finally, wp_try_catch; unfold process_try).
    + rejected. in_catch.
      cbn [item_ok item_message scrapes].
      now rewrite andb_false_r, andb_true_r.
    + specialize (Hesc ltac:(lia)). accepted.
      apply wp_bind, wp_scrapePlayerStats; world;
        [intros m Hm; congruence | intros _].
      destruct (scrape_result (browse steamId64));
        rejected; in_catch; cbn [item_ok item_message scrapes];
        now rewrite andb_true_r.
    + specialize (Hesc ltac:(lia)). accepted.
      apply wp_bind, wp_scrapePlayerStats; world;
        [intros m Hm; congruence | intros _].
      destruct (scrape_result (browse steamId64));
        accepted; rejected; in_catch; cbn [item_ok item_message scrapes];
        now rewrite andb_true_r.
    + specialize (Hesc ltac:(lia)). accepted.
      apply wp_bind, wp_scrapePlayerStats; world;
        [intros m Hm; congruence | intros _].
      destruct (scrape_result (browse steamId64));
        accepted; accepted; rejected; in_catch;
        cbn [item_ok item_message scrapes];
        now rewrite andb_true_r.
Qed.





End Item.

Section Loop.

Variable browse : string -> Visit.
Variable pendingSteamIds : list SteamIdRow.

Lemma batch_loop_running p rest results Q E w :
  isRunning w = true ->
  wp (result <- processSingleSteamId browse (sid_steam_id64 p) ;;
      (if (index_of (sid_steam_id64 p) pendingSteamIds 0 <?
           List.length pendingSteamIds - 1)%nat
       then delay delay_ms else ret tt) ;;
      batch_loop browse pendingSteamIds rest (results ++ [result]))%js
     Q E w ->
  wp (batch_loop browse pendingSteamIds (p :: rest) results) Q E w.
Proof. unfold wp. cbn [batch_loop]. now intros ->. Qed.

Lemma batch_loop_stopped p rest results
  (Q : list ItemResult -> World -> Prop) E w :
  isRunning w = false ->
  Q results w ->
  wp (batch_loop browse pendingSteamIds (p :: rest) results) Q E w.
Proof. unfold wp. cbn [batch_loop]. now intros ->. Qed.

Lemma batch_loop_captures remaining :
  forall plan results w,
    List.length plan = List.length remaining ->
    Forall (fun pc => possible browse (sid_steam_id64 (fst pc)) (snd pc))
           (started_with browse (isRunning w) remaining plan) ->
    upcoming
      (List.length (calls (started_with browse (isRunning w) remaining plan)))
      (db_faults w) =
    calls (started_with browse (isRunning w) remaining plan) ->
    wp (batch_loop browse pendingSteamIds remaining results)
       (fun res w' =>
          let run := started_with browse (isRunning w) remaining plan in
          db_faults w' = skipn (List.length (calls run)) (db_faults w) /\
          (exists items,
              res = results ++ items /\
              map item_steamId64 items = ids (map fst run) /\
              map item_success items = verdicts browse run) /\
          processedCount w' = (processedCount w + List.length run)%nat /\
          settled (ids (map fst run))
                  (steam_ids (tables w)) (steam_ids (tables w')) /\
          isRunning w' = isRunning w && still_running browse run)
       (fun _ _ => False) w.
Proof.
  induction remaining as [| p rest IH]; intros plan results w Hlen Hposs Hup.
  - apply wp_ret. cbn. repeat split; auto using settled_nil.
    + exists []. now rewrite app_nil_r.
    + now rewrite andb_true_r.
  - destruct plan as [| c plan]; [discriminate Hlen |].
    injection Hlen as Hlen.
    destruct (isRunning w) eqn:Hrun.
    + cbn [started_with] in *. cbn [calls flat_map snd fst] in Hup.
      fold (calls (started_with browse
                     (negb (stop_requested (browse (sid_steam_id64 p))
                            && scrapes c)) rest plan)) in Hup.
      rewrite length_app in Hup.
      apply upcoming_app in Hup as [Hup1 Hup2].
      apply Forall_cons_iff in Hposs as [Hc Hposs]. cbn [fst snd] in Hc.
      apply batch_loop_running; [exact Hrun |]. apply wp_bind.
      eapply wp_mono;
        [apply wp_conj;
         [apply processSingleSteamId_spec
         | apply (processSingleSteamId_captures browse (sid_steam_id64 p)
                    w c Hc Hup1)]
        | | intros e w' [_ []]].
      intros r w1 [[Hret _] (Hf1 & Hok & _ & Hrun1)].
      pose proof (item_returns_settled _ _ _ _ _ Hret) as Hset1.
      destruct Hret as (Hid & Hpc & _).
      rewrite Hrun, andb_true_l in Hrun1.
      apply wp_bind, wp_pause. intro ck.
      eapply wp_mono; [apply (IH plan) | | auto]; world;
        [exact Hlen | now rewrite Hrun1 | now rewrite Hrun1, Hf1 |].
      intros res w' (Hf' & (items & Hres & Hids & Hoks) & Hpc' & Hset' & Hrun').
      cbv zeta in *.
      cbn [tables db_faults isRunning processedCount] in *.
      rewrite Hrun1 in *.
      cbn [calls flat_map map fst snd ids List.length still_running forallb
             verdicts].
      fold (calls (started_with browse
                     (negb (stop_requested (browse (sid_steam_id64 p))
                            && scrapes c)) rest plan)).
      fold (still_running browse
              (started_with browse
                 (negb (stop_requested (browse (sid_steam_id64 p))
                        && scrapes c)) rest plan)).
      repeat split.
      * rewrite Hf', Hf1, skipn_skipn, length_app. f_equal. lia.
      * exists (r :: items). rewrite Hres, <- app_assoc. cbn.
        unfold ids in Hids. now rewrite Hid, Hids, Hok, Hoks.
      * rewrite Hpc', Hpc. lia.
      * apply (settled_trans [sid_steam_id64 p] _ _ _ _ Hset1 Hset').
      * exact Hrun'.
    + apply batch_loop_stopped; [exact Hrun |].
      cbn. repeat split; auto using settled_nil.
      exists []. now rewrite app_nil_r.
Qed.


End Loop.

(** With such a plan the batch returns: what it returns and leaves. *)
Lemma processBatch_captures browse w plan :
  captured browse w plan ->
  wp (processBatch browse)
     (fun r w' =>
        let pending := getPendingSteamIds batchSize (tables w) in
        let run := started_with browse (isRunning w) pending plan in
        br_processed r = List.length run /\
        (pending <> [] ->
         br_completed r = false /\
         br_successful r = Some (tally true (verdicts browse run)) /\
         br_failed r = Some (tally false (verdicts browse run))) /\
        processedCount w' = (processedCount w + List.length run)%nat /\
        settled (ids (map fst run))
                (steam_ids (tables w)) (steam_ids (tables w')) /\
        isRunning w' = isRunning w && still_running browse run)
     (fun _ _ => False) w.
Proof.
  intros (Hlen & Hposs & Hup). unfold processBatch. apply wp_try_catch.
  apply wp_bind. eapply wp_execute_next; [exact Hup |].
  intro Hup'. world.
  destruct (getPendingSteamIds batchSize (tables w)) as [| p pending] eqn:Hp.
  - cbn [List.length Nat.eqb]. apply wp_ret.
    cbn [started_with]. cbn. repeat split; auto using settled_nil;
      try congruence. now rewrite andb_true_r.
  - cbn [List.length Nat.eqb]. apply wp_bind.
    eapply wp_mono;
      [apply (batch_loop_captures browse (p :: pending) (p :: pending) plan)
      | | intros e w' []]; world; auto.
    intros res w' (_ & (items & Hres & Hids & Hoks) & Hpc & Hset & Hrun).
    cbv zeta in *. cbn [tables isRunning processedCount] in *.
    apply wp_ret.
    cbn [br_completed br_processed br_successful br_failed].
    cbn [app] in Hres. subst res.
    assert (Hn : List.length items =
                 List.length (started_with browse (isRunning w)
                                (p :: pending) plan)).
    { rewrite <- (length_map item_success), Hoks. apply length_map. }
    repeat split; auto.
    + f_equal. rewrite <- Hoks. clear.
      induction items as [| i items IH]; cbn; auto.
      destruct (item_success i); cbn; now rewrite IH.
    + f_equal. rewrite <- Hoks. clear.
      induction items as [| i items IH]; cbn; auto.
      destruct (item_success i); cbn; now rewrite IH.
Qed.

(** Without a stop every selected row is started. *)
Lemma started_with_all browse (l : list SteamIdRow) :
  forall plan,
    List.length plan = List.length l ->
    (forall p, In p l -> stop_requested (browse (sid_steam_id64 p)) = false) ->
    started_with browse true l plan = combine l plan /\
    map fst (combine l plan) = l /\
    still_running browse (combine l plan) = true.
Proof.
  induction l as [| p rest IH]; intros [| c plan] Hlen Hstop;
    try discriminate Hlen; [repeat split.. |].
  injection Hlen as Hlen. cbn [started_with combine map fst still_running forallb].
  fold (still_running browse (combine rest plan)).
  rewrite (Hstop p (or_introl eq_refl)). cbn [andb negb].
  destruct (IH plan Hlen (fun q H => Hstop q (or_intror H)))
    as (-> & -> & ->).
  repeat split.
Qed.


(** A plan that accepts every call is what a database without faults
    does. *)
Lemma upcoming_unfaulted (n : nat) : upcoming n [] = repeat None n.
Proof. induction n as [| n IH]; cbn; now rewrite ?IH. Qed.


End Capture.
(* ------------------------------------------------------------------ *)
(** ** The orchestrator: zero fields, failures, cancellation *)
(* ------------------------------------------------------------------ *)

Module Orchestrator.
Import DatabaseService ScraperManager OrchestratorSpec Item Batch Capture.
Import SelectionOrder Scenario.

Lemma zero_fields_fail (v : Visit) (doc : Document) :
  outcome v = Snapshot doc -> keys (extractedStats doc) = [] ->
  scrape_result v = Failed no_stats_message (elapsed v).
Proof.
  intros Ho Hk. unfold scrape_result. rewrite Ho.
  cbn [stats evaluate_callback]. now rewrite Hk.
Qed.

(** C3. When the page served for an identifier is a document in which
    the passes classify no field, the scrape hands back a failure with
    the no-data message; whatever the database does, the procedure either
    writes nothing to [player_stats] or leaves a failure record for the
    identifier, and when it returns, it returns a failure, the record of
    the identifier has [scrape_success = FALSE] and an error message, and
    its status is ['failed']; when no database call rejects it does
    return. *)
Theorem zero_fields_never_success (browse : string -> Visit)
  (steamId64 : string) (doc : Document) (w : World) :
  outcome (browse steamId64) = Snapshot doc ->
  keys (extractedStats doc) = [] ->
  scrape_result (browse steamId64) =
    Failed no_stats_message (elapsed (browse steamId64)) /\
  (forall o w',
      processSingleSteamId browse steamId64 w = (o, w') ->
      (player_stats (tables w') = player_stats (tables w) \/
       failure_recorded steamId64 (player_stats (tables w'))) /\
      (forall r, o = Returned r ->
         item_success r = false /\
         failure_recorded steamId64 (player_stats (tables w')) /\
         exists t, steam_ids (tables w') =
                   set_status steamId64 failed t (steam_ids (tables w)))) /\
  (db_faults w = [] ->
   exists r w',
     processSingleSteamId browse steamId64 w = (Returned r, w') /\
     item_success r = false /\
     (escapes (browse steamId64) = None ->
      item_error r = Some no_stats_message)).
Proof.
  intros Ho Hk.
  pose proof (zero_fields_fail _ _ Ho Hk) as Hres.
  assert (Hfail : success (scrape_result (browse steamId64)) = false)
    by now rewrite Hres.
  split; [exact Hres | split].
  - intros o w' Hrun.
    pose proof (processSingleSteamId_spec browse steamId64 w) as Hspec.
    unfold wp in Hspec. rewrite Hrun in Hspec.
    destruct o as [r | e].
    + destruct Hspec as [(_ & _ & _ & Hok & Hko) Hnsw].
      split; [now apply Hnsw |].
      intros r' [= <-].
      destruct (item_success r) eqn:Hs.
      * destruct (Hok eq_refl) as [Hc _]. congruence.
      * destruct (Hko eq_refl) as [Hrec Hst]. auto.
    + split; [now apply Hspec | discriminate].
  - intro Hf.
    destruct (wp_returns _ _ _
                (processSingleSteamId_unfaulted browse steamId64 w Hf))
      as (r & w' & Hrun & _ & _ & Hs & He).
    exists r, w'. split; [exact Hrun |].
    unfold scrape_succeeds in Hs. unfold scrape_error in He.
    rewrite Hres in *. split.
    + rewrite Hs. now destruct (escapes (browse steamId64)).
    + intro Hesc. now rewrite Hesc in He.
Qed.

Lemma zero_fields_never_success_witness :
  exists r w',
    processSingleSteamId (served "") (sid_steam_id64 row_B) (running [])
      = (Returned r, w') /\
    item_success r = false /\
    (escapes (served "" (sid_steam_id64 row_B)) = None ->
     item_error r = Some no_stats_message).
Proof.
  apply (zero_fields_never_success (served "") (sid_steam_id64 row_B)
           empty_page (running [])); reflexivity.
Defined.

(** C4, as the code has it.  Take an item whose [logScrapeStart] call
    the database accepts, and whose writes of the [catch] block it
    accepts when they are reached.  Whatever fails (the rendering, no
    data, an exception that escapes the scraper, a database call of the
    [try] block that rejects), the procedure returns: the counter of
    processed items goes up by one, the log entry of the attempt is in
    its terminal phase with the message, the row of the identifier is
    ['completed'] or ['failed'], and a failure leaves a failure record.
    A batch of such items whose [SELECT] is accepted and during which
    nobody stops the run returns having processed every selected
    identifier: [processed] is their number, their rows are settled and
    [successful] and [failed] count their results. *)
Theorem scrape_failures_are_captured (browse : string -> Visit) :
  (forall steamId64 w c,
      possible browse steamId64 c ->
      upcoming (List.length (answers c)) (db_faults w) = answers c ->
      exists r w',
        processSingleSteamId browse steamId64 w = (Returned r, w') /\
        item_returns browse steamId64 w r w' /\
        item_success r = item_ok browse steamId64 c /\
        item_error r = item_message browse steamId64 c) /\
  (forall w plan,
      let pending := getPendingSteamIds batchSize (tables w) in
      captured browse w plan ->
      isRunning w = true ->
      (forall p, In p pending ->
                 stop_requested (browse (sid_steam_id64 p)) = false) ->
      exists r w',
        processBatch browse w = (Returned r, w') /\
        br_processed r = List.length pending /\
        processedCount w' = (processedCount w + List.length pending)%nat /\
        settled (ids pending) (steam_ids (tables w)) (steam_ids (tables w')) /\
        (pending <> [] ->
         br_successful r =
           Some (tally true (verdicts browse (combine pending plan))) /\
         br_failed r =
           Some (tally false (verdicts browse (combine pending plan))))).
Proof.
  split.
  - intros steamId64 w c Hc Hup.
    apply wp_returns.
    eapply wp_mono;
      [apply wp_conj;
       [apply processSingleSteamId_spec
       | apply (processSingleSteamId_captures browse steamId64 w c Hc Hup)]
      | | intros e w' [_ []]].
    intros r w' [[Hret _] (_ & Hok & Hmsg & _)]. auto.
  - intros w plan pending Hcap Hrun Hstop.
    destruct (wp_returns _ _ _ (processBatch_captures browse w plan Hcap))
      as (r & w' & Hbatch & Hn & Hne & Hpc & Hset & _).
    cbv zeta in Hn, Hne, Hpc, Hset. fold pending in Hn, Hne, Hpc, Hset.
    destruct Hcap as (Hlen & _). fold pending in Hlen.
    destruct (started_with_all browse pending plan Hlen Hstop)
      as (Hall & Hfst & _).
    rewrite Hrun, Hall in *. rewrite Hfst in Hset.
    assert (Hl : List.length (combine pending plan) = List.length pending)
      by (rewrite <- Hfst at 2; now rewrite length_map).
    rewrite Hl in *.
    exists r, w'. repeat split; auto; now apply Hne.
Qed.

Lemma scrape_failures_are_captured_witness :
  exists r w',
    processBatch (served "")
      (running [None; None; None; Some "read ECONNRESET"])
      = (Returned r, w') /\
    map sid_status (steam_ids (tables w')) = [completed; failed; failed] /\
    br_processed r = 3%nat /\
    processedCount w' = 3%nat /\
    br_successful r = Some 1%nat /\
    br_failed r = Some 2%nat.
Proof.
  destruct (proj2 (scrape_failures_are_captured (served ""))
              (running [None; None; None; Some "read ECONNRESET"])
              [rejects_in_try 1 "read ECONNRESET"; accepts; accepts])
    as (r & w' & Hrun & Hn & Hpc & _ & Hne).
  - split; [reflexivity | split; [| reflexivity]].
    repeat constructor.
  - reflexivity.
  - intros p Hp. vm_compute in Hp.
    destruct Hp as [<- | [<- | [<- | []]]]; reflexivity.
  - destruct Hne as [Hs Hf]; [discriminate |].
    exists r, w'. split; [exact Hrun |].
    split; [| repeat split; assumption].
    vm_compute in Hrun. now injection Hrun as _ <-.
Defined.

(** C4, as stated, fails.  With the database gone while the second of
    three identifiers is processed, the exception leaves the procedure
    and the batch: the second identifier stays ['processing'], the third
    is never started, and two items are counted.  When [logScrapeStart]
    itself rejects, the procedure throws and counts nothing. *)
Lemma persistence_fault_escapes :
  fst (processBatch (served "") (running outage)) = Thrown "read ECONNRESET" /\
  map sid_status
      (steam_ids (tables (snd (processBatch (served "") (running outage)))))
    = [pending; processing; completed] /\
  processedCount (snd (processBatch (served "") (running outage))) = 2%nat /\
  fst (processSingleSteamId (served "") (sid_steam_id64 row_B)
         (running [Some "read ECONNRESET"])) = Thrown "read ECONNRESET" /\
  processedCount
    (snd (processSingleSteamId (served "") (sid_steam_id64 row_B)
            (running [Some "read ECONNRESET"]))) = 0%nat.
Proof. vm_compute. repeat split; reflexivity. Qed.




End Orchestrator.

(* ------------------------------------------------------------------ *)
(** ** Rejections that leave the batch *)
(* ------------------------------------------------------------------ *)

Module Rethrow.
Import DatabaseService ScraperManager OrchestratorSpec Item Batch Capture.
Import SelectionOrder Scenario.



End Rethrow.

(* ------------------------------------------------------------------ *)
(** ** The shape of the extraction result *)
(* ------------------------------------------------------------------ *)

Module Shape.
Import ExtractionSpec ResultShape Extraction.

Lemma extractedStats_fold (doc : Document) :
  extractedStats doc = fold_left assign (matches doc) [].
Proof.
  unfold extractedStats, label_pass, integer_pass, percentage_pass,
    decimal_pass, matches.
  rewrite !forEach_flat_map, !fold_left_app. reflexivity.
Qed.

Lemma extracted_is_a_match (doc : Document) (f : Field) (v : Value) :
  get (extractedStats doc) f = Some v -> In (f, v) (matches doc).
Proof.
  rewrite extractedStats_fold, get_fold_assign. cbn [get].
  destruct (last_for f (matches doc)) as [u |] eqn:E; [| discriminate].
  intros [= ->]. now apply last_for_In.
Qed.

Lemma kd_body_fits (el : Elem) (f : Field) (v : Value) :
  In (f, v) (kd_body el) -> fits f v.
Proof.
  unfold kd_body.
  destruct (parent_of_closest "svg" (node el :: ancestors el)); [| intros []].
  destruct (Js.is_decimal_text _); [| intros []].
  destruct (first_descendant _); [| intros []].
  repeat match goal with
    | |- In _ (if ?c then _ else _) -> _ => destruct c
    end;
    simpl; try tauto; intros [H | []]; inversion H; exact I.
Qed.

Lemma percentage_body_fits (el : Elem) (f : Field) (v : Value) :
  In (f, v) (percentage_body el) -> fits f v.
Proof.
  unfold percentage_body.
  destruct (Js.is_percent_text (getText (Some (node el)))) eqn:Hp; [| intros []].
  repeat match goal with
    | |- In _ (if ?c then _ else _) -> _ => destruct c
    end;
    simpl; try tauto; intros [H | []]; inversion H; exact Hp.
Qed.

Lemma routed_is_integer (f : Field) : routed f = true -> kind_of f = KInteger.
Proof. destruct f; simpl; congruence. Qed.

Lemma integer_body_fits (el : Elem) (f : Field) (v : Value) :
  In (f, v) (integer_body el) -> fits f v.
Proof.
  unfold integer_body, integer_assignments. intro Hin.
  apply in_app_or in Hin. destruct Hin as [Hin | Hin].
  - destruct (Js.is_integer_text _); [| destruct Hin].
    destruct (0 <? _)%N; [| destruct Hin].
    apply route_integer_values in Hin. destruct Hin as [-> Hr].
    unfold fits. now rewrite (routed_is_integer _ Hr).
  - destruct (_ && _); [| destruct Hin].
    destruct Hin as [Hin | []]. inversion Hin. exact I.
Qed.

Lemma label_body_fits (doc : Document) (entry : string * Field) (f : Field)
  (v : Value) :
  In entry statLabels -> In (f, v) (label_body doc entry) -> fits f v.
Proof.
  intros Hentry. unfold label_body. destruct entry as [label field].
  destruct (find _ _) as [labelElement |]; [| intros []].
  destruct (parentElement labelElement); [| intros []].
  destruct (scan_window _ _); [| intros []].
  intros [H | []]. inversion H; subst.
  simpl in Hentry.
  repeat (destruct Hentry as [Hentry | Hentry];
          [inversion Hentry; exact I |]).
  destruct Hentry.
Qed.

Lemma match_fits (doc : Document) (f : Field) (v : Value) :
  In (f, v) (matches doc) -> fits f v.
Proof.
  unfold matches, decimal_matches, percentage_matches, integer_matches,
    label_matches.
  rewrite !in_app_iff, !in_flat_map.
  intros [(el & _ & H) | [(el & _ & H) | [(el & _ & H) | (e & He & H)]]].
  - eapply kd_body_fits; eauto.
  - eapply percentage_body_fits; eauto.
  - eapply integer_body_fits; eauto.
  - eapply label_body_fits; eauto.
Qed.

(** Every value of the returned object has the type of its field:
    [kd_ratio] and [hltv_rating] hold a [parseFloat] number, the four
    percentage fields a text that matches [/^\d+%$/], all other fields
    a [parseInt] number. *)
Theorem extracted_values_are_typed (doc : Document) (f : Field) (v : Value) :
  get (stats (evaluate_callback doc)) f = Some v -> fits f v.
Proof.
  cbn [stats evaluate_callback]. intro H.
  eapply match_fits, extracted_is_a_match, H.
Qed.

Lemma extracted_values_are_typed_witness :
  fits win_rate (VText "52%").
Proof.
  apply (extracted_values_are_typed
           (page [labelled "Win rate " "52%"]) win_rate (VText "52%")).
  reflexivity.
Defined.

Lemma keys_set_In (o : StatsObject) (f x : Field) (v : Value) :
  In x (keys (set o f v)) <-> x = f \/ In x (keys o).
Proof.
  unfold keys. induction o as [| [g w] o IH]; cbn.
  - intuition.
  - destruct (Field_eq_dec f g) as [-> | Hfg]; cbn.
    + intuition.
    + rewrite IH. intuition.
Qed.

Lemma keys_set_NoDup (o : StatsObject) (f : Field) (v : Value) :
  NoDup (keys o) -> NoDup (keys (set o f v)).
Proof.
  unfold keys. induction o as [| [g w] o IH]; cbn; intro H.
  - repeat constructor. intros [].
  - inversion H as [| ? ? Hout Hnd]; subst.
    destruct (Field_eq_dec f g) as [-> | Hfg]; cbn.
    + now constructor.
    + constructor; [| now apply IH].
      intro Hin. apply (keys_set_In o f g v) in Hin.
      destruct Hin as [-> | Hin]; [congruence | contradiction].
Qed.

Lemma keys_fold_NoDup (found : list Assignment) (o : StatsObject) :
  NoDup (keys o) -> NoDup (keys (fold_left assign found o)).
Proof.
  revert o. induction found as [| a found IH]; intros o H; cbn; auto.
  apply IH. now apply keys_set_NoDup.
Qed.

Lemma every_field_listed (f : Field) : In f all_fields.
Proof. destruct f; simpl; auto 20. Qed.

Lemma keys_In_get (o : StatsObject) (f : Field) :
  In f (keys o) <-> get o f <> None.
Proof.
  unfold keys. induction o as [| [g w] o IH]; cbn.
  - split; [intros [] | congruence].
  - destruct (Field_eq_dec f g) as [-> | Hfg].
    + split; [discriminate | auto].
    + rewrite <- IH. split; [intros [H | H]; [congruence | auto] | auto].
Qed.

(** The returned object has each key once and at most the seventeen
    keys of the catalog; so the count that [scrapePlayerStats] reports
    (and [logScrapeSuccess] stores) is between 1 and 17 on a success and
    0 on a failure, and it is the number of fields that have a value. *)
Theorem stats_count_bounds (v : Visit) :
  (statsCount (scrape_result v) <= 17)%nat /\
  (forall d t n, scrape_result v = Scraped d t n ->
     (1 <= n)%nat /\ n = List.length (keys (data_stats d)) /\
     NoDup (keys (data_stats d)) /\
     (forall f, In f (keys (data_stats d)) <-> get (data_stats d) f <> None)) /\
  (success (scrape_result v) = false -> statsCount (scrape_result v) = 0%nat).
Proof.
  assert (Hnd : forall doc, NoDup (keys (stats (evaluate_callback doc)))).
  { intro doc. cbn [stats evaluate_callback]. rewrite extractedStats_fold.
    apply keys_fold_NoDup. constructor. }
  assert (Hle : forall doc,
             (List.length (keys (stats (evaluate_callback doc))) <= 17)%nat).
  { intro doc. change 17%nat with (List.length all_fields).
    apply NoDup_incl_length; [apply Hnd |].
    intros f _. apply every_field_listed. }
  unfold scrape_result.
  destruct (outcome v) as [m | st txt | | doc]; cbn [statsCount success];
    try (split; [lia | split; [discriminate | reflexivity]]).
  destruct (Nat.eqb_spec
              (List.length (keys (stats (evaluate_callback doc)))) 0)
    as [Hz | Hnz]; cbn [statsCount success].
  - split; [lia | split; [discriminate | reflexivity]].
  - split; [apply Hle | split; [| discriminate]].
    intros d t n [= <- <- <-]. cbn [data_stats stats evaluate_callback] in *.
    split; [lia | split; [reflexivity | split; [apply Hnd |]]].
    intro f. apply keys_In_get.
Qed.

Lemma stats_count_bounds_witness :
  statsCount (scrape_result (mkVisit NoStatsElements 30000 None false))
    = 0%nat.
Proof.
  apply (stats_count_bounds (mkVisit NoStatsElements 30000 None false)).
  reflexivity.
Defined.

Lemma route_integer_guards (context : string) (num : N) (f : Field)
  (v : Value) :
  In (f, v) (route_integer context num) ->
  match f with
  | headshots => (num < 50000)%N
  | matches_won | matches_lost => (num < 10000)%N
  | rounds_played => (1000 < num)%N
  | total_damage => (100000 < num)%N
  | _ => True
  end.
Proof.
  unfold route_integer.
  repeat match goal with
    | |- In _ (if ?c then _ else _) -> _ => destruct c eqn:?
    end;
    simpl; try tauto; intros [H | []]; inversion H; subst; auto;
    repeat match goal with
      | H : _ && _ = true |- _ => apply andb_prop in H; destruct H
      end;
    try (now apply N.ltb_lt).
Qed.

Lemma integer_assignments_guards (text parentText : string) (f : Field)
  (v : Value) :
  In (f, v) (integer_assignments text parentText) -> f <> adr ->
  exists n, v = VInt n /\ within_guard f n.
Proof.
  unfold integer_assignments. intros Hin Hf.
  apply in_app_or in Hin. destruct Hin as [Hin | Hin].
  - destruct (Js.is_integer_text text); [| destruct Hin].
    destruct (N.ltb_spec 0 (Js.parseInt text)) as [Hpos | _]; [| destruct Hin].
    pose proof (route_integer_guards _ _ _ _ Hin) as Hg.
    apply route_integer_values in Hin. destruct Hin as [-> _].
    exists (Js.parseInt text). split; [reflexivity | split; assumption].
  - destruct (_ && _); [| destruct Hin].
    destruct Hin as [Hin | []]. inversion Hin; subst. congruence.
Qed.

(** Whatever the keyword routing of the integer pass writes respects
    its guards: the value is positive, below 50000 for [headshots],
    below 10000 for [matches_won] and [matches_lost], above 1000 for
    [rounds_played] and above 100000 for [total_damage]; so after the
    pass a field other than [adr] holds what it held before or such a
    value. *)
Theorem integer_pass_respects_guards (doc : Document) (o : StatsObject)
  (f : Field) (v : Value) :
  f <> adr ->
  get (integer_pass doc o) f = Some v ->
  get o f = Some v \/ exists n, v = VInt n /\ within_guard f n.
Proof.
  intros Hf Hget.
  rewrite (forEach_last_match_wins _ _
             : last_match_wins (integer_pass doc) _) in Hget.
  destruct (last_for f (flat_map integer_body (querySelectorAll_star doc)))
    as [u |] eqn:E; [| now left].
  injection Hget as ->. right.
  apply last_for_In in E. apply in_flat_map in E.
  destruct E as [el [_ Hin]].
  eapply integer_assignments_guards; eauto.
Qed.

Lemma integer_pass_respects_guards_witness :
  get [] rounds_played = Some (VInt 18452) \/
  exists n, VInt 18452 = VInt n /\ within_guard rounds_played n.
Proof.
  apply (integer_pass_respects_guards
           (page [labelled "Rounds " "18452"]) [] rounds_played (VInt 18452)).
  - discriminate.
  - reflexivity.
Defined.

Lemma digit_value_le (c : ascii) :
  Js.is_digit c = true -> (Js.digit_value c <= 9)%N.
Proof.
  unfold Js.is_digit, Js.digit_value. intro H.
  apply andb_prop in H. destruct H as [H1 H2].
  apply N.leb_le in H1, H2. lia.
Qed.

Lemma parse_digits_bound (s : string) (acc : N) :
  Js.all_digits s = true ->
  (Js.parse_digits acc s < (acc + 1) * 10 ^ N.of_nat (String.length s))%N.
Proof.
  revert acc. induction s as [| c s IH]; intros acc H; cbn [Js.parse_digits].
  - cbn. lia.
  - cbn [Js.all_digits] in H. apply andb_prop in H. destruct H as [Hc Hs].
    specialize (IH (acc * 10 + Js.digit_value c)%N Hs).
    pose proof (digit_value_le c Hc) as Hd.
    cbn [String.length]. rewrite Nat2N.inj_succ, N.pow_succ_r'.
    eapply N.lt_le_trans; [exact IH |].
    set (p := (10 ^ N.of_nat (String.length s))%N). nia.
Qed.

Lemma two_or_three_digits_below_1000 (text : string) :
  Js.is_2_3_digits text = true -> (Js.parseInt text <= 999)%N.
Proof.
  unfold Js.is_2_3_digits, Js.parseInt. intro H.
  apply andb_prop in H. destruct H as [Hd Hl].
  pose proof (parse_digits_bound text 0 Hd) as Hb.
  apply orb_prop in Hl. destruct Hl as [Hl | Hl];
    apply Nat.eqb_eq in Hl; rewrite Hl in Hb; cbn in Hb; lia.
Qed.

Lemma adr_comes_from_the_adr_rule (doc : Document) (v : Value) :
  In (adr, v) (matches doc) ->
  exists el,
    In el (querySelectorAll_star doc) /\
    Js.is_2_3_digits (getText (Some (node el))) = true /\
    v = VInt (Js.parseInt (getText (Some (node el)))).
Proof.
  unfold matches, decimal_matches, percentage_matches, integer_matches,
    label_matches.
  rewrite !in_app_iff, !in_flat_map.
  intros [(el & _ & H) | [(el & _ & H) | [(el & Hel & H) | (e & He & H)]]].
  - apply kd_body_fits in H as Hfit.
    exfalso. revert H. unfold kd_body.
    destruct (parent_of_closest _ _); [| intros []].
    destruct (Js.is_decimal_text _); [| intros []].
    destruct (first_descendant _); [| intros []].
    repeat match goal with
      | |- In _ (if ?c then _ else _) -> _ => destruct c
      end;
      simpl; try tauto; intros [H | []]; discriminate H.
  - exfalso. revert H. unfold percentage_body.
    destruct (Js.is_percent_text _); [| intros []].
    repeat match goal with
      | |- In _ (if ?c then _ else _) -> _ => destruct c
      end;
      simpl; try tauto; intros [H | []]; discriminate H.
  - exists el. split; [exact Hel |].
    unfold integer_body, integer_assignments in H.
    apply in_app_or in H. destruct H as [H | H].
    + exfalso.
      destruct (Js.is_integer_text _); [| destruct H].
      destruct (0 <? _)%N; [| destruct H].
      apply route_integer_values in H. destruct H as [_ H]. discriminate H.
    + destruct (Js.is_2_3_digits _) eqn:Hd; [| destruct H].
      destruct (Js.includes _ _); [| destruct H].
      destruct H as [H | []]. inversion H. auto.
  - exfalso. revert H. unfold label_body. destruct e as [label field].
    destruct (find _ _) as [labelElement |]; [| intros []].
    destruct (parentElement labelElement); [| intros []].
    destruct (scan_window _ _); [| intros []].
    intros [H | []]. inversion H; subst.
    simpl in He.
    repeat (destruct He as [He | He]; [discriminate He |]).
    destruct He.
Qed.

(** Only the ADR rule of the integer pass writes [adr], and it takes a
    text of two or three digits: in the returned object [adr] is an
    integer of at most 999 (and it may be 0, the rule has no positivity
    test). *)
Theorem adr_is_at_most_999 (doc : Document) (v : Value) :
  get (stats (evaluate_callback doc)) adr = Some v ->
  exists n, v = VInt n /\ (n <= 999)%N.
Proof.
  cbn [stats evaluate_callback]. intro H.
  apply extracted_is_a_match, adr_comes_from_the_adr_rule in H.
  destruct H as (el & _ & Hd & ->).
  eexists. split; [reflexivity |].
  now apply two_or_three_digits_below_1000.
Qed.

Lemma adr_is_at_most_999_witness :
  exists n, VInt 87 = VInt n /\ (n <= 999)%N.
Proof.
  apply (adr_is_at_most_999 (page [labelled "ADR " "87"]) (VInt 87)).
  reflexivity.
Defined.

(** *** The three text patterns *)

Lemma digits_have_no (c : ascii) (s : string) :
  Js.is_digit c = false -> Js.all_digits s = true ->
  Js.split_at c s = (s, None).
Proof.
  intros Hc. induction s as [| d s IH]; cbn; [reflexivity |].
  intro H. apply andb_prop in H. destruct H as [Hd Hs].
  destruct (Ascii.eqb_spec d c) as [-> | _]; [congruence |].
  now rewrite IH.
Qed.

Lemma split_at_spec (c : ascii) (s a b : string) :
  Js.split_at c s = (a, Some b) -> s = (a ++ String c b)%string.
Proof.
  revert a. induction s as [| d s IH]; intro a; cbn; [discriminate |].
  destruct (Ascii.eqb_spec d c) as [-> | _].
  - now intros [= <- <-].
  - destruct (Js.split_at c s) as [a' b'] eqn:E.
    intros [= <- ->]. cbn. f_equal. now apply IH.
Qed.

Lemma split_at_after_digits (c : ascii) (d r : string) :
  Js.is_digit c = false -> Js.all_digits d = true ->
  Js.split_at c (d ++ r)%string =
  ((d ++ fst (Js.split_at c r))%string, snd (Js.split_at c r)).
Proof.
  intros Hc. induction d as [| x d IH]; cbn.
  - intros _. now destruct (Js.split_at c r).
  - intro H. apply andb_prop in H. destruct H as [Hx Hd].
    destruct (Ascii.eqb_spec x c) as [-> | _]; [congruence |].
    now rewrite IH.
Qed.

Lemma integer_text_digits (s : string) :
  Js.is_integer_text s = true -> Js.all_digits s = true.
Proof.
  unfold Js.is_integer_text. intro H. now apply andb_prop in H.
Qed.

Lemma integer_is_not_percent (s : string) :
  Js.is_integer_text s = true -> Js.is_percent_text s = false.
Proof.
  intro H. unfold Js.is_percent_text.
  rewrite (digits_have_no "%" s); auto using integer_text_digits.
Qed.

Lemma integer_is_not_decimal (s : string) :
  Js.is_integer_text s = true -> Js.is_decimal_text s = false.
Proof.
  intro H. unfold Js.is_decimal_text.
  rewrite (digits_have_no "." s); auto using integer_text_digits.
Qed.

Lemma percent_is_not_decimal (s : string) :
  Js.is_percent_text s = true -> Js.is_decimal_text s = false.
Proof.
  unfold Js.is_percent_text.
  destruct (Js.split_at "%" s) as [d [[| ? ?] |]] eqn:E; try discriminate.
  intro Hd. apply split_at_spec in E. subst s.
  unfold Js.is_decimal_text.
  rewrite (split_at_after_digits "." d "%");
    auto using integer_text_digits.
Qed.

Lemma two_or_three_digits_is_integer (s : string) :
  Js.is_2_3_digits s = true -> Js.is_integer_text s = true.
Proof.
  unfold Js.is_2_3_digits, Js.is_integer_text. intro H.
  apply andb_prop in H. destruct H as [Hd Hl]. rewrite Hd, andb_true_r.
  destruct s; [discriminate Hl | reflexivity].
Qed.

Lemma integer_body_needs_integer (el : Elem) :
  Js.is_integer_text (getText (Some (node el))) = false ->
  integer_body el = [].
Proof.
  intro H. unfold integer_body, integer_assignments. rewrite H.
  destruct (Js.is_2_3_digits (getText (Some (node el)))) eqn:E.
  - apply two_or_three_digits_is_integer in E. congruence.
  - reflexivity.
Qed.

(** The three patterns exclude one another, so an element makes at most
    one of the three [forEach] bodies write: a decimal text is seen by
    the K/D pass only, a percentage text by the percentage pass only, an
    integer text by the integer pass only. *)
Theorem at_most_one_pass_per_element (el : Elem) :
  (kd_body el <> [] -> percentage_body el = [] /\ integer_body el = []) /\
  (percentage_body el <> [] -> kd_body el = [] /\ integer_body el = []) /\
  (integer_body el <> [] -> kd_body el = [] /\ percentage_body el = []).
Proof.
  set (text := getText (Some (node el))).
  assert (Hkd : Js.is_decimal_text text = false -> kd_body el = []).
  { intro H. unfold kd_body. fold text. rewrite H.
    now destruct (parent_of_closest _ _). }
  assert (Hpc : Js.is_percent_text text = false -> percentage_body el = []).
  { intro H. unfold percentage_body. fold text. now rewrite H. }
  pose proof (integer_body_needs_integer el) as Hint. fold text in Hint.
  pose proof (integer_is_not_percent text) as H1.
  pose proof (integer_is_not_decimal text) as H2.
  pose proof (percent_is_not_decimal text) as H3.
  destruct (Js.is_integer_text text), (Js.is_percent_text text),
    (Js.is_decimal_text text);
    repeat split; intros; auto; try congruence;
    try (specialize (H1 eq_refl)); try (specialize (H2 eq_refl));
    try (specialize (H3 eq_refl)); try discriminate;
    try (exfalso; auto; fail).
Qed.

Lemma at_most_one_pass_per_element_witness :
  kd_body (mkElem (Element "span" [] [Text "52%"])
                  [Element "p" [] [Text "Win rate ";
                                   Element "span" [] [Text "52%"]]] 0) = [] /\
  integer_body (mkElem (Element "span" [] [Text "52%"])
                  [Element "p" [] [Text "Win rate ";
                                   Element "span" [] [Text "52%"]]] 0) = [].
Proof.
  apply (at_most_one_pass_per_element
           (mkElem (Element "span" [] [Text "52%"])
                   [Element "p" [] [Text "Win rate ";
                                    Element "span" [] [Text "52%"]]] 0)).
  discriminate.
Defined.

(** *** [trim] and the player name *)

Lemma trimStart_no_lead (s : string) :
  starts_with_space (Js.trimStart s) = false.
Proof.
  induction s as [| c s IH]; cbn; [reflexivity |].
  destruct (Js.is_space c) eqn:E; [exact IH | cbn; exact E].
Qed.

Lemma trimEnd_no_trail (s : string) :
  ends_with_space (Js.trimEnd s) = false.
Proof.
  induction s as [| c s IH]; cbn [Js.trimEnd]; [reflexivity |].
  destruct (Js.trimEnd s) as [| d r] eqn:E.
  - destruct (Js.is_space c) eqn:Hc; cbn; auto.
  - exact IH.
Qed.

Lemma trimEnd_keeps_head (s : string) :
  starts_with_space s = false -> starts_with_space (Js.trimEnd s) = false.
Proof.
  destruct s as [| c s]; cbn [Js.trimEnd starts_with_space]; auto.
  intro Hc. destruct (Js.trimEnd s); [rewrite Hc |]; exact Hc.
Qed.

Lemma trimStart_fixed (s : string) :
  starts_with_space s = false -> Js.trimStart s = s.
Proof. destruct s as [| c s]; cbn; [auto | now intros ->]. Qed.

Lemma trimEnd_fixed (s : string) :
  ends_with_space s = false -> Js.trimEnd s = s.
Proof.
  induction s as [| c s IH]; cbn [Js.trimEnd ends_with_space]; auto.
  destruct s as [| d s].
  - cbn. now intros ->.
  - intro H. rewrite (IH H). reflexivity.
Qed.

Lemma trim_is_trimmed (s : string) :
  starts_with_space (Js.trim s) = false /\
  ends_with_space (Js.trim s) = false.
Proof.
  unfold Js.trim. split.
  - apply trimEnd_keeps_head, trimStart_no_lead.
  - apply trimEnd_no_trail.
Qed.

Lemma trim_idempotent (s : string) : Js.trim (Js.trim s) = Js.trim s.
Proof.
  destruct (trim_is_trimmed s) as [H1 H2].
  unfold Js.trim at 1. now rewrite (trimStart_fixed _ H1), (trimEnd_fixed _ H2).
Qed.

(** [getText] hands back a text without white space at either end, and
    trimming it again changes nothing; the three patterns are therefore
    tested on such a text. *)
Theorem getText_is_trimmed (n : option Node) :
  starts_with_space (getText n) = false /\
  ends_with_space (getText n) = false /\
  Js.trim (getText n) = getText n.
Proof.
  destruct n as [e |]; cbn [getText].
  - destruct (trim_is_trimmed (textContent e)).
    repeat split; auto using trim_idempotent.
  - repeat split.
Qed.

Lemma truthy_text_trim (s t : string) :
  truthy_text (Js.trim s) = Some t ->
  t <> "" /\ starts_with_space t = false /\ ends_with_space t = false.
Proof.
  unfold truthy_text.
  destruct (String.eqb_spec (Js.trim s) "") as [| Hne]; [discriminate |].
  intros [= <-]. destruct (trim_is_trimmed s). auto.
Qed.

(** The player name of the result is never empty and has no white
    space at either end: it is the trimmed text of the first [h1],
    [.player-name] or [.username] element when that is not blank,
    otherwise the trimmed part of the title before the first ['-'] when
    that is not blank, otherwise ['Unknown']. *)
Theorem player_name_is_present (doc : Document) :
  let name := info_player_name (player_info (evaluate_callback doc)) in
  name <> "" /\
  starts_with_space name = false /\ ends_with_space name = false /\
  (forall e t,
      find is_name_element (querySelectorAll_star doc) = Some e ->
      truthy_text (Js.trim (textContent (node e))) = Some t ->
      name = t) /\
  (playerName doc = None -> name = "Unknown").
Proof.
  cbn [info_player_name player_info evaluate_callback].
  assert (Hcases :
            playerName doc = None \/
            exists s t, playerName doc = Some t /\
                        truthy_text (Js.trim s) = Some t).
  { unfold playerName.
    destruct (find is_name_element (querySelectorAll_star doc)) as [e |].
    - destruct (truthy_text (Js.trim (textContent (node e)))) eqn:E;
        [right; eauto |].
      destruct (find (has_tag "title") _) as [e' |]; [| now left].
      destruct (truthy_text
                  (Js.trim (Js.split_head "-" (textContent (node e')))))
        eqn:E'; [right; eauto | now left].
    - destruct (find (has_tag "title") _) as [e' |]; [| now left].
      destruct (truthy_text
                  (Js.trim (Js.split_head "-" (textContent (node e')))))
        eqn:E'; [right; eauto | now left]. }
  assert (Hfirst : forall e t,
             find is_name_element (querySelectorAll_star doc) = Some e ->
             truthy_text (Js.trim (textContent (node e))) = Some t ->
             playerName doc = Some t).
  { intros e t He Ht. unfold playerName. now rewrite He, Ht. }
  destruct Hcases as [Hnone | (s & t & Hsome & Ht)].
  - rewrite Hnone. repeat split; try discriminate.
    intros e t He Ht. rewrite (Hfirst e t He Ht) in Hnone. discriminate.
  - rewrite Hsome. destruct (truthy_text_trim _ _ Ht) as (H1 & H2 & H3).
    repeat split; auto; try discriminate.
    intros e t' He Ht'. rewrite (Hfirst e t' He Ht') in Hsome. congruence.
Qed.

Lemma player_name_is_present_witness :
  info_player_name
    (player_info
       (evaluate_callback
          (page [Element "h1" [] [Text "  s1mple "]]))) = "s1mple".
Proof.
  apply (proj1 (proj2 (proj2 (proj2
           (player_name_is_present
              (page [Element "h1" [] [Text "  s1mple "]])))))
           (mkElem (Element "h1" [] [Text "  s1mple "])
              [Element "body" [] [Element "h1" [] [Text "  s1mple "]];
               Element "html" []
                 [Element "body" [] [Element "h1" [] [Text "  s1mple "]]]]
              0) "s1mple"); reflexivity.
Defined.

End Shape.

(* ------------------------------------------------------------------ *)
(** ** The two variants of the integer routing *)
(* ------------------------------------------------------------------ *)

Module Variants.

Lemma route_fields_split (context : string) (num : N) (text : string) :
  map fst (Standalone.route_integer context num text) =
    map fst (route_integer context num) \/
  (map fst (route_integer context num) = [rounds_played] /\
   Standalone.route_integer context num text = [] /\
   (1000 < num <= 10000)%N).
Proof.
  unfold Standalone.route_integer, route_integer.
  destruct (Js.includes context "kill" && negb (Js.includes context "death"));
    [now left |].
  destruct (Js.includes context "death" && negb (Js.includes context "kill"));
    [now left |].
  destruct (Js.includes context "assist"); [now left |].
  destruct (Js.includes context "headshot" && (num <? 50000)%N); [now left |].
  destruct (Js.includes context "played" || Js.includes context "match");
    [now left |].
  destruct (Js.includes context "won" && (num <? 10000)%N); [now left |].
  destruct (Js.includes context "lost" && (num <? 10000)%N); [now left |].
  destruct (Js.includes context "round"); cbn [andb].
  - destruct (N.ltb_spec 1000 num), (N.ltb_spec 10000 num);
      try (now left); try lia.
    + right. repeat split; try lia.
      destruct (Js.includes context "damage"); cbn [andb]; [| reflexivity].
      destruct (N.ltb_spec 100000 num); [lia | reflexivity].
    + destruct (Js.includes context "damage" && (100000 <? num)%N);
        now left.
  - destruct (Js.includes context "damage" && (100000 <? num)%N); now left.
Qed.

(** The service and the stand-alone script route an integer to the same
    field for every context and number, with one exception: a context
    with ["round"] that reaches the rounds test with a number above 1000
    and at most 10000 is [rounds_played] in the service and nothing in
    the script.  The script stores the text where the service stores the
    number, and a number above 10000 routed to [rounds_played] by one is
    routed there by the other. *)
Theorem variants_differ_on_rounds_only (context : string) (num : N)
  (text : string) :
  (map fst (Standalone.route_integer context num text) =
     map fst (route_integer context num) \/
   (map fst (route_integer context num) = [rounds_played] /\
    Standalone.route_integer context num text = [] /\
    (1000 < num <= 10000)%N)) /\
  (forall f v, In (f, v) (Standalone.route_integer context num text) ->
               v = VText text /\ In (f, VInt num) (route_integer context num)) /\
  ((10000 < num)%N ->
   map fst (Standalone.route_integer context num text) =
   map fst (route_integer context num)).
Proof.
  split; [apply route_fields_split | split].
  - unfold Standalone.route_integer, route_integer.
    intros f v.
    destruct (Js.includes context "kill" && negb (Js.includes context "death"));
      [intros [H | []]; inversion H; simpl; auto |].
    destruct (Js.includes context "death" && negb (Js.includes context "kill"));
      [intros [H | []]; inversion H; simpl; auto |].
    destruct (Js.includes context "assist");
      [intros [H | []]; inversion H; simpl; auto |].
    destruct (Js.includes context "headshot" && (num <? 50000)%N);
      [intros [H | []]; inversion H; simpl; auto |].
    destruct (Js.includes context "played" || Js.includes context "match");
      [intros [H | []]; inversion H; simpl; auto |].
    destruct (Js.includes context "won" && (num <? 10000)%N);
      [intros [H | []]; inversion H; simpl; auto |].
    destruct (Js.includes context "lost" && (num <? 10000)%N);
      [intros [H | []]; inversion H; simpl; auto |].
    destruct (Js.includes context "round"); cbn [andb].
    + destruct (N.ltb_spec 10000 num) as [Hbig | Hsmall].
      * intros [H | []]; inversion H.
        destruct (N.ltb_spec 1000 num) as [_ | Hle]; [simpl; auto | lia].
      * destruct (Js.includes context "damage"); cbn [andb];
          [| intros []].
        destruct (N.ltb_spec 100000 num) as [Hd | _]; [lia | intros []].
    + destruct (Js.includes context "damage" && (100000 <? num)%N);
        [intros [H | []]; inversion H; simpl; auto | intros []].
  - intro Hbig.
    destruct (route_fields_split context num text) as [H | (_ & _ & H)];
      [exact H | lia].
Qed.

Lemma variants_differ_on_rounds_only_witness :
  map fst (Standalone.route_integer "18452 rounds 18452" 18452 "18452") =
  map fst (route_integer "18452 rounds 18452" 18452).
Proof.
  apply (variants_differ_on_rounds_only "18452 rounds 18452" 18452 "18452").
  reflexivity.
Defined.

End Variants.

(* ------------------------------------------------------------------ *)
(** ** The document order and the label window *)
(* ------------------------------------------------------------------ *)

Module Window.
Import Dom.

Lemma elements_from_unfold (anc : list Node) (idx : nat) t c cs :
  elements_from anc idx (Element t c cs) =
  mkElem (Element t c cs) anc idx ::
  elements_below (Element t c cs :: anc) cs 0.
Proof.
  cbn [elements_from]. f_equal.
  generalize (Element t c cs :: anc). intro chain. generalize 0%nat.
  induction cs as [| x cs IH]; intro i; cbn [elements_below]; [reflexivity |].
  f_equal. apply IH.
Qed.

Lemma nth_error_after {A} (l1 l2 : list A) (x : A) :
  nth_error (l1 ++ x :: l2) (List.length l1) = Some x.
Proof. induction l1; cbn; auto. Qed.

Lemma elements_from_placed (n : Node) :
  forall anc idx el,
    In el (elements_from anc idx n) ->
    (el = mkElem n anc idx /\ is_element n = true) \/ placed el.
Proof.
  induction n as [s | t c cs IH] using Node_induction; intros anc idx el Hin.
  - destruct Hin.
  - rewrite elements_from_unfold in Hin. destruct Hin as [<- | Hin]; [auto |].
    right. revert Hin.
    set (par := Element t c cs).
    assert (Hgen : forall done l i,
               cs = done ++ l ->
               i = List.length (filter is_element done) ->
               Forall (fun x => forall anc idx el,
                         In el (elements_from anc idx x) ->
                         (el = mkElem x anc idx /\ is_element x = true) \/
                         placed el) l ->
               In el (elements_below (par :: anc) l i) -> placed el).
    { intros done l. revert done.
      induction l as [| x l IHl]; intros done i Hcs Hi Hall Hin;
        cbn [elements_below] in Hin; [destruct Hin |].
      apply Forall_cons_iff in Hall. destruct Hall as [Hx Hl].
      apply in_app_or in Hin. destruct Hin as [Hin | Hin].
      - destruct (Hx _ _ _ Hin) as [[-> Hel] | Hp]; [| exact Hp].
        exists par. split; [reflexivity |].
        unfold par. cbn [position node children].
        rewrite Hcs, filter_app. cbn [filter]. rewrite Hel, Hi.
        apply nth_error_after.
      - apply (IHl (done ++ [x]) (if is_element x then S i else i)); auto.
        + now rewrite <- app_assoc.
        + rewrite filter_app, length_app. cbn [filter].
          destruct (is_element x); cbn; lia. }
    apply (Hgen [] cs 0%nat); auto.
Qed.

(** Every element that [querySelectorAll('*')] lists is an element node
    and, unless it is the root, sits in [parentElement.children] at the
    index the model records for it. *)
Lemma listed_elements_are_placed (doc : Document) (el : Elem) (p : Node) :
  In el (querySelectorAll_star doc) ->
  parentElement el = Some p ->
  nth_error (children p) (position el) = Some (node el).
Proof.
  unfold querySelectorAll_star. intros Hin Hp.
  destruct (elements_from_placed _ _ _ _ Hin) as [[-> _] | (q & Hq & Hn)].
  - discriminate Hp.
  - congruence.
Qed.

Lemma scan_window_spec (label : string) (window : list Node) (n : N) :
  scan_window label window = Some n ->
  exists pre s post,
    window = pre ++ s :: post /\
    Js.is_integer_text (getText (Some s)) = true /\
    n = Js.parseInt (getText (Some s)) /\
    Forall (fun x => Js.is_integer_text (getText (Some x)) = false \/
                     getText (Some x) = label) pre.
Proof.
  induction window as [| x window IH]; cbn [scan_window]; [discriminate |].
  destruct (Js.is_integer_text (getText (Some x))) eqn:Hi; cbn [andb].
  - destruct (String.eqb_spec (getText (Some x)) label) as [Heq | Hne];
      cbn [negb].
    + intro H. destruct (IH H) as (pre & s & post & -> & H1 & H2 & H3).
      exists (x :: pre), s, post. repeat split; auto.
    + intros [= <-]. exists [], x, window. repeat split; auto.
  - intro H. destruct (IH H) as (pre & s & post & -> & H1 & H2 & H3).
    exists (x :: pre), s, post. repeat split; auto.
Qed.

Lemma nth_error_window {A} (l : list A) (index k : nat) (x : A) :
  nth_error (firstn (Nat.min (List.length l) (index + 3) - (index - 2))
                    (skipn (index - 2) l)) k = Some x ->
  nth_error l (index - 2 + k) = Some x /\ (index - 2 + k <= index + 2)%nat.
Proof.
  intro H. rewrite nth_error_firstn in H.
  destruct (Nat.ltb_spec k (Nat.min (List.length l) (index + 3) - (index - 2)));
    [| discriminate].
  rewrite nth_error_skipn in H. split; [exact H | lia].
Qed.

Lemma catalog_labels_are_words (label : string) (field : Field) :
  In (label, field) statLabels -> Js.is_integer_text label = false.
Proof.
  simpl. intro H.
  repeat (destruct H as [H | H]; [inversion H; reflexivity |]).
  destruct H.
Qed.

(** The value the label pass stores for a label of the catalog is the
    integer text of a child of the label's parent at most two places
    before or after the label, and of the first such child in that
    window. *)
Theorem label_value_is_adjacent (doc : Document) (label : string)
  (field f : Field) (v : Value) :
  In (label, field) statLabels ->
  In (f, v) (label_body doc (label, field)) ->
  f = field /\
  exists labelElement p i s,
    In labelElement (querySelectorAll_star doc) /\
    Js.toUpperCase (getText (Some (node labelElement))) = label /\
    parentElement labelElement = Some p /\
    nth_error (children p) (position labelElement) =
      Some (node labelElement) /\
    nth_error (children p) i = Some s /\
    (position labelElement - 2 <= i <= position labelElement + 2)%nat /\
    Js.is_integer_text (getText (Some s)) = true /\
    v = VInt (Js.parseInt (getText (Some s))) /\
    (forall j s',
        (position labelElement - 2 <= j < i)%nat ->
        nth_error (children p) j = Some s' ->
        Js.is_integer_text (getText (Some s')) = false).
Proof.
  intros Hcat. unfold label_body.
  destruct (find _ (querySelectorAll_star doc)) as [labelElement |] eqn:Hfind;
    [| intros []].
  apply find_some in Hfind. destruct Hfind as [Hin Hlabel].
  apply String.eqb_eq in Hlabel.
  destruct (parentElement labelElement) as [p |] eqn:Hp; [| intros []].
  destruct (scan_window label _) as [n |] eqn:Hscan; [| intros []].
  intros [H | []]. inversion H; subst f v. split; [reflexivity |].
  apply scan_window_spec in Hscan.
  destruct Hscan as (pre & s & post & Hw & Hint & -> & Hpre).
  unfold sibling_window in Hw.
  assert (Hs : nth_error
                 (firstn (Nat.min (List.length (children p))
                                  (position labelElement + 3)
                          - (position labelElement - 2))
                         (skipn (position labelElement - 2) (children p)))
                 (List.length pre) = Some s)
    by (rewrite Hw; apply nth_error_after).
  apply nth_error_window in Hs. destruct Hs as [Hs Hle].
  exists labelElement, p, (position labelElement - 2 + List.length pre)%nat, s.
  repeat split; auto; try lia.
  - now apply listed_elements_are_placed with doc.
  - intros j s' Hj Hs'.
    assert (Hk : exists k, (j = position labelElement - 2 + k)%nat /\
                           (k < List.length pre)%nat)
      by (exists (j - (position labelElement - 2))%nat; lia).
    destruct Hk as (k & -> & Hk).
    assert (Hin' : nth_error pre k = Some s').
    { pose proof (firstn_le_length
                    (Nat.min (List.length (children p))
                             (position labelElement + 3)
                     - (position labelElement - 2))
                    (skipn (position labelElement - 2) (children p)))
        as Hlen.
      rewrite Hw, length_app in Hlen. cbn [List.length] in Hlen.
      rewrite <- (nth_error_app1 pre (s :: post)) by exact Hk.
      rewrite <- Hw, nth_error_firstn.
      destruct (Nat.ltb_spec k
                  (Nat.min (List.length (children p))
                           (position labelElement + 3)
                   - (position labelElement - 2))); [| lia].
      now rewrite nth_error_skipn. }
    apply nth_error_In in Hin'.
    rewrite Forall_forall in Hpre. destruct (Hpre _ Hin') as [Hno | Hlab];
      [exact Hno |].
    rewrite Hlab. eapply catalog_labels_are_words; eauto.
Qed.

Lemma label_value_is_adjacent_witness :
  matches_won = matches_won /\
  exists labelElement p i s,
    In labelElement (querySelectorAll_star ExtractionSpec.won_and_label) /\
    Js.toUpperCase (getText (Some (node labelElement))) = "WON" /\
    parentElement labelElement = Some p /\
    nth_error (children p) (position labelElement) =
      Some (node labelElement) /\
    nth_error (children p) i = Some s /\
    (position labelElement - 2 <= i <= position labelElement + 2)%nat /\
    Js.is_integer_text (getText (Some s)) = true /\
    VInt 20000 = VInt (Js.parseInt (getText (Some s))) /\
    (forall j s',
        (position labelElement - 2 <= j < i)%nat ->
        nth_error (children p) j = Some s' ->
        Js.is_integer_text (getText (Some s')) = false).
Proof.
  apply (label_value_is_adjacent ExtractionSpec.won_and_label "WON"
           matches_won matches_won (VInt 20000)).
  - simpl. auto 10.
  - vm_compute. auto.
Defined.

End Window.

(* ------------------------------------------------------------------ *)
(** ** The queue of identifiers: adding and resetting *)
(* ------------------------------------------------------------------ *)

Module Registry.
Import DatabaseService Queries.

Lemma has_key_spec (steamId64 : string) (r : SteamIdRow) :
  has_key steamId64 r = true <-> sid_steam_id64 r = steamId64.
Proof. apply String.eqb_eq. Qed.

Lemma unique_rows {A B} (f : A -> B) (l : list A) (a b : A) :
  NoDup (map f l) -> In a l -> In b l -> f a = f b -> a = b.
Proof.
  induction l as [| x l IH]; cbn; intros Hnd Ha Hb Hf; [destruct Ha |].
  inversion Hnd as [| ? ? Hnot Hnd']; subst.
  destruct Ha as [-> | Ha], Hb as [-> | Hb]; auto.
  - exfalso. apply Hnot. rewrite Hf. now apply in_map.
  - exfalso. apply Hnot. rewrite <- Hf. now apply in_map.
Qed.

Lemma absent_key (steamId64 : string) (l : list SteamIdRow) :
  existsb (has_key steamId64) l = false <->
  ~ In steamId64 (map sid_steam_id64 l).
Proof.
  split.
  - intros Hex Hin. apply in_map_iff in Hin as (r & Hk & Hin).
    assert (existsb (has_key steamId64) l = true); [| congruence].
    apply existsb_exists. exists r. split; auto. now apply has_key_spec.
  - intro Hnot. destruct (existsb (has_key steamId64) l) eqn:Hex; auto.
    apply existsb_exists in Hex as (r & Hin & Hk).
    exfalso. apply Hnot. apply has_key_spec in Hk. subst.
    now apply in_map.
Qed.

(** Adding an identifier keeps one row per identifier, and leaves
    exactly one row of the added identifier: it has the priority of the
    call and the time of the call as [updated_at]. *)
Theorem addSteamId_keeps_ids_unique (steamId64 : string) (priority : Z)
  (insertId : N) (now : Z) (t : Tables) :
  unique_ids (steam_ids t) ->
  let t' := addSteamId steamId64 priority insertId now t in
  unique_ids (steam_ids t') /\
  exists r, In r (steam_ids t') /\
            sid_steam_id64 r = steamId64 /\
            sid_priority r = priority /\
            sid_updated_at r = now /\
            forall r', In r' (steam_ids t') ->
                       sid_steam_id64 r' = steamId64 -> r' = r.
Proof.
  intros Hu t'. subst t'. unfold unique_ids, addSteamId in *.
  cbn [steam_ids].
  destruct (existsb (has_key steamId64) (steam_ids t)) eqn:Hex.
  - set (g := fun r : SteamIdRow => if has_key steamId64 r then _ else r).
    assert (Hkeys : forall r, sid_steam_id64 (g r) = sid_steam_id64 r).
    { intro r. unfold g. now destruct (has_key steamId64 r). }
    assert (Hmap : map sid_steam_id64 (map g (steam_ids t)) =
                   map sid_steam_id64 (steam_ids t)).
    { rewrite map_map. now apply map_ext. }
    split; [now rewrite Hmap |].
    apply existsb_exists in Hex as (x & Hin & Hk).
    exists (g x). split; [now apply in_map |].
    unfold g at 1 2 3. rewrite Hk. cbn.
    apply has_key_spec in Hk. repeat split; auto.
    intros r' Hr' Hk'. apply in_map_iff in Hr' as (y & <- & Hy).
    f_equal. apply (unique_rows sid_steam_id64 (steam_ids t)); auto.
    rewrite Hkeys in Hk'. congruence.
  - apply absent_key in Hex. split.
    + rewrite map_app. apply NoDup_app; auto.
      * cbn. constructor; [intros [] | constructor].
      * cbn. intros a Ha [<- | []]. contradiction.
    + eexists. split; [apply in_or_app; right; left; reflexivity |].
      cbn. repeat split.
      intros r' Hr' Hk'. apply in_app_or in Hr' as [Hr' | [<- | []]]; auto.
      exfalso. apply Hex. rewrite <- Hk'. now apply in_map.
Qed.

Lemma addSteamId_keeps_ids_unique_witness :
  let t' := addSteamId "76561198000000002" 9 4 300 Scenario.queue in
  unique_ids (steam_ids t').
Proof.
  intro t'.
  apply (addSteamId_keeps_ids_unique "76561198000000002" 9 4 300
           Scenario.queue).
  unfold unique_ids. cbn.
  repeat constructor; cbn; intuition discriminate.
Defined.

Lemma filter_map_keys {B} (key : SteamIdRow -> B) (p : SteamIdRow -> bool)
  (g : SteamIdRow -> SteamIdRow) (l : list SteamIdRow) :
  (forall r, p (g r) = p r) -> (forall r, key (g r) = key r) ->
  map key (filter p (map g l)) = map key (filter p l).
Proof.
  intros Hp Hk. induction l as [| r l IH]; cbn; auto.
  rewrite Hp. destruct (p r); cbn; now rewrite ?Hk, IH.
Qed.

(** Adding an identifier that the table has already changes its
    priority and [updated_at] only: every row keeps its status, [id] and
    [created_at], the rows of other identifiers are untouched, and the
    identifiers that are pending are the same as before (an identifier
    that was completed or failed is not queued again). *)
Theorem readding_keeps_progress (steamId64 : string) (priority : Z)
  (insertId : N) (now : Z) (t : Tables) (r : SteamIdRow) :
  In r (steam_ids t) -> sid_steam_id64 r = steamId64 ->
  let t' := addSteamId steamId64 priority insertId now t in
  map sid_steam_id64 (steam_ids t') = map sid_steam_id64 (steam_ids t) /\
  map sid_status (steam_ids t') = map sid_status (steam_ids t) /\
  map sid_id (steam_ids t') = map sid_id (steam_ids t) /\
  map sid_created_at (steam_ids t') = map sid_created_at (steam_ids t) /\
  (forall q, In q (steam_ids t) -> sid_steam_id64 q <> steamId64 ->
             In q (steam_ids t')) /\
  map sid_steam_id64 (filter is_pending (steam_ids t')) =
  map sid_steam_id64 (filter is_pending (steam_ids t)) /\
  player_stats t' = player_stats t /\ scrape_logs t' = scrape_logs t.
Proof.
  intros Hin Hkey t'. subst t'. unfold addSteamId. cbn [steam_ids].
  assert (Hex : existsb (has_key steamId64) (steam_ids t) = true).
  { apply existsb_exists. exists r. split; auto. now apply has_key_spec. }
  rewrite Hex.
  set (g := fun r : SteamIdRow => if has_key steamId64 r then _ else r).
  assert (H1 : forall r, sid_steam_id64 (g r) = sid_steam_id64 r)
    by (intro x; unfold g; now destruct (has_key steamId64 x)).
  assert (H2 : forall r, sid_status (g r) = sid_status r)
    by (intro x; unfold g; now destruct (has_key steamId64 x)).
  assert (H3 : forall r, sid_id (g r) = sid_id r)
    by (intro x; unfold g; now destruct (has_key steamId64 x)).
  assert (H4 : forall r, sid_created_at (g r) = sid_created_at r)
    by (intro x; unfold g; now destruct (has_key steamId64 x)).
  rewrite !map_map.
  split; [now apply map_ext |]. split; [now apply map_ext |].
  split; [now apply map_ext |]. split; [now apply map_ext |].
  split; [| split; [| split; reflexivity]].
  - intros q Hq Hne. apply in_map_iff. exists q. split; auto.
    unfold g. destruct (has_key steamId64 q) eqn:Hk; auto.
    apply has_key_spec in Hk. contradiction.
  - apply filter_map_keys; auto.
    intro x. unfold is_pending. now rewrite H2.
Qed.

Lemma readding_keeps_progress_witness :
  let t := mkTables [mkSteamIdRow 1 "76561198000000001" completed 1 100 150]
                    [] [] in
  getPendingSteamIds 5 (addSteamId "76561198000000001" 9 2 300 t) = [].
Proof.
  intro t.
  pose proof (readding_keeps_progress "76561198000000001" 9 2 300 t
                (mkSteamIdRow 1 "76561198000000001" completed 1 100 150)
                (or_introl eq_refl) eq_refl) as H.
  destruct H as (_ & _ & _ & _ & _ & H & _).
  unfold getPendingSteamIds.
  destruct (filter is_pending
              (steam_ids (addSteamId "76561198000000001" 9 2 300 t)));
    [reflexivity | discriminate H].
Defined.

Lemma getPendingSteamIds_may_select (limit : nat) (t : Tables) :
  may_select limit t (getPendingSteamIds limit t).
Proof.
  exists (order_by (filter is_pending (steam_ids t))).
  split; [| split; [| reflexivity]].
  - symmetry. apply Selection.order_by_perm.
  - apply Selection.order_by_sorted.
Qed.

(** An identifier that is new to the table and is added with a priority
    above that of every pending row is the first row of whatever the
    next selection returns, in whichever order the database puts rows
    that tie; the rows after it are a selection of the table as it was
    before. *)
Theorem urgent_id_is_taken_first (steamId64 : string) (priority : Z)
  (insertId : N) (now : Z) (t : Tables) (n : nat)
  (rows : list SteamIdRow) :
  ~ In steamId64 (map sid_steam_id64 (steam_ids t)) ->
  (forall q, In q (steam_ids t) -> is_pending q = true ->
             (sid_priority q < priority)%Z) ->
  may_select (S n) (addSteamId steamId64 priority insertId now t) rows ->
  exists r rest,
    rows = r :: rest /\
    sid_steam_id64 r = steamId64 /\ sid_status r = pending /\
    sid_id r = insertId /\ sid_priority r = priority /\
    may_select n t rest.
Proof.
  intros Hnew Hlow (sorted & Hperm & Hsorted & ->).
  apply absent_key in Hnew.
  unfold addSteamId in Hperm. cbn [steam_ids] in Hperm.
  rewrite Hnew, filter_app in Hperm.
  cbn [filter is_pending sid_status Status_eqb] in Hperm.
  set (new := {| sid_id := insertId; sid_steam_id64 := steamId64;
                 sid_status := pending; sid_priority := priority;
                 sid_created_at := now; sid_updated_at := now |}) in *.
  set (olds := filter is_pending (steam_ids t)) in *.
  assert (Hold : forall q, In q olds -> (sid_priority q < priority)%Z).
  { intros q Hq. apply filter_In in Hq as [Hq Hp]. auto. }
  assert (Hin : In new sorted).
  { apply (Permutation_in _ (Permutation_sym Hperm)).
    apply in_or_app. right. now left. }
  destruct sorted as [| h tail]; [destruct Hin |].
  apply StronglySorted_inv in Hsorted as [Htail Hall].
  assert (Hh : h = new).
  { assert (Hh : In h (olds ++ [new]))
      by (apply (Permutation_in _ Hperm); now left).
    apply in_app_or in Hh as [Hh | [<- | []]]; [| reflexivity].
    exfalso. specialize (Hold h Hh).
    destruct Hin as [Heq | Hin];
      [rewrite Heq in Hold; unfold new in Hold; cbn in Hold; lia |].
    rewrite Forall_forall in Hall. specialize (Hall new Hin).
    unfold SelectionOrder.ordered, precedes in Hall.
    cbn [new sid_priority] in Hall.
    replace (priority <? sid_priority h)%Z with false in Hall
      by (symmetry; apply Z.ltb_ge; lia).
    replace (sid_priority h =? priority)%Z with false in Hall
      by (symmetry; apply Z.eqb_neq; lia).
    discriminate Hall. }
  subst h. exists new, (firstn n tail).
  cbn [firstn]. repeat split.
  exists tail. split; [| split; [exact Htail | reflexivity]].
  apply (Permutation_cons_inv (a := new)).
  rewrite Hperm. symmetry. apply Permutation_cons_append.
Qed.

Lemma urgent_id_is_taken_first_witness :
  exists r rest,
    getPendingSteamIds 2
      (addSteamId "76561198000000009" 7 4 300 Scenario.queue) = r :: rest /\
    sid_steam_id64 r = "76561198000000009".
Proof.
  destruct (urgent_id_is_taken_first "76561198000000009" 7 4 300
              Scenario.queue 1
              (getPendingSteamIds 2
                 (addSteamId "76561198000000009" 7 4 300 Scenario.queue)))
    as (r & rest & Hrows & Hk & _).
  - cbn. intuition discriminate.
  - cbn. intros q [<- | [<- | [<- | []]]] _; cbn; lia.
  - apply getPendingSteamIds_may_select.
  - exists r, rest. split; [exact Hrows | exact Hk].
Defined.

Lemma reset_rows (now : Z) (l : list SteamIdRow) (L : list string) :
  fold_right (fun id rows => set_status id pending now rows) l L =
  map (fun r =>
         if existsb (String.eqb (sid_steam_id64 r)) L
         then {| sid_id := sid_id r;
                 sid_steam_id64 := sid_steam_id64 r;
                 sid_status := pending;
                 sid_priority := sid_priority r;
                 sid_created_at := sid_created_at r;
                 sid_updated_at := now |}
         else r) l.
Proof.
  induction L as [| id L IH]; cbn [fold_right existsb].
  - symmetry. apply map_id.
  - rewrite IH. unfold set_status. rewrite map_map. apply map_ext.
    intro r. destruct (existsb (String.eqb (sid_steam_id64 r)) L);
      cbn [sid_steam_id64]; destruct (sid_steam_id64 r =? id); reflexivity.
Qed.

Lemma reset_tables (now : Z) (t : Tables) (L : list string) :
  fold_right (fun id acc => resetSteamIdStatus id now acc) t L =
  {| steam_ids :=
       fold_right (fun id rows => set_status id pending now rows)
                  (steam_ids t) L;
     player_stats := player_stats t;
     scrape_logs := scrape_logs t |}.
Proof.
  induction L as [| id L IH]; cbn [fold_right].
  - now destruct t.
  - rewrite IH. reflexivity.
Qed.

Lemma reset_counts (now : Z) (t : Tables) :
  let rows := steam_ids (resetAllFailedSteamIds now t) in
  count is_failed rows = 0%nat /\
  count is_pending rows =
    (count is_pending (steam_ids t) + count is_failed (steam_ids t))%nat /\
  count (fun r => Status_eqb (sid_status r) completed) rows =
    count (fun r => Status_eqb (sid_status r) completed) (steam_ids t) /\
  List.length rows = List.length (steam_ids t).
Proof.
  unfold resetAllFailedSteamIds, count. cbn [steam_ids].
  split; [| split; [| split]]; [| | | apply length_map];
    induction (steam_ids t) as [| r l IH]; cbn [map filter]; auto;
    unfold is_failed, is_pending in *;
    destruct (sid_status r) eqn:Hs; cbn [Status_eqb sid_status];
    rewrite ?Hs; cbn [Status_eqb List.length]; rewrite IH; lia.
Qed.

(** Resetting all failed identifiers at once leaves no failed row, makes
    pending exactly the rows that were failed, keeps every other row and
    every identifier, and does nothing when it is run again. *)
Theorem resetAllFailedSteamIds_requeues (now : Z) (t : Tables) :
  let t' := resetAllFailedSteamIds now t in
  map sid_steam_id64 (steam_ids t') = map sid_steam_id64 (steam_ids t) /\
  count is_failed (steam_ids t') = 0%nat /\
  count is_pending (steam_ids t') =
    (count is_pending (steam_ids t) + count is_failed (steam_ids t))%nat /\
  (forall r, In r (steam_ids t) -> is_failed r = false ->
             In r (steam_ids t')) /\
  (forall later, resetAllFailedSteamIds later t' = t') /\
  player_stats t' = player_stats t /\ scrape_logs t' = scrape_logs t.
Proof.
  intro t'. subst t'. unfold resetAllFailedSteamIds. cbn [steam_ids
    player_stats scrape_logs].
  set (g := fun r : SteamIdRow => if is_failed r then _ else r).
  assert (Hnf : forall r, is_failed (g r) = false).
  { intro r. unfold g. destruct (is_failed r) eqn:H; auto. }
  split; [| split; [| split; [| split; [| split; [| split]]]]]; auto.
  - rewrite map_map. apply map_ext. intro r. unfold g.
    now destruct (is_failed r).
  - apply (reset_counts now t).
  - apply (reset_counts now t).
  - intros r Hr Hf. apply in_map_iff. exists r. split; auto.
    unfold g. now rewrite Hf.
  - intro later. f_equal. rewrite map_map. apply map_ext. intro r.
    fold (is_failed (g r)). now rewrite Hnf.
Qed.

(** When the table has one row per identifier, resetting all failed
    identifiers at once is the same as resetting each failed identifier
    by itself. *)
Theorem reset_all_is_reset_each (now : Z) (t : Tables) :
  unique_ids (steam_ids t) ->
  resetAllFailedSteamIds now t =
  fold_right (fun id acc => resetSteamIdStatus id now acc) t
             (map sid_steam_id64 (filter is_failed (steam_ids t))).
Proof.
  intro Hu. rewrite reset_tables, reset_rows.
  unfold resetAllFailedSteamIds. f_equal.
  apply map_ext_in. intros r Hr.
  replace (existsb (String.eqb (sid_steam_id64 r))
             (map sid_steam_id64 (filter is_failed (steam_ids t))))
    with (is_failed r); [reflexivity |].
  destruct (existsb _ _) eqn:Hex.
  - apply existsb_exists in Hex as (k & Hk & Heq).
    apply String.eqb_eq in Heq. subst k.
    apply in_map_iff in Hk as (q & Hkq & Hq).
    apply filter_In in Hq as [Hq Hf].
    now rewrite (unique_rows sid_steam_id64 (steam_ids t) r q Hu Hr Hq).
  - destruct (is_failed r) eqn:Hf; auto.
    assert (existsb (String.eqb (sid_steam_id64 r))
              (map sid_steam_id64 (filter is_failed (steam_ids t))) = true);
      [| congruence].
    apply existsb_exists. exists (sid_steam_id64 r).
    split; [| apply String.eqb_refl].
    apply in_map. apply filter_In. auto.
Qed.

Lemma reset_all_is_reset_each_witness :
  let t := mkTables
             [mkSteamIdRow 1 "76561198000000001" failed 1 100 150;
              mkSteamIdRow 2 "76561198000000002" completed 1 110 160;
              mkSteamIdRow 3 "76561198000000003" failed 1 120 170] [] [] in
  resetAllFailedSteamIds 200 t =
  resetSteamIdStatus "76561198000000001" 200
    (resetSteamIdStatus "76561198000000003" 200 t).
Proof.
  intro t.
  apply (reset_all_is_reset_each 200 t).
  unfold unique_ids. cbn.
  repeat constructor; cbn; intuition discriminate.
Defined.

End Registry.

(* ------------------------------------------------------------------ *)
(** ** Reading a player's row back *)
(* ------------------------------------------------------------------ *)

Module Readback.
Import DatabaseService Queries.

Lemma find_app_key {A} (p : A -> bool) (l : list A) (x : A) :
  find p (l ++ [x]) =
  match find p l with
  | Some r => Some r
  | None => if p x then Some x else None
  end.
Proof.
  induction l as [| y l IH]; cbn; auto. now destruct (p y).
Qed.

Lemma find_map_key {A} (p : A -> bool) (update : A -> A) (l : list A) :
  (forall r, p (update r) = p r) ->
  find p (map (fun r => if p r then update r else r) l) =
  option_map update (find p l).
Proof.
  intro Hp. induction l as [| y l IH]; cbn [map find option_map]; auto.
  destruct (p y) eqn:Hy; cbn [option_map].
  - now rewrite Hp, Hy.
  - now rewrite Hy.
Qed.

Lemma find_map_other {A} (p q : A -> bool) (update : A -> A) (l : list A) :
  (forall r, q r = true -> p r = false) ->
  (forall r, q r = true -> p (update r) = false) ->
  find p (map (fun r => if q r then update r else r) l) = find p l.
Proof.
  intros H1 H2. induction l as [| y l IH]; cbn [map find]; auto.
  destruct (q y) eqn:Hq; cbn iota.
  - now rewrite (H2 y Hq), (H1 y Hq), IH.
  - now destruct (p y).
Qed.

Lemma existsb_find {A} (p : A -> bool) (l : list A) :
  existsb p l = match find p l with Some _ => true | None => false end.
Proof.
  induction l as [| y l IH]; cbn; auto. now destruct (p y).
Qed.

(** What [getPlayerStats] finds after an upsert on the same key. *)
Lemma read_upsert (steamId64 : string) (fresh : PlayerStatsRow)
  (update : PlayerStatsRow -> PlayerStatsRow) (l : list PlayerStatsRow) :
  ps_steam_id64 fresh = steamId64 ->
  (forall r, ps_steam_id64 (update r) = ps_steam_id64 r) ->
  find (fun r => ps_steam_id64 r =? steamId64)
       (upsert steamId64 fresh update l) =
  match find (fun r => ps_steam_id64 r =? steamId64) l with
  | Some r => Some (update r)
  | None => Some fresh
  end.
Proof.
  intros Hf Hu. unfold upsert. rewrite existsb_find.
  destruct (find _ l) as [r |] eqn:Hfind.
  - rewrite (find_map_key (fun r => ps_steam_id64 r =? steamId64)).
    + now rewrite Hfind.
    + intro x. now rewrite Hu.
  - rewrite find_app_key, Hfind, Hf, String.eqb_refl. reflexivity.
Qed.

(** What it finds after an upsert on another key. *)
Lemma read_upsert_other (steamId64 other : string) (fresh : PlayerStatsRow)
  (update : PlayerStatsRow -> PlayerStatsRow) (l : list PlayerStatsRow) :
  other <> steamId64 ->
  ps_steam_id64 fresh = steamId64 ->
  (forall r, ps_steam_id64 (update r) = ps_steam_id64 r) ->
  find (fun r => ps_steam_id64 r =? other)
       (upsert steamId64 fresh update l) =
  find (fun r => ps_steam_id64 r =? other) l.
Proof.
  intros Hne Hf Hu. unfold upsert.
  assert (Hoff : forall r, (ps_steam_id64 r =? steamId64) = true ->
                           (ps_steam_id64 r =? other) = false).
  { intros r Hr. apply String.eqb_eq in Hr. apply String.eqb_neq.
    congruence. }
  destruct (existsb _ l).
  - apply find_map_other; auto.
    intros r Hr. rewrite Hu. auto.
  - rewrite find_app_key.
    destruct (find _ l); auto.
    rewrite Hf. apply String.eqb_neq in Hne.
    rewrite String.eqb_sym, Hne. reflexivity.
Qed.

(** The row that a successful save leaves for the identifier. *)
Lemma saved_row (steamId64 : string) (playerData : PlayerData)
  (now : Z) (t : Tables) :
  exists r,
    find (fun r => ps_steam_id64 r =? steamId64)
         (player_stats (savePlayerStats steamId64 playerData now t)) =
    Some r /\
    ps_steam_id64 r = steamId64 /\
    ps_scrape_success r = true /\
    ps_error_message r = None /\
    ps_last_scraped r = now /\
    ps_player_name r =
      text_or_null (info_player_name (data_info playerData)) /\
    ps_profile_url r =
      text_or_null (info_profile_url (data_info playerData)) /\
    forall f, ps_column r f = bound_value playerData f.
Proof.
  unfold savePlayerStats. cbn [player_stats].
  rewrite read_upsert by reflexivity.
  destruct (find _ (player_stats t)) as [r0 |] eqn:Hfind;
    eexists; (split; [reflexivity |]);
    cbn [ps_steam_id64 ps_scrape_success ps_error_message ps_last_scraped
         ps_player_name ps_profile_url ps_column];
    repeat split; auto;
    try (intro f; now rewrite Upsert.is_stat_column_all).
  apply find_some in Hfind as [_ Hk]. now apply String.eqb_eq in Hk.
Qed.

Lemma read_saved (steamId64 : string) (playerData : PlayerData)
  (now : Z) (t : Tables) :
  exists r,
    getPlayerStats steamId64 (savePlayerStats steamId64 playerData now t) =
    Some r /\
    ps_steam_id64 r = steamId64 /\
    ps_scrape_success r = true /\
    forall f, ps_column r f = stored_as f (bound_value playerData f).
Proof.
  destruct (saved_row steamId64 playerData now t)
    as (r & Hfind & Hk & Hs & _ & _ & _ & _ & Hcol).
  exists (as_stored r). unfold getPlayerStats. rewrite Hfind.
  cbn [option_map as_stored ps_steam_id64 ps_scrape_success ps_column].
  repeat split; auto. intro f. now rewrite Hcol.
Qed.

Lemma read_other (steamId64 other : string) (fresh : PlayerStatsRow)
  (update : PlayerStatsRow -> PlayerStatsRow) (t t' : Tables) :
  other <> steamId64 ->
  ps_steam_id64 fresh = steamId64 ->
  (forall r, ps_steam_id64 (update r) = ps_steam_id64 r) ->
  player_stats t' = upsert steamId64 fresh update (player_stats t) ->
  getPlayerStats other t' = getPlayerStats other t.
Proof.
  intros Hne Hf Hu Ht. unfold getPlayerStats. rewrite Ht.
  now rewrite read_upsert_other.
Qed.

(** After a successful save, [getPlayerStats] of the identifier returns
    a success row with the name and URL of the scrape, and each stat
    column holds what its type keeps of the bound value: the extracted
    value, with [0], [0.0] and the empty text turned into [NULL], and
    rounded to two decimals in [kd_ratio] and [hltv_rating]; what it
    returns for every other identifier is what it returned before. *)
Theorem saved_stats_read_back (steamId64 : string) (playerData : PlayerData)
  (now : Z) (t : Tables) :
  let t' := savePlayerStats steamId64 playerData now t in
  (exists r,
      getPlayerStats steamId64 t' = Some r /\
      ps_steam_id64 r = steamId64 /\
      ps_scrape_success r = true /\
      ps_error_message r = None /\
      ps_last_scraped r = now /\
      ps_player_name r =
        text_or_null (info_player_name (data_info playerData)) /\
      ps_profile_url r =
        text_or_null (info_profile_url (data_info playerData)) /\
      forall f,
        ps_column r f =
        stored_as f (or_null (get (data_stats playerData) f))) /\
  forall other, other <> steamId64 ->
                getPlayerStats other t' = getPlayerStats other t.
Proof.
  intro t'. subst t'. split.
  - destruct (saved_row steamId64 playerData now t)
      as (r & Hfind & Hk & Hs & He & Hl & Hn & Hu & Hcol).
    exists (as_stored r). unfold getPlayerStats. rewrite Hfind.
    cbn [option_map as_stored ps_steam_id64 ps_scrape_success
         ps_error_message ps_last_scraped ps_player_name ps_profile_url
         ps_column].
    repeat split; auto. intro f. now rewrite Hcol.
  - intros other Hne.
    eapply read_other; [exact Hne | | | reflexivity]; reflexivity.
Qed.

Lemma stored_default (f : Field) :
  stored_as f (column_default f) = column_default f.
Proof. now destruct f. Qed.

(** After a failed save, [getPlayerStats] of the identifier returns a
    failure row with the message; its stat columns, name and URL are
    those it returned before, or, when there was no row, [NULL] (and [0]
    for [matches_tied]).  Other identifiers read as before. *)
Theorem failed_scrape_keeps_last_reading (steamId64 errorMessage : string)
  (now : Z) (t : Tables) :
  let t' := savePlayerStatsError steamId64 errorMessage now t in
  (exists r,
      getPlayerStats steamId64 t' = Some r /\
      ps_steam_id64 r = steamId64 /\
      ps_scrape_success r = false /\
      ps_error_message r = Some errorMessage /\
      ps_last_scraped r = now /\
      match getPlayerStats steamId64 t with
      | Some r0 =>
          ps_column r = ps_column r0 /\
          ps_player_name r = ps_player_name r0 /\
          ps_profile_url r = ps_profile_url r0
      | None =>
          ps_column r = column_default /\
          ps_player_name r = None /\ ps_profile_url r = None
      end) /\
  forall other, other <> steamId64 ->
                getPlayerStats other t' = getPlayerStats other t.
Proof.
  intro t'. subst t'. split.
  - unfold getPlayerStats, savePlayerStatsError. cbn [player_stats].
    rewrite read_upsert by reflexivity.
    destruct (find _ (player_stats t)) as [r0 |] eqn:Hfind;
      eexists; (split; [reflexivity |]);
      cbn [option_map as_stored ps_steam_id64 ps_scrape_success
           ps_error_message ps_last_scraped ps_player_name ps_profile_url
           ps_column];
      repeat split; auto.
    + apply find_some in Hfind as [_ Hk]. now apply String.eqb_eq in Hk.
    + apply functional_extensionality. intro f. apply stored_default.
  - intros other Hne.
    eapply read_other; [exact Hne | | | reflexivity]; reflexivity.
Qed.

End Readback.

(* ------------------------------------------------------------------ *)
(** ** The ranking of [getTopPlayers] *)
(* ------------------------------------------------------------------ *)

Module Ranking.
Import DatabaseService Queries.

(** [a] ranks no lower than [b] on the column [f]. *)
Lemma ranks_before_spec (f : Field) (a b : PlayerStatsRow) :
  ranks_before f a b = true <->
  (numeric (ps_column b f) <= numeric (ps_column a f))%Q.
Proof. apply Qle_bool_iff. Qed.

Lemma ranks_total (f : Field) (a b : PlayerStatsRow) :
  ranks_before f a b = false -> ranks_before f b a = true.
Proof.
  intro H. apply ranks_before_spec.
  apply Qlt_le_weak, Qnot_le_lt. intro Hle.
  apply ranks_before_spec in Hle. congruence.
Qed.

Lemma insert_ranked_perm (f : Field) (r : PlayerStatsRow)
  (l : list PlayerStatsRow) : Permutation (r :: l) (insert_ranked f r l).
Proof.
  induction l as [| x l IH]; cbn; auto.
  destruct (ranks_before f r x); auto.
  rewrite perm_swap. now constructor.
Qed.

Lemma ranked_perm (f : Field) (l : list PlayerStatsRow) :
  Permutation l (fold_right (insert_ranked f) [] l).
Proof.
  induction l as [| x l IH]; cbn; auto.
  rewrite <- insert_ranked_perm. now constructor.
Qed.

Lemma insert_ranked_sorted (f : Field) (r : PlayerStatsRow)
  (l : list PlayerStatsRow) :
  StronglySorted (fun a b => ranks_before f a b = true) l ->
  StronglySorted (fun a b => ranks_before f a b = true)
                 (insert_ranked f r l).
Proof.
  induction 1 as [| x l Hs IH Hall]; cbn.
  - repeat constructor.
  - destruct (ranks_before f r x) eqn:Hrx.
    + constructor; [now constructor |].
      constructor; auto.
      eapply Forall_impl; [| exact Hall].
      intros y Hxy. apply ranks_before_spec.
      apply ranks_before_spec in Hrx, Hxy.
      eapply Qle_trans; eauto.
    + constructor; auto.
      eapply Permutation_Forall; [apply insert_ranked_perm |].
      constructor; auto. now apply ranks_total.
Qed.

Lemma ranked_sorted (f : Field) (l : list PlayerStatsRow) :
  StronglySorted (fun a b => ranks_before f a b = true)
                 (fold_right (insert_ranked f) [] l).
Proof.
  induction l as [| x l IH]; cbn; [constructor |].
  now apply insert_ranked_sorted.
Qed.

Lemma top_rows_qualify (limit : nat) (orderBy : Argument) (t : Tables)
  (r : PlayerStatsRow) :
  In r (getTopPlayers limit orderBy t) ->
  In r (player_stats t) /\ ps_scrape_success r = true /\
  ps_column r (column_field (order_column orderBy)) <> None.
Proof.
  unfold getTopPlayers. intro Hr. apply Selection.in_firstn in Hr.
  apply (Permutation_in _ (Permutation_sym (ranked_perm _ _))) in Hr.
  apply filter_In in Hr as [Hin Hr]. unfold is_ranked in Hr.
  apply andb_true_iff in Hr as [Hs Hc].
  repeat split; auto.
  destruct (ps_column r _); congruence.
Qed.

(** [getTopPlayers] returns at most [limit] rows of the table, all of
    them successful scrapes with a value in the ranking column, highest
    value first; a row with these properties that it leaves out ranks no
    higher than any row it returns, and is left out only because the
    limit is reached. *)
Theorem getTopPlayers_ranked (limit : nat) (orderBy : Argument)
  (t : Tables) :
  let f := column_field (order_column orderBy) in
  let top := getTopPlayers limit orderBy t in
  (List.length top <= limit)%nat /\
  (forall r, In r top ->
             In r (player_stats t) /\ ps_scrape_success r = true /\
             ps_column r f <> None) /\
  StronglySorted
    (fun a b => (numeric (ps_column b f) <= numeric (ps_column a f))%Q)
    top /\
  (forall r, In r (player_stats t) -> ps_scrape_success r = true ->
             ps_column r f <> None -> ~ In r top ->
             List.length top = limit /\
             forall a, In a top ->
                       (numeric (ps_column r f) <=
                        numeric (ps_column a f))%Q).
Proof.
  intros f top. subst top. unfold getTopPlayers. fold f.
  set (candidates := filter (is_ranked f) (player_stats t)).
  set (all := fold_right (insert_ranked f) [] candidates).
  assert (Hperm : Permutation candidates all) by apply ranked_perm.
  assert (Hsorted : StronglySorted (fun a b => ranks_before f a b = true) all)
    by apply ranked_sorted.
  split; [rewrite length_firstn; lia |].
  split; [| split].
  - intros r Hr. now apply (top_rows_qualify limit orderBy t).
  - apply (Selection.strongly_sorted_firstn _ limit) in Hsorted.
    induction Hsorted as [| x l Hs IH Hall]; constructor; auto.
    eapply Forall_impl; [| exact Hall].
    intros y Hy. now apply ranks_before_spec.
  - intros r Hin Hs Hc Hout.
    assert (Hr : In r all).
    { apply (Permutation_in _ Hperm). apply filter_In. split; auto.
      unfold is_ranked. rewrite Hs.
      destruct (ps_column r f); [reflexivity | contradiction]. }
    rewrite <- (firstn_skipn limit all) in Hr.
    apply in_app_or in Hr as [Hr | Hr]; [contradiction |].
    split.
    + rewrite length_firstn. apply Nat.min_l.
      destruct (Nat.le_gt_cases limit (List.length all)) as [| Hlt]; auto.
      rewrite skipn_all2 in Hr by lia. destruct Hr.
    + intros a Ha. apply ranks_before_spec.
      apply (Selection.strongly_sorted_split _ limit all Hsorted a r Ha Hr).
Qed.

Lemma getTopPlayers_ranked_witness :
  (List.length
     (getTopPlayers 1 (arg_string "kills")
        (savePlayerStats "76561198000000001" UpsertSpec.sample_data 30
           (mkTables [] [UpsertSpec.sample_row] []))) <= 1)%nat.
Proof.
  exact (proj1 (getTopPlayers_ranked 1 (arg_string "kills")
                  (savePlayerStats "76561198000000001"
                     UpsertSpec.sample_data 30
                     (mkTables [] [UpsertSpec.sample_row] [])))).
Defined.

Lemma in_upsert (steamId64 : string) (fresh : PlayerStatsRow)
  (update : PlayerStatsRow -> PlayerStatsRow) (l : list PlayerStatsRow)
  (r : PlayerStatsRow) :
  In r (upsert steamId64 fresh update l) ->
  ps_steam_id64 r = steamId64 ->
  (forall x, ps_steam_id64 (update x) = ps_steam_id64 x) ->
  r = fresh \/ exists x, r = update x.
Proof.
  unfold upsert. intros Hin Hk Hu.
  destruct (existsb _ l) eqn:Hex.
  - apply in_map_iff in Hin as (x & <- & Hx).
    destruct (ps_steam_id64 x =? steamId64) eqn:Hkx; [right; eauto |].
    apply String.eqb_neq in Hkx. contradiction.
  - apply in_app_or in Hin as [Hin | [<- | []]]; auto.
    exfalso.
    assert (existsb (fun r => ps_steam_id64 r =? steamId64) l = true);
      [| congruence].
    apply existsb_exists. exists r. split; auto. now apply String.eqb_eq.
Qed.

Lemma length_upsert (steamId64 : string) (fresh : PlayerStatsRow)
  (update : PlayerStatsRow -> PlayerStatsRow) (l : list PlayerStatsRow) :
  (List.length (upsert steamId64 fresh update l) <= S (List.length l))%nat.
Proof.
  unfold upsert. destruct (existsb _ l).
  - rewrite length_map. lia.
  - rewrite length_app. cbn. lia.
Qed.

(** The ranking follows the last write of a player: after a failed
    save the player is in no ranking (its numbers stay in the table);
    after a successful save the player is ranked on a column exactly
    when the scrape gave that column a value other than [0], and is
    then ranked by that value as the column holds it. *)
Theorem ranking_follows_last_write (steamId64 : string) (now : Z)
  (t : Tables) (limit : nat) (orderBy : Argument) :
  let f := column_field (order_column orderBy) in
  (forall errorMessage r,
      In r (getTopPlayers limit orderBy
              (savePlayerStatsError steamId64 errorMessage now t)) ->
      ps_steam_id64 r <> steamId64) /\
  (forall playerData r,
      bound_value playerData f = None ->
      In r (getTopPlayers limit orderBy
              (savePlayerStats steamId64 playerData now t)) ->
      ps_steam_id64 r <> steamId64) /\
  (forall playerData,
      bound_value playerData f <> None ->
      exists r,
        In r (getTopPlayers (S (List.length (player_stats t))) orderBy
                (savePlayerStats steamId64 playerData now t)) /\
        ps_steam_id64 r = steamId64 /\
        numeric (ps_column r f) = numeric (bound_value playerData f)).
Proof.
  intro f. split; [| split].
  - intros errorMessage r Hr Hk.
    apply top_rows_qualify in Hr as (Hin & Hs & _).
    unfold savePlayerStatsError in Hin. cbn [player_stats] in Hin.
    apply in_upsert in Hin; [| assumption | intro; reflexivity].
    destruct Hin as [-> | [x ->]]; discriminate Hs.
  - intros playerData r Hnone Hr Hk.
    apply top_rows_qualify in Hr as (Hin & _ & Hc).
    fold f in Hc. apply Hc.
    unfold savePlayerStats in Hin. cbn [player_stats] in Hin.
    apply in_upsert in Hin; [| assumption | intro; reflexivity].
    destruct Hin as [-> | [x ->]];
      cbn [ps_column]; now rewrite Upsert.is_stat_column_all.
  - intros playerData Hsome.
    destruct (Readback.saved_row steamId64 playerData now t)
      as (r & Hget & Hk & Hs & _ & _ & _ & _ & Hcol).
    exists r. apply find_some in Hget as [Hin _].
    split; [| split; [exact Hk | now rewrite Hcol]].
    unfold getTopPlayers. fold f.
    rewrite firstn_all2.
    + apply (Permutation_in _ (ranked_perm f _)). apply filter_In.
      split; auto. unfold is_ranked. rewrite Hs, Hcol.
      destruct (bound_value playerData f); [reflexivity | contradiction].
    + rewrite <- (Permutation_length (ranked_perm f _)).
      etransitivity; [apply filter_length_le |].
      unfold savePlayerStats. cbn [player_stats]. apply length_upsert.
Qed.

Lemma ranking_follows_last_write_witness :
  Forall (fun r => ps_steam_id64 r <> "76561198000000001")
    (getTopPlayers 10 (arg_string "kills")
       (savePlayerStatsError "76561198000000001" "HTTP 503: busy" 30
          (savePlayerStats "76561198000000001" UpsertSpec.sample_data
             20 (mkTables [] [] [])))).
Proof.
  apply Forall_forall. intros r Hr.
  exact (proj1 (ranking_follows_last_write "76561198000000001" 30
                  (savePlayerStats "76561198000000001"
                     UpsertSpec.sample_data 20 (mkTables [] [] []))
                  10 (arg_string "kills"))
               "HTTP 503: busy" r Hr).
Defined.

End Ranking.

(* ------------------------------------------------------------------ *)
(** ** The counts of [getScrapingStats] *)
(* ------------------------------------------------------------------ *)

Module Counts.
Import DatabaseService Queries.

Lemma status_partition (l : list SteamIdRow) :
  List.length l =
  (count is_pending l +
   count (fun r => Status_eqb (sid_status r) completed) l +
   count is_failed l +
   count (fun r => Status_eqb (sid_status r) processing) l)%nat.
Proof.
  unfold count, is_pending, is_failed.
  induction l as [| r l IH]; cbn [filter List.length]; auto.
  destruct (sid_status r); cbn [Status_eqb List.length]; lia.
Qed.

(** The counts agree with each other: every row of [player_stats] is a
    successful or a failed scrape, and the identifiers that are neither
    pending, completed nor failed are those in status [processing].
    Resetting the failed identifiers moves the failed count to the
    pending count and changes no other count. *)
Theorem scraping_stats_add_up (t : Tables) :
  let s := getScrapingStats t in
  total_player_stats s = (successful_scrapes s + failed_scrapes s)%nat /\
  total_steam_ids s =
    (pending_steam_ids s + completed_steam_ids s + failed_steam_ids s +
     count (fun r => Status_eqb (sid_status r) processing) (steam_ids t))%nat /\
  forall now,
    getScrapingStats (resetAllFailedSteamIds now t) =
    {| total_steam_ids := total_steam_ids s;
       pending_steam_ids := (pending_steam_ids s + failed_steam_ids s)%nat;
       completed_steam_ids := completed_steam_ids s;
       failed_steam_ids := 0;
       total_player_stats := total_player_stats s;
       successful_scrapes := successful_scrapes s;
       failed_scrapes := failed_scrapes s |}.
Proof.
  intro s. subst s. unfold getScrapingStats.
  cbn [total_player_stats successful_scrapes failed_scrapes total_steam_ids
       pending_steam_ids completed_steam_ids failed_steam_ids].
  split; [| split].
  - unfold count. symmetry. apply filter_length.
  - apply status_partition.
  - intro now.
    destruct (Registry.reset_counts now t) as (Hf & Hp & Hc & Hlen).
    cbv zeta in *. rewrite Hf, Hp, Hc, Hlen. reflexivity.
Qed.

End Counts.

(* ------------------------------------------------------------------ *)
(** ** The run: counters, the flag, the queue *)
(* ------------------------------------------------------------------ *)

Module RunLoop.
Import DatabaseService ScraperManager OrchestratorSpec Item Batch.
Import Queries Run RunSpec.

Ltac frame :=
  cbn [tables db_faults clock isRunning processedCount successCount
       failureCount fst snd tl item_success] in *.

(** *** One identifier *)

Lemma catch_frame logId steamId64 message w :
  wp (process_catch logId steamId64 message)
     (fun r w' =>
        item_success r = false /\
        processedCount w' = processedCount w /\
        successCount w' = successCount w /\
        failureCount w' = S (failureCount w) /\
        isRunning w' = isRunning w)
     (fun _ w' =>
        processedCount w' = processedCount w /\
        successCount w' = successCount w /\
        failureCount w' = failureCount w /\
        isRunning w' = isRunning w)
     w.
Proof.
  unfold process_catch.
  apply wp_bind, wp_update; world; [intros; auto | intros _].
  apply wp_bind, wp_update; world; [intros; auto | intros _].
  apply wp_bind, wp_update; world; [intros; auto | intros _].
  apply wp_bind. unfold wp, incr_failureCount, ret. world. cbn. auto.
Qed.

Ltac flag_kept :=
  let Hstop := fresh in
  intro Hstop; rewrite ?Hstop, ?andb_true_r in *; congruence.

Ltac caught_frame :=
  eapply wp_mono; [apply catch_frame | |];
  [ let Hs := fresh in
    intros ? ? (Hs & ? & ? & ? & ?); apply wp_incr_processedCount;
    unfold counted; frame; rewrite Hs; repeat split; try lia; flag_kept
  | intros ? ? (? & ? & ? & ?); apply wp_incr_processedCount;
    unfold behind; frame; repeat split; try lia; flag_kept ].

Lemma item_frame browse steamId64 w :
  wp (processSingleSteamId browse steamId64)
     (fun r w' =>
        counted (if item_success r then 1 else 0)
                (if item_success r then 0 else 1) w w' /\
        (stop_requested (browse steamId64) = false ->
         isRunning w' = isRunning w))
     (fun _ w' =>
        behind w w' /\
        (stop_requested (browse steamId64) = false ->
         isRunning w' = isRunning w))
     w.
Proof.
  unfold processSingleSteamId.
  apply wp_bind, wp_execute; world;
    [intros; unfold behind; frame; repeat split; lia | intros _].
  apply wp_finally, wp_try_catch. unfold process_try.
  apply wp_bind, wp_update; world; [intros m _; caught_frame | intros _].
  apply wp_bind, wp_scrapePlayerStats; world;
    [intros m _; caught_frame | intros _].
  destruct (scrape_result (browse steamId64))
    as [playerData time count | message time].
  - apply wp_bind, wp_update; world; [intros m _; caught_frame | intros _].
    apply wp_bind, wp_update; world; [intros m _; caught_frame | intros _].
    apply wp_bind, wp_update; world; [intros m _; caught_frame | intros _].
    apply wp_bind. unfold wp at 1. unfold incr_successCount. world.
    apply wp_ret, wp_incr_processedCount. unfold counted. frame.
    repeat split; try lia.
    intro Hstop. now rewrite Hstop, andb_true_r.
  - apply wp_bind, wp_update; world; [intros m _; caught_frame | intros _].
    apply wp_bind, wp_update; world; [intros m _; caught_frame | intros _].
    apply wp_bind, wp_update; world; [intros m _; caught_frame | intros _].
    apply wp_bind. unfold wp at 1. unfold incr_failureCount. world.
    apply wp_ret, wp_incr_processedCount. unfold counted. frame.
    repeat split; try lia.
    intro Hstop. now rewrite Hstop, andb_true_r.
Qed.

(** *** One batch *)

Lemma counted_behind ok ko w w' : counted ok ko w w' -> behind w w'.
Proof. unfold counted, behind. lia. Qed.

Lemma behind_trans w1 w2 w3 : behind w1 w2 -> behind w2 w3 -> behind w1 w3.
Proof. unfold behind. lia. Qed.

Section Frame.

Variable browse : string -> Visit.

Lemma wp_batch_loop_next pendingSteamIds p rest results Q E w :
  isRunning w = true ->
  wp (result <- processSingleSteamId browse (sid_steam_id64 p) ;;
      (if (index_of (sid_steam_id64 p) pendingSteamIds 0 <?
           List.length pendingSteamIds - 1)%nat
       then delay delay_ms else ret tt) ;;
      batch_loop browse pendingSteamIds rest (results ++ [result]))%js
     Q E w ->
  wp (batch_loop browse pendingSteamIds (p :: rest) results) Q E w.
Proof. unfold wp. cbn [batch_loop]. now intros ->. Qed.

Lemma wp_batch_loop_idle pendingSteamIds p rest results
  (Q : list ItemResult -> World -> Prop) E w :
  isRunning w = false ->
  Q results w ->
  wp (batch_loop browse pendingSteamIds (p :: rest) results) Q E w.
Proof. unfold wp. cbn [batch_loop]. now intros ->. Qed.

Lemma wp_batches_next fuel Q E w :
  isRunning w = true ->
  wp (batchResult <- processBatch browse ;;
      if br_completed batchResult || (br_processed batchResult =? 0)%nat
      then ret (Some tt)
      else
        (fun w' => if isRunning w' then delay 1000 w' else ret tt w') ;;
        batches browse fuel)%js
     Q E w ->
  wp (batches browse (S fuel)) Q E w.
Proof. unfold wp. cbn [batches]. now intros ->. Qed.

Lemma wp_batches_idle fuel (Q : option unit -> World -> Prop) E w :
  isRunning w = false ->
  Q (Some tt) w ->
  wp (batches browse (S fuel)) Q E w.
Proof. unfold wp. cbn [batches]. now intros ->. Qed.

Lemma batch_loop_frame pendingSteamIds remaining :
  forall results w,
    wp (batch_loop browse pendingSteamIds remaining results)
       (fun res w' =>
          (exists items,
              res = results ++ items /\
              counted (count item_success items)
                      (count (fun r => negb (item_success r)) items) w w') /\
          (never_stopped browse -> isRunning w' = isRunning w))
       (fun _ w' =>
          behind w w' /\
          (never_stopped browse -> isRunning w' = isRunning w))
       w.
Proof.
  induction remaining as [| p rest IH]; intros results w.
  - apply wp_ret. split; auto. exists []. rewrite app_nil_r.
    unfold counted, count. cbn. split; [reflexivity | lia].
  - destruct (isRunning w) eqn:Hrun.
    + apply wp_batch_loop_next; [exact Hrun |].
      apply wp_bind.
      eapply wp_mono; [apply item_frame | |].
      * intros r w1 [Hc Hflag].
        apply wp_bind, wp_pause. intro ck.
        eapply wp_mono; [apply IH | |].
        -- intros res w' [(items & Hres & Hc') Hflag']. frame.
           split.
           ++ exists (r :: items). split.
              ** rewrite Hres, <- app_assoc. reflexivity.
              ** unfold counted, count in *. frame. cbn [filter].
                 destruct (item_success r); cbn [negb List.length]; lia.
           ++ intro Hcalm. rewrite Hflag' by auto.
              rewrite Hflag by apply Hcalm. congruence.
        -- intros e w' [Hb Hflag']. frame. split.
           ++ apply counted_behind in Hc.
              eapply behind_trans; [exact Hc |].
              unfold behind in *. frame. lia.
           ++ intro Hcalm. rewrite Hflag' by auto.
              rewrite Hflag by apply Hcalm. congruence.
      * intros e w' [Hb Hflag]. split; auto.
        intro Hcalm. rewrite Hflag by apply Hcalm. congruence.
    + apply wp_batch_loop_idle; [exact Hrun |].
      split; auto. exists []. rewrite app_nil_r.
      unfold counted, count. cbn. split; [reflexivity | lia].
Qed.

(** Whenever [processBatch] returns, the numbers it reports are the
    amounts by which the counters of the manager have grown. *)
Lemma processBatch_frame w :
  wp (processBatch browse)
     (fun r w' =>
        (if br_completed r
         then br_processed r = 0%nat /\ counted 0 0 w w'
         else exists ok ko,
             br_successful r = Some ok /\ br_failed r = Some ko /\
             br_processed r = (ok + ko)%nat /\ counted ok ko w w') /\
        (never_stopped browse -> isRunning w' = isRunning w))
     (fun _ w' =>
        behind w w' /\
        (never_stopped browse -> isRunning w' = isRunning w))
     w.
Proof.
  unfold processBatch. apply wp_try_catch.
  apply wp_bind, wp_execute; world.
  { intros m _. unfold wp, behind. frame. split; [lia | auto]. }
  intros _.
  destruct (getPendingSteamIds batchSize (tables w)) as [| p pending].
  - cbn [List.length Nat.eqb]. apply wp_ret. cbn [br_completed br_processed].
    unfold counted. frame. split; [split; [reflexivity | lia] | auto].
  - cbn [List.length Nat.eqb]. apply wp_bind.
    eapply wp_mono; [apply batch_loop_frame | |].
    + intros res w' [(items & Hres & Hc) Hflag]. frame.
      apply wp_ret.
      cbn [br_completed br_processed br_successful br_failed].
      split; auto. cbn [app] in Hres. subst res.
      exists (count item_success items),
             (count (fun r => negb (item_success r)) items).
      repeat split; auto.
      * unfold count. now rewrite filter_length.
      * apply Hc.
      * apply Hc.
      * apply Hc.
    + intros e w' [Hb Hflag]. unfold wp. frame. auto.
Qed.

(** *** The loop over the batches *)

Lemma wp_pause_between Q E w :
  (forall ck, Q tt (mkWorld (tables w) (db_faults w) ck (isRunning w)
                      (processedCount w) (successCount w) (failureCount w))) ->
  wp (fun w' => if isRunning w' then delay 1000 w' else ret tt w') Q E w.
Proof.
  intro H. unfold wp. cbv beta. destruct (isRunning w) eqn:Hrun.
  - unfold delay. rewrite Hrun.
    apply H.
  - unfold ret. destruct w. cbn in Hrun, H. subst. apply H.
Qed.

Lemma batches_frame fuel :
  forall w,
    wp (batches browse fuel)
       (fun _ w' => exists ok ko, counted ok ko w w')
       (fun _ w' => behind w w') w.
Proof.
  induction fuel as [| fuel IH]; intro w.
  - apply wp_ret. exists 0%nat, 0%nat. unfold counted. lia.
  - destruct (isRunning w) eqn:Hrun.
    + apply wp_batches_next; [exact Hrun |].
      apply wp_bind.
      eapply wp_mono; [apply processBatch_frame | |].
      * intros r w1 [Hc _].
        assert (Hc1 : exists ok ko, counted ok ko w w1).
        { destruct (br_completed r).
          - destruct Hc as [_ Hc]; eauto.
          - destruct Hc as (ok & ko & _ & _ & _ & Hc); eauto. }
        clear Hc. destruct Hc1 as (ok & ko & Hc).
        destruct (br_completed r || (br_processed r =? 0)%nat).
        -- apply wp_ret. eauto.
        -- apply wp_bind, wp_pause_between. intro ck.
           eapply wp_mono; [apply IH | |].
           ++ intros a w' (ok' & ko' & Hc'). exists (ok + ok')%nat, (ko + ko')%nat.
              unfold counted in *. frame. lia.
           ++ intros e w' Hb. apply counted_behind in Hc.
              eapply behind_trans; [exact Hc |].
              unfold behind in *. frame. lia.
      * intros e w' [Hb _]. exact Hb.
    + apply wp_batches_idle; [exact Hrun |].
      exists 0%nat, 0%nat. unfold counted. lia.
Qed.

End Frame.

(** *** The queue during an undisturbed run *)

Lemma mentions_spec (L : list string) (k : string) :
  mentions L k = true <-> In k L.
Proof.
  unfold mentions. rewrite existsb_exists. split.
  - intros (x & Hx & He). apply String.eqb_eq in He. now subst.
  - intro H. exists k. split; auto. apply String.eqb_refl.
Qed.

Lemma selected_rows (t : Tables) (p : SteamIdRow) :
  In p (getPendingSteamIds batchSize t) ->
  In p (steam_ids t) /\ is_pending p = true.
Proof.
  unfold getPendingSteamIds. intro H. apply Selection.in_firstn in H.
  apply (Permutation_in _ (Permutation_sym (Selection.order_by_perm _))) in H.
  now apply filter_In in H.
Qed.

Lemma NoDup_firstn {A} (n : nat) (l : list A) :
  NoDup l -> NoDup (firstn n l).
Proof.
  intro H. revert n.
  induction H as [| x l Hx H IH]; intros [| n]; cbn; try constructor; auto.
  intro Hin. apply Hx. eapply Selection.in_firstn; eauto.
Qed.

Lemma filtered_ids_unique (p : SteamIdRow -> bool) (rows : list SteamIdRow) :
  unique_ids rows -> unique_ids (filter p rows).
Proof.
  unfold unique_ids.
  induction rows as [| r rows IH]; cbn [map filter]; intro Hu; auto.
  apply NoDup_cons_iff in Hu as [Hnew Hu].
  destruct (p r); cbn [map]; auto.
  apply NoDup_cons; auto.
  intro Hin. apply Hnew. apply in_map_iff in Hin as (x & Hx & Hin).
  apply filter_In in Hin as [Hin _]. rewrite <- Hx. now apply in_map.
Qed.

Lemma selected_ids_unique (t : Tables) :
  unique_ids (steam_ids t) -> NoDup (ids (getPendingSteamIds batchSize t)).
Proof.
  unfold unique_ids, ids, getPendingSteamIds. intro H.
  rewrite <- firstn_map. apply NoDup_firstn.
  eapply Permutation_NoDup;
    [apply Permutation_map, Selection.order_by_perm |].
  now apply filtered_ids_unique.
Qed.

Lemma mentioned_is_pending (t : Tables) (r0 : SteamIdRow) :
  unique_ids (steam_ids t) -> In r0 (steam_ids t) ->
  mentions (ids (getPendingSteamIds batchSize t)) (sid_steam_id64 r0) = true ->
  is_pending r0 = true.
Proof.
  intros Hu Hin Hm. apply mentions_spec in Hm.
  apply in_map_iff in Hm as (p & Hk & Hp).
  apply selected_rows in Hp as [Hp Hpend].
  now rewrite (Registry.unique_rows sid_steam_id64 (steam_ids t) r0 p
                 Hu Hin Hp).
Qed.

Lemma settled_keys (L : list string) (before after : list SteamIdRow) :
  settled L before after ->
  map sid_steam_id64 after = map sid_steam_id64 before.
Proof.
  induction 1 as [| r0 r b a [Hk _] _ IH]; cbn; congruence.
Qed.

Lemma terminal_not_pending (r : SteamIdRow) :
  terminal (sid_status r) -> is_pending r = false.
Proof. unfold is_pending. now intros [-> | ->]. Qed.

Lemma settle_counts (g : string -> bool) (L : list string)
  (before after : list SteamIdRow) :
  settled L before after ->
  (forall r0, In r0 before -> mentions L (sid_steam_id64 r0) = true ->
              is_pending r0 = true) ->
  (List.length (pending_with g after) +
   List.length (filter (fun r0 => mentions L (sid_steam_id64 r0) &&
                                  g (sid_steam_id64 r0)) before))%nat =
  List.length (pending_with g before).
Proof.
  unfold settled, pending_with.
  induction 1 as [| r0 r b a [Hk Hr] _ IH]; intro Hp;
    cbn [filter List.length]; auto.
  specialize (IH (fun x Hx => Hp x (or_intror Hx))).
  destruct (mentions L (sid_steam_id64 r0)) eqn:Hm.
  - rewrite (Hp r0 (or_introl eq_refl) Hm), Hk.
    rewrite (terminal_not_pending r Hr). cbn [andb].
    destruct (g (sid_steam_id64 r0)); cbn [List.length]; lia.
  - subst r. cbn [andb].
    destruct (is_pending r0 && g (sid_steam_id64 r0));
      cbn [List.length]; lia.
Qed.

Lemma filter_map_keys_comm {A B} (f : A -> B) (p : B -> bool) (l : list A) :
  map f (filter (fun a => p (f a)) l) = filter p (map f l).
Proof.
  induction l as [| a l IH]; cbn; auto.
  destruct (p (f a)); cbn; now rewrite IH.
Qed.

Lemma mentioned_count (g : string -> bool) (L : list string)
  (rows : list SteamIdRow) :
  NoDup (map sid_steam_id64 rows) -> NoDup L ->
  incl L (map sid_steam_id64 rows) ->
  List.length (filter (fun r0 => mentions L (sid_steam_id64 r0) &&
                                 g (sid_steam_id64 r0)) rows) =
  List.length (filter g L).
Proof.
  intros Hk HL Hincl.
  rewrite <- (length_map sid_steam_id64).
  rewrite (filter_map_keys_comm sid_steam_id64
             (fun k => mentions L k && g k)).
  apply Permutation_length, NoDup_Permutation.
  - now apply NoDup_filter.
  - now apply NoDup_filter.
  - intro x. rewrite !filter_In, andb_true_iff, mentions_spec.
    split; [tauto |]. intros [Hx Hg]. auto.
Qed.

Lemma settled_advanced (L : list string) (before after : list SteamIdRow) :
  settled L before after ->
  (forall r0, In r0 before -> mentions L (sid_steam_id64 r0) = true ->
              is_pending r0 = true) ->
  advanced before after.
Proof.
  unfold settled, advanced.
  induction 1 as [| r0 r b a [Hk Hr] _ IH]; intro Hp; constructor.
  - split; auto.
    destruct (mentions L (sid_steam_id64 r0)) eqn:Hm.
    + rewrite (Hp r0 (or_introl eq_refl) Hm). now left.
    + subst r. destruct (is_pending r0); auto.
  - apply IH. intros x Hx. apply Hp. now right.
Qed.

Lemma advanced_trans (a b c : list SteamIdRow) :
  advanced a b -> advanced b c -> advanced a c.
Proof.
  unfold advanced. intro Hab. revert c.
  induction Hab as [| r0 r1 a b [Hk1 H1] _ IH]; intros c Hbc;
    inversion Hbc as [| ? r2 ? c' [Hk2 H2] Hbc']; subst; constructor; auto.
  split; [congruence |].
  destruct (is_pending r0) eqn:Hp0.
  - destruct H1 as [H1 | ->].
    + rewrite (terminal_not_pending r1 H1) in H2. subst r2. now left.
    + rewrite Hp0 in H2. exact H2.
  - subst r1. rewrite Hp0 in H2. exact H2.
Qed.

Lemma advanced_drained (a b : list SteamIdRow) :
  advanced a b -> count is_pending b = 0%nat -> drained a b.
Proof.
  unfold advanced, drained, count.
  induction 1 as [| r0 r a' b' [Hk Hr] _ IH]; intro Hz; constructor.
  - split; auto. cbn [filter] in Hz.
    destruct (is_pending r0) eqn:Hp0; auto.
    destruct Hr as [Hr | ->]; auto.
    rewrite Hp0 in Hz. discriminate Hz.
  - apply IH. cbn [filter] in Hz.
    destruct (is_pending r); [discriminate Hz | exact Hz].
Qed.

Lemma pending_partition (g : string -> bool) (rows : list SteamIdRow) :
  count is_pending rows =
  (List.length (pending_with g rows) +
   List.length (pending_with (fun i => negb (g i)) rows))%nat.
Proof.
  unfold count, pending_with.
  induction rows as [| r rows IH]; cbn [filter List.length]; auto.
  destruct (is_pending r), (g (sid_steam_id64 r));
    cbn [andb negb List.length]; lia.
Qed.

Lemma none_selected (t : Tables) (g : string -> bool) :
  getPendingSteamIds batchSize t = [] ->
  pending_with g (steam_ids t) = [].
Proof.
  unfold getPendingSteamIds, batchSize, pending_with. intro H.
  destruct (filter (fun r => is_pending r && g (sid_steam_id64 r))
              (steam_ids t)) as [| r l] eqn:Hl; [reflexivity |].
  exfalso.
  assert (Hr : In r (filter is_pending (steam_ids t))).
  { assert (Hin : In r (r :: l)) by now left.
    rewrite <- Hl in Hin. apply filter_In in Hin as [Hin Hp].
    apply andb_true_iff in Hp as [Hp _]. now apply filter_In. }
  apply (Permutation_in _ (Selection.order_by_perm _)) in Hr.
  destruct (order_by (filter is_pending (steam_ids t))); [destruct Hr |].
  discriminate H.
Qed.

Section Drain.

Variable browse : string -> Visit.
Hypothesis Hcalm : never_stopped browse.

Lemma batch_step w :
  db_faults w = [] -> isRunning w = true ->
  unique_ids (steam_ids (tables w)) ->
  wp (processBatch browse)
     (fun r w' =>
        let pending := getPendingSteamIds batchSize (tables w) in
        db_faults w' = [] /\ isRunning w' = true /\
        br_processed r = List.length pending /\
        (pending <> [] -> br_completed r = false) /\
        advanced (steam_ids (tables w)) (steam_ids (tables w')) /\
        unique_ids (steam_ids (tables w')) /\
        (forall g,
            (List.length (pending_with g (steam_ids (tables w'))) +
             List.length (filter g (ids pending)))%nat =
            List.length (pending_with g (steam_ids (tables w)))) /\
        counted
          (List.length (filter (scrape_succeeds browse) (ids pending)))
          (List.length
             (filter (fun i => negb (scrape_succeeds browse i))
                     (ids pending)))
          w w')
     (fun _ _ => False) w.
Proof.
  intros Hf Hrun Hu.
  eapply wp_mono;
    [apply wp_conj;
     [apply (processBatch_unfaulted browse w Hf)
     | apply (processBatch_frame browse w)]
    | | intros e w' [[] _]].
  intros r w' [Hunf [Hfr Hflag]].
  unfold batch_unfaulted in Hunf. rewrite Hrun in Hunf.
  rewrite started_all in Hunf by (intros; apply Hcalm).
  cbv zeta in *. destruct Hunf as (Hf' & Hn & Hne & Hpc & Hset).
  assert (Hpend : forall r0,
             In r0 (steam_ids (tables w)) ->
             mentions (ids (getPendingSteamIds batchSize (tables w)))
                      (sid_steam_id64 r0) = true ->
             is_pending r0 = true)
    by (intros; eapply mentioned_is_pending; eauto).
  split; [exact Hf' |].
  split; [rewrite Hflag by exact Hcalm; exact Hrun |].
  split; [exact Hn |].
  split; [intro Hne'; now apply Hne |].
  split; [now apply (settled_advanced _ _ _ Hset) |].
  split; [unfold unique_ids; now rewrite (settled_keys _ _ _ Hset) |].
  split.
  - intro g. rewrite <- (settle_counts g _ _ _ Hset Hpend). f_equal.
    symmetry. apply mentioned_count; auto.
    + now apply selected_ids_unique.
    + intros k Hk. apply in_map_iff in Hk as (p & <- & Hp).
      apply in_map. now apply selected_rows in Hp.
  - destruct (getPendingSteamIds batchSize (tables w)) as [| p pending].
    + cbn [List.length ids map filter] in *.
      destruct (br_completed r).
      * apply Hfr.
      * destruct Hfr as (ok & ko & _ & _ & Hsum & Hc).
        assert (ok = 0%nat /\ ko = 0%nat) as [-> ->] by lia. exact Hc.
    + destruct Hne as (Hcompl & Hok & Hko); [discriminate |].
      rewrite Hcompl in Hfr.
      destruct Hfr as (ok & ko & Hok' & Hko' & _ & Hc).
      rewrite Hok in Hok'. rewrite Hko in Hko'.
      injection Hok' as <-. injection Hko' as <-. exact Hc.
Qed.

Lemma batches_drain fuel :
  forall w,
    db_faults w = [] -> isRunning w = true ->
    unique_ids (steam_ids (tables w)) ->
    (count is_pending (steam_ids (tables w)) < fuel)%nat ->
    wp (batches browse fuel)
       (fun r w' =>
          r = Some tt /\
          advanced (steam_ids (tables w)) (steam_ids (tables w')) /\
          count is_pending (steam_ids (tables w')) = 0%nat /\
          counted
            (List.length
               (pending_with (scrape_succeeds browse)
                             (steam_ids (tables w))))
            (List.length
               (pending_with (fun i => negb (scrape_succeeds browse i))
                             (steam_ids (tables w))))
            w w')
       (fun _ _ => False) w.
Proof.
  induction fuel as [| fuel IH]; intros w Hf Hrun Hu Hlt; [lia |].
  apply wp_batches_next; [exact Hrun |]. apply wp_bind.
  eapply wp_mono; [apply batch_step; auto | | auto].
  intros r w1 (Hf1 & Hrun1 & Hn & Hne & Hadv & Hu1 & Hcnt & Hc).
  cbv zeta in *.
  pose proof (Hcnt (scrape_succeeds browse)) as Hok.
  pose proof (Hcnt (fun i => negb (scrape_succeeds browse i))) as Hko.
  pose proof (pending_partition (scrape_succeeds browse)
                (steam_ids (tables w))) as Hpart.
  pose proof (pending_partition (scrape_succeeds browse)
                (steam_ids (tables w1))) as Hpart1.
  pose proof (filter_length (scrape_succeeds browse)
                (ids (getPendingSteamIds batchSize (tables w)))) as Hlen.
  destruct (getPendingSteamIds batchSize (tables w)) as [| p pending] eqn:Hp.
  - cbn [List.length ids map filter] in *. rewrite Hn.
    cbn [Nat.eqb]. rewrite orb_true_r. apply wp_ret.
    rewrite (none_selected _ _ Hp) in *.
    rewrite (none_selected _ _ Hp) in *.
    cbn [List.length] in *.
    repeat split; auto; try lia; apply Hc.
  - rewrite (Hne ltac:(discriminate)), Hn. cbn [List.length Nat.eqb orb].
    apply wp_bind, wp_pause_between. intro ck.
    eapply wp_mono; [apply IH | | auto]; world; auto.
    + unfold ids in *. rewrite length_map in Hlen.
      cbn [List.length] in Hlen. lia.
    + intros a w' (Ha & Hadv' & Hz & Hc'). frame.
      split; [exact Ha |].
      split; [eapply advanced_trans; eauto |].
      split; [exact Hz |].
      unfold counted in *. frame. lia.
Qed.

End Drain.

(** *** The run *)

Lemma wp_startScraping_idle browse fuel Q E w :
  isRunning w = false ->
  wp (set_isRunning true ;;
      reset_counters ;;
      finally
        (try_catch (batches browse fuel)
                   (fun message => fun w' => (Thrown message, w')))
        (set_isRunning false))%js Q E w ->
  wp (startScraping browse fuel) Q E w.
Proof. unfold wp, startScraping. now intros ->. Qed.

(** Whenever a batch returns, the numbers it reports are the amounts by
    which the counters of the manager have grown: [processed] for
    [processedCount], [successful] for [successCount], [failed] for
    [failureCount], and [processed] is the sum of the other two.  When
    the batch throws, no counter has gone down and the successes and
    failures counted are no more than the identifiers counted. *)
Theorem batch_result_matches_counters (browse : string -> Visit)
  (w w' : World) :
  (forall r,
      processBatch browse w = (Returned r, w') ->
      processedCount w' = (processedCount w + br_processed r)%nat /\
      (br_completed r = true ->
       br_processed r = 0%nat /\
       successCount w' = successCount w /\
       failureCount w' = failureCount w) /\
      (br_completed r = false ->
       exists ok ko,
         br_successful r = Some ok /\ br_failed r = Some ko /\
         br_processed r = (ok + ko)%nat /\
         successCount w' = (successCount w + ok)%nat /\
         failureCount w' = (failureCount w + ko)%nat)) /\
  (forall message,
      processBatch browse w = (Thrown message, w') -> behind w w').
Proof.
  pose proof (processBatch_frame browse w) as H. unfold wp in H.
  split.
  - intros r Hrun. rewrite Hrun in H. destruct H as [H _].
    destruct (br_completed r).
    + destruct H as [Hz Hc]. unfold counted in Hc. rewrite Hz.
      repeat split; try lia; try discriminate.
    + destruct H as (ok & ko & Hok & Hko & Hsum & Hc).
      unfold counted in Hc. rewrite Hsum.
      repeat split; try lia; try discriminate.
      intros _. exists ok, ko. repeat split; auto; lia.
  - intros message Hrun. rewrite Hrun in H. apply H.
Qed.

Lemma batch_result_matches_counters_witness :
  let w' := snd (processBatch calm (Scenario.running [])) in
  processedCount w' = 3%nat /\ successCount w' = 2%nat /\
  failureCount w' = 1%nat.
Proof.
  intro w'.
  destruct (proj1 (batch_result_matches_counters calm
                     (Scenario.running []) w')
                  (mkBatchResult 3 (Some 2%nat) (Some 1%nat) false))
    as (Hp & _ & Hc).
  - vm_compute. reflexivity.
  - destruct (Hc eq_refl) as (ok & ko & Hok & Hko & _ & Hs & Hf).
    injection Hok as <-. injection Hko as <-.
    split; [exact Hp | split; [exact Hs | exact Hf]].
Defined.

(** A start that finds the manager running does nothing.  Otherwise,
    however the run ends (the queue is empty, [stop] was typed, a
    database call rejected, the bound on the batches was reached), the
    manager is not running afterwards; when the run returns, every
    identifier it has counted is counted as a success or as a failure,
    and when it throws, the successes and failures are no more than the
    identifiers counted. *)
Theorem startScraping_leaves_manager_idle (browse : string -> Visit)
  (fuel : nat) (w : World) :
  (isRunning w = true ->
   startScraping browse fuel w = (Returned (Some tt), w)) /\
  (isRunning w = false ->
   wp (startScraping browse fuel)
      (fun _ w' =>
         isRunning w' = false /\
         processedCount w' = (successCount w' + failureCount w')%nat)
      (fun _ w' =>
         isRunning w' = false /\
         (successCount w' + failureCount w' <= processedCount w')%nat)
      w).
Proof.
  split.
  - intro Hrun. unfold startScraping. now rewrite Hrun.
  - intro Hidle. apply wp_startScraping_idle; [exact Hidle |].
    apply wp_bind. unfold wp at 1, set_isRunning. world.
    apply wp_bind. unfold wp at 1, reset_counters. world.
    apply wp_finally, wp_try_catch.
    eapply wp_mono; [apply batches_frame | |].
    + intros a w' (ok & ko & Hc). unfold wp, set_isRunning.
      unfold counted in Hc. frame. split; [reflexivity | lia].
    + intros e w' Hb. unfold wp, set_isRunning.
      unfold behind in Hb. frame. split; [reflexivity | lia].
Qed.

Lemma startScraping_leaves_manager_idle_witness :
  isRunning (snd (startScraping calm 1 (idle [Some "read ECONNRESET"]))) =
  false.
Proof.
  pose proof (proj2 (startScraping_leaves_manager_idle calm 1
                       (idle [Some "read ECONNRESET"])) eq_refl) as H.
  unfold wp in H.
  destruct (startScraping calm 1 (idle [Some "read ECONNRESET"]))
    as [[a | e] w']; apply H.
Defined.

(** A run that nothing disturbs (no database call rejects, nobody types
    [stop]) over a table with one row per identifier, given more
    batches than there are pending identifiers, ends by itself: every
    identifier that was pending is completed or failed, every other row
    is as it was, the manager is not running, each pending identifier
    has been processed exactly once, and the success and failure
    counters are the numbers of pending identifiers whose scrape
    succeeds and does not succeed. *)
Theorem startScraping_drains_queue (browse : string -> Visit)
  (fuel : nat) (w : World) :
  isRunning w = false ->
  db_faults w = [] ->
  never_stopped browse ->
  unique_ids (steam_ids (tables w)) ->
  (count is_pending (steam_ids (tables w)) < fuel)%nat ->
  exists w',
    startScraping browse fuel w = (Returned (Some tt), w') /\
    isRunning w' = false /\
    drained (steam_ids (tables w)) (steam_ids (tables w')) /\
    processedCount w' = count is_pending (steam_ids (tables w)) /\
    successCount w' =
      List.length (pending_with (scrape_succeeds browse)
                                (steam_ids (tables w))) /\
    failureCount w' =
      List.length (pending_with (fun i => negb (scrape_succeeds browse i))
                                (steam_ids (tables w))).
Proof.
  intros Hidle Hf Hcalm Hu Hlt.
  assert (H : wp (startScraping browse fuel)
                 (fun r w' =>
                    r = Some tt /\
                    isRunning w' = false /\
                    drained (steam_ids (tables w)) (steam_ids (tables w')) /\
                    processedCount w' =
                      count is_pending (steam_ids (tables w)) /\
                    successCount w' =
                      List.length
                        (pending_with (scrape_succeeds browse)
                                      (steam_ids (tables w))) /\
                    failureCount w' =
                      List.length
                        (pending_with
                           (fun i => negb (scrape_succeeds browse i))
                           (steam_ids (tables w))))
                 (fun _ _ => False) w).
  { apply wp_startScraping_idle; [exact Hidle |].
    apply wp_bind. unfold wp at 1, set_isRunning. world.
    apply wp_bind. unfold wp at 1, reset_counters. world.
    apply wp_finally, wp_try_catch.
    eapply wp_mono;
      [apply (batches_drain browse Hcalm fuel); world; auto
      | | intros e w' []].
    intros a w' (Ha & Hadv & Hz & Hc). unfold wp, set_isRunning.
    unfold counted in Hc. frame.
    rewrite (pending_partition (scrape_succeeds browse)).
    repeat split; auto; try lia.
    now apply advanced_drained. }
  apply wp_returns in H as (r & w' & Hrun & -> & H).
  exists w'. split; auto.
Qed.

Lemma startScraping_drains_queue_witness :
  exists w',
    startScraping calm 4 (idle []) = (Returned (Some tt), w') /\
    isRunning w' = false /\
    drained (steam_ids (tables (idle []))) (steam_ids (tables w')) /\
    processedCount w' = 3%nat /\
    successCount w' = 2%nat /\
    failureCount w' = 1%nat.
Proof.
  apply (startScraping_drains_queue calm 4 (idle [])).
  - reflexivity.
  - reflexivity.
  - intro steamId64. reflexivity.
  - unfold unique_ids. cbn.
    repeat constructor; cbn; intuition discriminate.
  - cbn. lia.
Defined.

(** *** A run that is stopped *)

Section Stop.

Variable browse : string -> Visit.

Lemma batch_loop_flag pendingSteamIds remaining :
  forall results w,
    db_faults w = [] ->
    wp (batch_loop browse pendingSteamIds remaining results)
       (fun _ w' =>
          isRunning w' =
          isRunning w &&
          forallb (fun q => negb (stop_requested (browse (sid_steam_id64 q))))
                  (started browse (isRunning w) remaining))
       (fun _ _ => False) w.
Proof.
  induction remaining as [| p rest IH]; intros results w Hf.
  - apply wp_ret. destruct (isRunning w); reflexivity.
  - destruct (isRunning w) eqn:Hrun.
    + apply wp_batch_loop_next; [exact Hrun |]. apply wp_bind.
      eapply wp_mono;
        [apply processSingleSteamId_unfaulted; exact Hf
        | | intros e w' []].
      intros r w1 (Hf1 & Hrun1 & _). rewrite Hrun in Hrun1.
      apply wp_bind, wp_pause. intro ck.
      eapply wp_mono; [apply IH; exact Hf1 | | auto].
      intros res w' Hflag. frame. rewrite Hflag, Hrun1.
      cbn [started forallb andb]. reflexivity.
    + apply wp_batch_loop_idle; [exact Hrun |]. exact Hrun.
Qed.

Lemma processBatch_flag w :
  db_faults w = [] ->
  wp (processBatch browse)
     (fun _ w' =>
        isRunning w' =
        isRunning w &&
        forallb (fun q => negb (stop_requested (browse (sid_steam_id64 q))))
                (started browse (isRunning w)
                         (getPendingSteamIds batchSize (tables w))))
     (fun _ _ => False) w.
Proof.
  intro Hf. unfold processBatch. apply wp_try_catch.
  apply wp_bind, wp_execute; unfold next_fault; rewrite Hf; world;
    [discriminate | intros _].
  destruct (getPendingSteamIds batchSize (tables w)) as [| p pending].
  - cbn [List.length Nat.eqb]. apply wp_ret. world.
    destruct (isRunning w); reflexivity.
  - cbn [List.length Nat.eqb]. apply wp_bind.
    eapply wp_mono;
      [apply batch_loop_flag; reflexivity | | intros e w' []].
    intros res w' Hflag. frame. apply wp_ret. exact Hflag.
Qed.

End Stop.

(** When [stop] is typed while an identifier of the first batch is in
    flight, the run ends by itself after that identifier: the manager is
    not running, the identifiers up to that one have been processed and
    have a terminal status, and every other row, the rest of the batch
    included, is as it was. *)
Theorem stop_ends_the_run (browse : string -> Visit) (fuel : nat)
  (w : World) (pre : list SteamIdRow) (p : SteamIdRow)
  (post : list SteamIdRow) :
  isRunning w = false ->
  db_faults w = [] ->
  getPendingSteamIds batchSize (tables w) = pre ++ p :: post ->
  (forall q, In q pre ->
             stop_requested (browse (sid_steam_id64 q)) = false) ->
  stop_requested (browse (sid_steam_id64 p)) = true ->
  exists w',
    startScraping browse (S (S fuel)) w = (Returned (Some tt), w') /\
    isRunning w' = false /\
    processedCount w' = S (List.length pre) /\
    settled (ids (pre ++ [p]))
            (steam_ids (tables w)) (steam_ids (tables w')).
Proof.
  intros Hidle Hf Hpend Hpre Hp.
  assert (H : wp (startScraping browse (S (S fuel)))
                 (fun r w' =>
                    r = Some tt /\
                    isRunning w' = false /\
                    processedCount w' = S (List.length pre) /\
                    settled (ids (pre ++ [p]))
                            (steam_ids (tables w)) (steam_ids (tables w')))
                 (fun _ _ => False) w).
  { apply wp_startScraping_idle; [exact Hidle |].
    apply wp_bind. unfold wp at 1, set_isRunning. world.
    apply wp_bind. unfold wp at 1, reset_counters. world.
    apply wp_finally, wp_try_catch.
    apply wp_batches_next; [reflexivity |]. apply wp_bind.
    eapply wp_mono;
      [apply wp_conj;
       [apply processBatch_unfaulted; exact Hf
       | apply processBatch_flag; exact Hf]
      | | intros e w' [[] _]].
    intros r w1 [Hunf Hflag]. unfold batch_unfaulted in Hunf.
    frame. rewrite Hpend in *.
    rewrite (started_until_stop browse pre p post Hpre Hp) in *.
    cbv zeta in Hunf. destruct Hunf as (Hf1 & Hn & Hne & Hpc & Hset).
    destruct Hne as (Hcompl & _); [now destruct pre |].
    assert (Hstopped : isRunning w1 = false).
    { rewrite Hflag, forallb_app. cbn [forallb]. rewrite Hp.
      cbn [negb andb]. now rewrite andb_false_r. }
    rewrite Hcompl, Hn, length_app. cbn [List.length].
    rewrite Nat.add_1_r. cbn [Nat.eqb orb].
    apply wp_bind, wp_pause_between. intro ck.
    apply wp_batches_idle; [exact Hstopped |].
    unfold wp, set_isRunning. frame.
    rewrite Hpc, length_app, Nat.add_1_r. cbn [List.length].
    repeat split; auto. }
  apply wp_returns in H as (r & w' & Hrun & -> & H).
  exists w'. split; auto.
Qed.

Lemma stop_ends_the_run_witness :
  exists w',
    startScraping (Scenario.served "76561198000000001") 2 (idle []) =
    (Returned (Some tt), w') /\
    isRunning w' = false /\
    processedCount w' = 1%nat /\
    settled ["76561198000000001"]
            (steam_ids (tables (idle []))) (steam_ids (tables w')).
Proof.
  apply (stop_ends_the_run (Scenario.served "76561198000000001") 0
           (idle []) [] SelectionOrder.row_A
           [SelectionOrder.row_B; SelectionOrder.row_C]).
  - reflexivity.
  - reflexivity.
  - reflexivity.
  - intros q [].
  - reflexivity.
Defined.

End RunLoop.

(* ------------------------------------------------------------------ *)
(** ** From the page to the row that is read back *)
(* ------------------------------------------------------------------ *)

Module Roundtrip.
Import DatabaseService ScraperManager OrchestratorSpec Item Batch.
Import Queries.

(** The write to [player_stats] that processing an identifier amounts
    to, when no database call rejects. *)
Lemma item_writes browse steamId64 w :
  db_faults w = [] ->
  wp (processSingleSteamId browse steamId64)
     (fun r w' =>
        item_success r = scrape_succeeds browse steamId64 /\
        exists now,
          player_stats (tables w') =
          match escapes (browse steamId64),
                scrape_result (browse steamId64) with
          | None, Scraped playerData _ _ =>
              player_stats
                (savePlayerStats steamId64 playerData now (tables w))
          | None, Failed message _ =>
              player_stats
                (savePlayerStatsError steamId64 message now (tables w))
          | Some message, _ =>
              player_stats
                (savePlayerStatsError steamId64 message now (tables w))
          end)
     (fun _ _ => False) w.
Proof.
  intro Hf. unfold processSingleSteamId.
  apply wp_bind, wp_execute; unfold next_fault; rewrite Hf; world;
    [discriminate | intros _].
  apply wp_finally, wp_try_catch. unfold process_try.
  apply wp_bind, wp_update_unfaulted; world; [reflexivity |].
  apply wp_bind, wp_scrapePlayerStats; world.
  - intros m Hesc. unfold process_catch.
    apply wp_bind, wp_update_unfaulted; world; [reflexivity |].
    apply wp_bind, wp_update_unfaulted; world; [reflexivity |].
    apply wp_bind, wp_update_unfaulted; world; [reflexivity |].
    apply wp_bind. unfold wp at 1. unfold incr_failureCount. world.
    apply wp_ret, wp_incr_processedCount. world.
    unfold scrape_succeeds. rewrite Hesc. cbn [item_success].
    split; [reflexivity |]. eexists. reflexivity.
  - intros Hesc.
    destruct (scrape_result (browse steamId64))
      as [playerData time count | message time] eqn:Hres.
    + apply wp_bind, wp_update_unfaulted; world; [reflexivity |].
      apply wp_bind, wp_update_unfaulted; world; [reflexivity |].
      apply wp_bind, wp_update_unfaulted; world; [reflexivity |].
      apply wp_bind. unfold wp at 1. unfold incr_successCount. world.
      apply wp_ret, wp_incr_processedCount. world.
      unfold scrape_succeeds. rewrite Hesc, Hres. cbn [item_success success].
      split; [reflexivity |]. eexists. reflexivity.
    + apply wp_bind, wp_update_unfaulted; world; [reflexivity |].
      apply wp_bind, wp_update_unfaulted; world; [reflexivity |].
      apply wp_bind, wp_update_unfaulted; world; [reflexivity |].
      apply wp_bind. unfold wp at 1. unfold incr_failureCount. world.
      apply wp_ret, wp_incr_processedCount. world.
      unfold scrape_succeeds. rewrite Hesc, Hres. cbn [item_success success].
      split; [reflexivity |]. eexists. reflexivity.
Qed.

Lemma read_failed (steamId64 errorMessage : string) (now : Z) (t : Tables) :
  exists row,
    getPlayerStats steamId64
      (savePlayerStatsError steamId64 errorMessage now t) = Some row /\
    ps_scrape_success row = false /\
    ps_error_message row = Some errorMessage /\
    forall r0, getPlayerStats steamId64 t = Some r0 ->
               ps_column row = ps_column r0.
Proof.
  unfold getPlayerStats, savePlayerStatsError. cbn [player_stats].
  rewrite Readback.read_upsert by reflexivity.
  destruct (find _ (player_stats t)) as [r0 |];
    eexists; (split; [reflexivity |]);
    cbn [option_map as_stored ps_scrape_success ps_error_message
         ps_column];
    (split; [reflexivity | split; [reflexivity |]]);
    intros r1 H; [injection H as <-; reflexivity | discriminate H].
Qed.

Lemma read_through (steamId64 : string) (t1 t2 : Tables) :
  player_stats t1 = player_stats t2 ->
  getPlayerStats steamId64 t1 = getPlayerStats steamId64 t2.
Proof. unfold getPlayerStats. now intros ->. Qed.

(** When no database call rejects, the row that [getPlayerStats] returns
    for an identifier after it has been processed is a success row when
    the scrape succeeds, each stat column holding what its type keeps of
    the value of the scrape ([0] stored as [NULL], two decimals in
    [kd_ratio] and [hltv_rating]), and otherwise a failure row with the
    message of the scrape and the numbers that were there before; the
    rows of other identifiers read as before. *)
Theorem processed_id_reads_back (browse : string -> Visit)
  (steamId64 : string) (w : World) :
  db_faults w = [] ->
  exists r w' row,
    processSingleSteamId browse steamId64 w = (Returned r, w') /\
    getPlayerStats steamId64 (tables w') = Some row /\
    ps_scrape_success row = scrape_succeeds browse steamId64 /\
    item_success r = scrape_succeeds browse steamId64 /\
    (forall playerData time count,
        escapes (browse steamId64) = None ->
        scrape_result (browse steamId64) = Scraped playerData time count ->
        forall f,
          ps_column row f =
          stored_as f (or_null (get (data_stats playerData) f))) /\
    (scrape_succeeds browse steamId64 = false ->
     ps_error_message row = scrape_error browse steamId64 /\
     forall r0, getPlayerStats steamId64 (tables w) = Some r0 ->
                ps_column row = ps_column r0) /\
    (forall other, other <> steamId64 ->
                   getPlayerStats other (tables w') =
                   getPlayerStats other (tables w)).
Proof.
  intro Hf.
  destruct (wp_returns _ _ _ (item_writes browse steamId64 w Hf))
    as (r & w' & Hrun & Hs & now & Hps).
  unfold scrape_succeeds, scrape_error in *.
  destruct (escapes (browse steamId64)) as [m |] eqn:Hesc;
    [| destruct (scrape_result (browse steamId64))
         as [playerData time count | message time] eqn:Hres].
  - destruct (read_failed steamId64 m now (tables w))
      as (row & Hget & Hok & Herr & Hcol).
    exists r, w', row. rewrite (read_through _ _ _ Hps).
    repeat split; auto; try discriminate.
    intros other Hne.
    eapply Readback.read_other; [exact Hne | | | exact Hps]; reflexivity.
  - destruct (Readback.read_saved steamId64 playerData now (tables w))
      as (row & Hget & Hk & Hok & Hcol).
    exists r, w', row. rewrite (read_through _ _ _ Hps).
    cbn [success error]. repeat split; auto; try discriminate.
    + intros d t c _ Heq f. injection Heq as <- _ _. apply Hcol.
    + intros other Hne.
      eapply Readback.read_other; [exact Hne | | | exact Hps]; reflexivity.
  - destruct (read_failed steamId64 message now (tables w))
      as (row & Hget & Hok & Herr & Hcol).
    exists r, w', row. rewrite (read_through _ _ _ Hps).
    cbn [success error]. repeat split; auto; try discriminate.
    intros other Hne.
    eapply Readback.read_other; [exact Hne | | | exact Hps]; reflexivity.
Qed.

Lemma processed_id_reads_back_witness :
  exists r w' row,
    processSingleSteamId RunSpec.calm "76561198000000001"
      (Scenario.running []) = (Returned r, w') /\
    getPlayerStats "76561198000000001" (tables w') = Some row /\
    ps_scrape_success row = true /\
    ps_column row kills = Some (VInt 4821).
Proof.
  destruct (processed_id_reads_back RunSpec.calm "76561198000000001"
              (Scenario.running []) eq_refl)
    as (r & w' & row & Hrun & Hget & Hok & _ & Hcol & _).
  exists r, w', row. split; [exact Hrun |]. split; [exact Hget |].
  split; [exact Hok |].
  exact (Hcol _ _ _ eq_refl eq_refl kills).
Defined.

End Roundtrip.
